(** * Ellie backend control plane: circuit breakers, rate limiter,
      service registry and connection manager.

    A shallow embedding of the four services under
    [app/services/] ([circuit_breaker.py], [rate_limiter.py] with
    [cache_service.py], [service_discovery.py], [websocket_manager.py])
    and of the exception classes of [app/core/exceptions.py] they raise.

    Conventions.
    - Python [dict]s keyed by strings are [gmap string _]; the service
      registry, whose iteration order is observable ([services[0]], ties
      of [min]), is an insertion-ordered association list.
    - [time.time()] is an explicit argument [now : Z] of every operation
      that reads the clock (one reading per operation).
    - Calls into the environment (the wrapped operation of a breaker, the
      HTTP probe, the socket transport, the key-value backend) are
      arguments giving the outcome of the call; an outcome is a returned
      value or a raised exception.
    - Logging has no effect on the modelled state and is left out. *)

From Stdlib Require Import ZArith QArith Lia Ascii.
From stdpp Require Import gmap strings list fin_maps pretty.

Open Scope Z_scope.

(** ** Exceptions ([app/core/exceptions.py]) *)

Module Exceptions.

(** The exception values that reach the modelled code. The two
    [EllieException] subclasses used by the breaker manager are kept as
    classes of their own; [PyException] is any other instance of Python's
    [Exception] (with its class name and [str(e)]), [PyBaseException] an
    exception that does not derive from [Exception] (task cancellation,
    interpreter exit), which an [except Exception] clause lets through. *)
Inductive exn : Type :=
| CircuitBreakerOpenError (service : string)
| ExternalServiceError (service message : string)
| PyException (type_name msg : string)
| PyBaseException (type_name msg : string).

(** [isinstance(e, Exception)]. *)
Definition is_Exception (e : exn) : bool :=
  match e with
  | PyBaseException _ _ => false
  | _ => true
  end.

(** [EllieException.message], which is also [str(e)]. *)
Definition message (e : exn) : string :=
  match e with
  | CircuitBreakerOpenError service =>
      "Circuit breaker is open for service: " +:+ service
  | ExternalServiceError service msg =>
      "External service error (" +:+ service +:+ "): " +:+ msg
  | PyException _ msg => msg
  | PyBaseException _ msg => msg
  end.

Definition str (e : exn) : string := message e.

(** [EllieException.code]; [None] for exceptions that are not
    [EllieException]s. *)
Definition code (e : exn) : option string :=
  match e with
  | CircuitBreakerOpenError _ => Some "CIRCUIT_BREAKER_OPEN"
  | ExternalServiceError _ _ => Some "EXTERNAL_SERVICE_ERROR"
  | _ => None
  end.

(** [EllieException.status_code]. *)
Definition status_code (e : exn) : option Z :=
  match e with
  | CircuitBreakerOpenError _ => Some 503
  | ExternalServiceError _ _ => Some 502
  | _ => None
  end.

(** [EllieException.details["service"]]. *)
Definition details_service (e : exn) : option string :=
  match e with
  | CircuitBreakerOpenError service => Some service
  | ExternalServiceError service _ => Some service
  | _ => None
  end.

(** [type(e).__name__]. *)
Definition type_name (e : exn) : string :=
  match e with
  | CircuitBreakerOpenError _ => "CircuitBreakerOpenError"
  | ExternalServiceError _ _ => "ExternalServiceError"
  | PyException n _ => n
  | PyBaseException n _ => n
  end.

End Exceptions.

(** The outcome of a call: a returned value or a raised exception. *)
Definition outcome (A : Type) : Type := (Exceptions.exn + A)%type.
Definition Returns {A : Type} (a : A) : outcome A := inr a.
Definition Raises {A : Type} (e : Exceptions.exn) : outcome A := inl e.

(** Python's [x or d] on an optional integer: [None] and [0] are falsy. *)
Definition int_or (x : option Z) (d : Z) : Z :=
  match x with
  | Some v => if decide (v = 0) then d else v
  | None => d
  end.

(** ** Settings ([app/core/config.py]) *)

(** The settings the four services read. Every one of them can be
    overridden from the environment, so they are data, not constants. *)
Record Settings : Type := mkSettings {
  CACHE_TTL : Z;
  RATE_LIMIT_REQUESTS : Z;
  RATE_LIMIT_WINDOW : Z;
  CIRCUIT_BREAKER_FAILURE_THRESHOLD : Z;
  CIRCUIT_BREAKER_RECOVERY_TIMEOUT : Z
}.

(** The defaults of [class Settings]. *)
Definition default_settings : Settings := mkSettings 3600 100 60 5 60.

(** [Settings.circuit_breaker_config]. *)
Record Config : Type := mkConfig {
  cfg_failure_threshold : Z;
  cfg_recovery_timeout : Z
}.

Definition circuit_breaker_config (settings : Settings) : Config :=
  mkConfig (CIRCUIT_BREAKER_FAILURE_THRESHOLD settings)
           (CIRCUIT_BREAKER_RECOVERY_TIMEOUT settings).

(** ** Circuit breaker manager ([app/services/circuit_breaker.py]) *)

Module CircuitBreaker.
Import Exceptions.

(** [class CircuitBreakerState(Enum)]. *)
Inductive CircuitBreakerState : Type := CLOSED | OPEN | HALF_OPEN.

Definition value (s : CircuitBreakerState) : string :=
  match s with
  | CLOSED => "closed"
  | OPEN => "open"
  | HALF_OPEN => "half_open"
  end.

(** [@dataclass class CircuitBreakerStats]. *)
Record CircuitBreakerStats : Type := mkStats {
  name : string;
  state : CircuitBreakerState;
  failure_count : Z;
  success_count : Z;
  total_calls : Z;
  last_failure_time : option Z;
  last_success_time : option Z;
  recovery_timeout : Z;
  failure_threshold : Z;
  success_threshold : Z;
  call_timeout : Z;
  created_at : Z
}.

(** The events on which the third-party breaker notifies its listeners. *)
Inductive Transition : Type := Opened | Closed | HalfOpened.

(** A listener registered with [add_listener]: the closure returned by
    [_on_circuit_breaker_open(name)], [_on_circuit_breaker_close(name)] or
    [_on_circuit_breaker_half_open(name)]. *)
Inductive Listener : Type :=
| on_open (name : string)
| on_close (name : string)
| on_half_open (name : string).

(** Modelled from the spec: the class [circuitbreaker.CircuitBreaker]
    (imported as [BaseCircuitBreaker]) is a third-party package that is
    not part of the repository. The fields are the ones the manager
    passes to its constructor and pokes in [reset_circuit_breaker]
    ([_failure_count], [_last_failure], [_state]). *)
Record BaseCircuitBreaker : Type := mkBreaker {
  _failure_threshold : Z;
  _recovery_timeout : Z;
  _failure_count : Z;
  _last_failure : option Z;
  _state : CircuitBreakerState;
  _listeners : list Listener
}.

Definition set_breaker (b : BaseCircuitBreaker) (n : Z) (lf : option Z)
    (s : CircuitBreakerState) : BaseCircuitBreaker :=
  mkBreaker (_failure_threshold b) (_recovery_timeout b) n lf s (_listeners b).

(** Modelled from the spec: [BaseCircuitBreaker.add_listener]. *)
Definition add_listener (l : Listener) (b : BaseCircuitBreaker)
    : BaseCircuitBreaker :=
  mkBreaker (_failure_threshold b) (_recovery_timeout b) (_failure_count b)
            (_last_failure b) (_state b) (_listeners b ++ [l]).

(** Modelled from the spec: the transition out of "open" (spec 4.2:
    after [recovery_timeout] elapses since the last failure, transition to
    half_open). The transition is taken when the breaker is next
    consulted at time [now]. *)
Definition recover (now : Z) (b : BaseCircuitBreaker)
    : BaseCircuitBreaker * list Transition :=
  match _state b, _last_failure b with
  | OPEN, Some t =>
      if decide (t + _recovery_timeout b <= now)
      then (set_breaker b (_failure_count b) (_last_failure b) HALF_OPEN,
            [HalfOpened])
      else (b, [])
  | _, _ => (b, [])
  end.

(** Modelled from the spec: the attribute [current_state] of the
    third-party breaker, read at time [now]. *)
Definition current_state (now : Z) (b : BaseCircuitBreaker) : string :=
  value (_state (fst (recover now b))).

(** Modelled from the spec: calling the decorated operation
    [circuit_breaker(func)(...)] of the third-party breaker, following the
    state machine of spec 4.2.
    - closed: the call passes through; each failure increments the
      failure count, and the breaker opens when the count reaches the
      threshold;
    - open: the call is rejected without invoking the operation;
    - half_open: a success closes the breaker and resets the failure
      count, a failure re-opens it and restarts the recovery timer.
    A failure is an exception of the classes given as
    [expected_exception], which the manager always sets to
    [(Exception,)]; other exceptions pass through uncounted. The
    operation runs on a world [W] it may change. *)
Definition breaker_call {W R : Type} (now : Z) (b : BaseCircuitBreaker)
    (func : W → W * outcome R) (w : W)
    : BaseCircuitBreaker * list Transition * W * outcome R :=
  let '(b1, ev) := recover now b in
  match _state b1 with
  | OPEN => (b1, ev, w, Raises (PyException "CircuitBreakerError" "open"))
  | CLOSED =>
      let '(w', r) := func w in
      match r with
      | inr v => (b1, ev, w', Returns v)
      | inl e =>
          if is_Exception e then
            let n := _failure_count b1 + 1 in
            if decide (_failure_threshold b1 <= n)
            then (set_breaker b1 n (Some now) OPEN, ev ++ [Opened], w', Raises e)
            else (set_breaker b1 n (Some now) CLOSED, ev, w', Raises e)
          else (b1, ev, w', Raises e)
      end
  | HALF_OPEN =>
      let '(w', r) := func w in
      match r with
      | inr v =>
          (set_breaker b1 0 (_last_failure b1) CLOSED, ev ++ [Closed], w',
           Returns v)
      | inl e =>
          if is_Exception e
          then (set_breaker b1 (_failure_count b1) (Some now) OPEN,
                ev ++ [Opened], w', Raises e)
          else (b1, ev, w', Raises e)
      end
  end.

(** [class CircuitBreakerManager]. *)
Record CircuitBreakerManager : Type := mkManager {
  circuit_breakers : gmap string BaseCircuitBreaker;
  stats : gmap string CircuitBreakerStats;
  default_config : Config
}.

(** [CircuitBreakerManager.__init__]. *)
Definition init (settings : Settings) : CircuitBreakerManager :=
  mkManager ∅ ∅ (circuit_breaker_config settings).

Definition set_stats_state (s : CircuitBreakerState) (st : CircuitBreakerStats)
    : CircuitBreakerStats :=
  mkStats (name st) s (failure_count st) (success_count st) (total_calls st)
          (last_failure_time st) (last_success_time st) (recovery_timeout st)
          (failure_threshold st) (success_threshold st) (call_timeout st)
          (created_at st).

Definition set_last_failure_time (t : option Z) (st : CircuitBreakerStats)
    : CircuitBreakerStats :=
  mkStats (name st) (state st) (failure_count st) (success_count st)
          (total_calls st) t (last_success_time st) (recovery_timeout st)
          (failure_threshold st) (success_threshold st) (call_timeout st)
          (created_at st).

Definition set_last_success_time (t : option Z) (st : CircuitBreakerStats)
    : CircuitBreakerStats :=
  mkStats (name st) (state st) (failure_count st) (success_count st)
          (total_calls st) (last_failure_time st) t (recovery_timeout st)
          (failure_threshold st) (success_threshold st) (call_timeout st)
          (created_at st).

Definition set_failure_count (n : Z) (st : CircuitBreakerStats)
    : CircuitBreakerStats :=
  mkStats (name st) (state st) n (success_count st) (total_calls st)
          (last_failure_time st) (last_success_time st) (recovery_timeout st)
          (failure_threshold st) (success_threshold st) (call_timeout st)
          (created_at st).

Definition set_success_count (n : Z) (st : CircuitBreakerStats)
    : CircuitBreakerStats :=
  mkStats (name st) (state st) (failure_count st) n (total_calls st)
          (last_failure_time st) (last_success_time st) (recovery_timeout st)
          (failure_threshold st) (success_threshold st) (call_timeout st)
          (created_at st).

Definition set_total_calls (n : Z) (st : CircuitBreakerStats)
    : CircuitBreakerStats :=
  mkStats (name st) (state st) (failure_count st) (success_count st) n
          (last_failure_time st) (last_success_time st) (recovery_timeout st)
          (failure_threshold st) (success_threshold st) (call_timeout st)
          (created_at st).

(** The three callbacks. Each guards on [if name in self.stats], which is
    what [alter] does on a map. *)
Definition _on_circuit_breaker_open (nm : string) (now : Z)
    (sts : gmap string CircuitBreakerStats) : gmap string CircuitBreakerStats :=
  alter (λ st, set_last_failure_time (Some now) (set_stats_state OPEN st)) nm sts.

Definition _on_circuit_breaker_close (nm : string) (now : Z)
    (sts : gmap string CircuitBreakerStats) : gmap string CircuitBreakerStats :=
  alter (λ st, set_last_success_time (Some now) (set_stats_state CLOSED st)) nm sts.

Definition _on_circuit_breaker_half_open (nm : string) (now : Z)
    (sts : gmap string CircuitBreakerStats) : gmap string CircuitBreakerStats :=
  alter (set_stats_state HALF_OPEN) nm sts.

(** Modelled from the spec: how the third-party breaker runs its
    listeners. A listener runs on the transition its name and docstring
    announce ("Callback when circuit breaker opens", and so on). *)
Definition run_listener (now : Z) (t : Transition) (l : Listener)
    (sts : gmap string CircuitBreakerStats) : gmap string CircuitBreakerStats :=
  match t, l with
  | Opened, on_open nm => _on_circuit_breaker_open nm now sts
  | Closed, on_close nm => _on_circuit_breaker_close nm now sts
  | HalfOpened, on_half_open nm => _on_circuit_breaker_half_open nm now sts
  | _, _ => sts
  end.

Definition notify (now : Z) (ls : list Listener) (ts : list Transition)
    (sts : gmap string CircuitBreakerStats) : gmap string CircuitBreakerStats :=
  foldl (λ acc t, foldl (λ acc' l, run_listener now t l acc') acc ls) sts ts.

(** [get_or_create_circuit_breaker]; [expected_exception] is always left
    to its default by the callers. Returns the manager and the breaker
    stored under [nm]. *)
Definition get_or_create_circuit_breaker (m : CircuitBreakerManager)
    (nm : string) (failure_threshold recovery_timeout : option Z) (now : Z)
    : CircuitBreakerManager * BaseCircuitBreaker :=
  match circuit_breakers m !! nm with
  | Some cb => (m, cb)
  | None =>
      let ft := int_or failure_threshold (cfg_failure_threshold (default_config m)) in
      let rt := int_or recovery_timeout (cfg_recovery_timeout (default_config m)) in
      let cb :=
        add_listener (on_half_open nm)
          (add_listener (on_close nm)
            (add_listener (on_open nm) (mkBreaker ft rt 0 None CLOSED []))) in
      (mkManager (<[nm := cb]> (circuit_breakers m))
                 (<[nm := mkStats nm CLOSED 0 0 0 None None rt ft 3 30 now]> (stats m))
                 (default_config m),
       cb)
  end.

Definition with_stats (m : CircuitBreakerManager)
    (sts : gmap string CircuitBreakerStats) : CircuitBreakerManager :=
  mkManager (circuit_breakers m) sts (default_config m).

Definition with_breaker (m : CircuitBreakerManager) (nm : string)
    (cb : BaseCircuitBreaker) : CircuitBreakerManager :=
  mkManager (<[nm := cb]> (circuit_breakers m)) (stats m) (default_config m).

(** [call_with_circuit_breaker]. The breaker object is shared with the
    table [circuit_breakers], so what the call does to it is written
    back under [nm]. *)
Definition call_with_circuit_breaker {W R : Type} (m : CircuitBreakerManager)
    (nm : string) (func : W → W * outcome R) (w : W)
    (failure_threshold recovery_timeout : option Z) (now : Z)
    : CircuitBreakerManager * W * outcome R :=
  let '(m1, circuit_breaker) :=
    get_or_create_circuit_breaker m nm failure_threshold recovery_timeout now in
  let m2 :=
    with_stats m1
      (alter (λ st, set_total_calls (total_calls st + 1) st) nm (stats m1)) in
  if decide (current_state now circuit_breaker = "open") then
    (m2, w, Raises (CircuitBreakerOpenError nm))
  else
    let '(cb', ts, w', r) := breaker_call now circuit_breaker func w in
    let m3 :=
      with_stats (with_breaker m2 nm cb')
                 (notify now (_listeners circuit_breaker) ts (stats m2)) in
    match r with
    | inr result =>
        (with_stats m3
           (alter (λ st, set_last_success_time (Some now)
                           (set_success_count (success_count st + 1) st))
                  nm (stats m3)),
         w', Returns result)
    | inl (CircuitBreakerOpenError s) =>
        (m3, w', Raises (CircuitBreakerOpenError s))
    | inl e =>
        if is_Exception e then
          (with_stats m3
             (alter (λ st, set_last_failure_time (Some now)
                             (set_failure_count (failure_count st + 1) st))
                    nm (stats m3)),
           w', Raises (ExternalServiceError nm (str e)))
        else (m3, w', Raises e)
    end.

(** [get_circuit_breaker_state] and [get_circuit_breaker_stats]. *)
Definition get_circuit_breaker_state (m : CircuitBreakerManager) (nm : string)
    : option CircuitBreakerState :=
  state <$> stats m !! nm.

Definition get_circuit_breaker_stats (m : CircuitBreakerManager) (nm : string)
    : option CircuitBreakerStats :=
  stats m !! nm.

(** [reset_circuit_breaker]. *)
Definition reset_circuit_breaker (m : CircuitBreakerManager) (nm : string)
    : CircuitBreakerManager * bool :=
  match circuit_breakers m !! nm with
  | Some cb =>
      (mkManager (<[nm := set_breaker cb 0 None CLOSED]> (circuit_breakers m))
                 (alter (λ st, set_last_failure_time None
                                 (set_failure_count 0 (set_stats_state CLOSED st)))
                        nm (stats m))
                 (default_config m),
       true)
  | None => (m, false)
  end.

(** [isinstance(e, CircuitBreakerOpenError)]: the first [except] clause
    of [call_with_circuit_breaker]. *)
Definition is_circuit_open (e : exn) : bool :=
  match e with
  | CircuitBreakerOpenError _ => true
  | _ => false
  end.

(** A breaker as [get_or_create_circuit_breaker] builds it for [nm],
    with its three listeners, in a given state. *)
Definition managed (nm : string) (ft rt n : Z) (lf : option Z)
    (s : CircuitBreakerState) : BaseCircuitBreaker :=
  mkBreaker ft rt n lf s [on_open nm; on_close nm; on_half_open nm].

(** What [call_with_circuit_breaker] raises when the operation raises
    the [Exception] [e]: a circuit-open error goes through the clause
    [except CircuitBreakerOpenError: raise] as it is, any other is
    wrapped by the clause [except Exception]. *)
Definition relayed (nm : string) (e : exn) : exn :=
  if is_circuit_open e then e else ExternalServiceError nm (str e).

(** What that call adds to the recorded [failure_count]: the first
    clause counts nothing, the second counts one failure. *)
Definition counted (e : exn) : Z :=
  if is_circuit_open e then 0 else 1.

(** Two records with the same name and counters. *)
Definition same_counters (a b : CircuitBreakerStats) : Prop :=
  name b = name a ∧ failure_count b = failure_count a ∧
  success_count b = success_count a ∧ total_calls b = total_calls a.

End CircuitBreaker.

(** ** Python string operations used by the services *)

Module PyStr.

(** [s.split(sep)] for a one-character separator. *)
Fixpoint split (sep : ascii) (s : string) : list string :=
  match s with
  | EmptyString => [EmptyString]
  | String c s' =>
      if decide (c = sep) then EmptyString :: split sep s'
      else match split sep s' with
           | p :: ps => String c p :: ps
           | [] => [String c EmptyString]
           end
  end.

(** [s.replace(old, new)] for a non-empty [old]: occurrences are replaced
    from left to right without overlap. [skip] counts the characters of
    an occurrence that is being passed over. *)
Fixpoint replace_from (old new : string) (skip : nat) (s : string) : string :=
  match s with
  | EmptyString => EmptyString
  | String c s' =>
      match skip with
      | S k => replace_from old new k s'
      | O =>
          if String.prefix old s
          then new +:+ replace_from old new (Nat.pred (String.length old)) s'
          else String c (replace_from old new 0 s')
      end
  end.

Definition replace (old new s : string) : string := replace_from old new 0 s.

(** The whitespace [int()] strips: space, tab, newline, vertical tab,
    form feed and carriage return. *)
Definition is_space (c : ascii) : bool :=
  let n := nat_of_ascii c in
  bool_decide (n = 32 ∨ (9 ≤ n ∧ n ≤ 13))%nat.

Fixpoint lstrip (s : string) : string :=
  match s with
  | EmptyString => EmptyString
  | String c s' => if is_space c then lstrip s' else s
  end.

Definition strip (s : string) : string :=
  String.rev (lstrip (String.rev (lstrip s))).

Definition digit_of (c : ascii) : option Z :=
  let n := nat_of_ascii c in
  if bool_decide (48 ≤ n ∧ n ≤ 57)%nat then Some (Z.of_nat n - 48) else None.

(** The digits of a decimal literal; single underscores may separate
    digits. [after_digit] tells whether the previous character was a
    digit. *)
Fixpoint digits (acc : Z) (after_digit : bool) (s : string) : option Z :=
  match s with
  | EmptyString => if after_digit then Some acc else None
  | String c s' =>
      if decide (c = "_"%char)
      then (if after_digit then digits acc false s' else None)
      else match digit_of c with
           | Some d => digits (10 * acc + d) true s'
           | None => None
           end
  end.

(** [int(s)] on a string of ASCII characters: surrounding whitespace, an
    optional sign, decimal digits. [None] stands for [ValueError]. *)
Definition int (s : string) : option Z :=
  match strip s with
  | String "-" s' => Z.opp <$> digits 0 false s'
  | String "+" s' => digits 0 false s'
  | s' => digits 0 false s'
  end.

End PyStr.

(** ** Cache service ([app/services/cache_service.py]) *)

Module Cache.
Import Exceptions.

(** This module is the cache service at the integer counters of the
    rate limiter, where [json.dumps] and [json.loads] are the decimal
    text of the [int] and back; [CacheValues] below has [get], [set] and
    [exists] for values of any type, and [CacheValuesProofs.get_of_int],
    [set_of_int] and [exists_of_int] show that the two agree on
    integers. *)

(** An entry of [in_memory_cache]: [{"value": ..., "expires_at": ...}].
    The rate limiter only ever stores integers. *)
Record CacheEntry : Type := mkEntry {
  value : Z;
  expires_at : Z
}.

(** Modelled from the spec: the Redis server behind [self.redis] is an
    external collaborator (spec 2 and 6: get / set-with-ttl / increment).
    [available] tells whether commands reach the server; [db] is its key
    space, an integer per key with an optional expiry time. *)
Record RedisEntry : Type := mkRedisEntry {
  r_value : Z;
  r_expires_at : option Z
}.

Record Redis : Type := mkRedis {
  available : bool;
  db : gmap string RedisEntry
}.

Definition connection_error : exn :=
  PyException "ConnectionError" "Error connecting to Redis".

(** A key is visible until its expiry time. *)
Definition redis_lookup (now : Z) (key : string) (r : Redis) : option RedisEntry :=
  match db r !! key with
  | Some e =>
      match r_expires_at e with
      | Some t => if decide (now < t) then Some e else None
      | None => Some e
      end
  | None => None
  end.

(** Modelled from the spec: [GET key]. *)
Definition redis_get (now : Z) (key : string) (r : Redis) : outcome (option Z) :=
  if available r then Returns (r_value <$> redis_lookup now key r)
  else Raises connection_error.

(** Modelled from the spec: [SETEX key ttl value]; a ttl that is not
    positive is refused by the server. *)
Definition redis_setex (now : Z) (key : string) (ttl v : Z) (r : Redis)
    : Redis * outcome unit :=
  if available r then
    if decide (0 < ttl)
    then (mkRedis true (<[key := mkRedisEntry v (Some (now + ttl))]> (db r)),
          Returns tt)
    else (r, Raises (PyException "ResponseError" "invalid expire time in setex"))
  else (r, Raises connection_error).

(** Modelled from the spec: [INCRBY key amount]; an absent key counts
    from 0 and gets no expiry, a present one keeps its expiry. *)
Definition redis_incrby (now : Z) (key : string) (amount : Z) (r : Redis)
    : Redis * outcome Z :=
  if available r then
    match redis_lookup now key r with
    | Some e =>
        (mkRedis true (<[key := mkRedisEntry (r_value e + amount) (r_expires_at e)]> (db r)),
         Returns (r_value e + amount))
    | None =>
        (mkRedis true (<[key := mkRedisEntry amount None]> (db r)), Returns amount)
    end
  else (r, Raises connection_error).

(** [CacheService.stats]. *)
Record CacheStats : Type := mkCacheStats {
  hits : Z;
  misses : Z;
  sets : Z;
  deletes : Z;
  errors : Z;
  fallback_hits : Z
}.

(** [class CacheService]. [redis] is [None] until [initialize] has
    created the client. *)
Record CacheService : Type := mkCache {
  redis : option Redis;
  in_memory_cache : gmap string CacheEntry;
  connected : bool;
  stats : CacheStats
}.

(** [CacheService.__init__]. *)
Definition init : CacheService :=
  mkCache None ∅ false (mkCacheStats 0 0 0 0 0 0).

Definition hit (s : CacheStats) : CacheStats :=
  mkCacheStats (hits s + 1) (misses s) (sets s) (deletes s) (errors s) (fallback_hits s).
Definition miss (s : CacheStats) : CacheStats :=
  mkCacheStats (hits s) (misses s + 1) (sets s) (deletes s) (errors s) (fallback_hits s).
Definition did_set (s : CacheStats) : CacheStats :=
  mkCacheStats (hits s) (misses s) (sets s + 1) (deletes s) (errors s) (fallback_hits s).
Definition error (s : CacheStats) : CacheStats :=
  mkCacheStats (hits s) (misses s) (sets s) (deletes s) (errors s + 1) (fallback_hits s).
Definition fallback_hit (s : CacheStats) : CacheStats :=
  mkCacheStats (hits s) (misses s) (sets s) (deletes s) (errors s) (fallback_hits s + 1).

(** [CacheService.get] on a cache of integer counters. Every exception
    is caught and turned into [None]. *)
Definition get (now : Z) (key : string) (c : CacheService)
    : CacheService * option Z :=
  match connected c, redis c with
  | true, Some r =>
      match redis_get now key r with
      | inr (Some v) => (mkCache (redis c) (in_memory_cache c) true (hit (stats c)), Some v)
      | inr None => (mkCache (redis c) (in_memory_cache c) true (miss (stats c)), None)
      | inl _ => (mkCache (redis c) (in_memory_cache c) true (error (stats c)), None)
      end
  | _, _ =>
      match in_memory_cache c !! key with
      | Some cache_entry =>
          if decide (now < expires_at cache_entry)
          then (mkCache (redis c) (in_memory_cache c) (connected c)
                        (fallback_hit (stats c)),
                Some (value cache_entry))
          else (mkCache (redis c) (delete key (in_memory_cache c)) (connected c)
                        (miss (stats c)),
                None)
      | None =>
          (mkCache (redis c) (in_memory_cache c) (connected c) (miss (stats c)), None)
      end
  end.

(** [CacheService._cleanup_memory_cache]. *)
Definition _cleanup_memory_cache (now : Z) (m : gmap string CacheEntry)
    : gmap string CacheEntry :=
  filter (λ kv, now < expires_at kv.2) m.

(** [CacheService.set] of an integer (with [serialize] left to its
    default). *)
Definition set (settings : Settings) (now : Z) (key : string) (v : Z)
    (ttl : option Z) (c : CacheService) : CacheService * bool :=
  let ttl := int_or ttl (CACHE_TTL settings) in
  match connected c, redis c with
  | true, Some r =>
      match redis_setex now key ttl v r with
      | (r', inr _) => (mkCache (Some r') (in_memory_cache c) true (did_set (stats c)), true)
      | (r', inl _) => (mkCache (Some r') (in_memory_cache c) true (error (stats c)), false)
      end
  | _, _ =>
      let m := <[key := mkEntry v (now + ttl)]> (in_memory_cache c) in
      let m' :=
        if decide (Z.of_nat (size m) `mod` 100 = 0)
        then _cleanup_memory_cache now m else m in
      (mkCache (redis c) m' (connected c) (did_set (stats c)), true)
  end.

(** [CacheService.increment]. *)
Definition increment (settings : Settings) (now : Z) (key : string)
    (amount : Z) (c : CacheService) : CacheService * option Z :=
  match connected c, redis c with
  | true, Some r =>
      match redis_incrby now key amount r with
      | (r', inr n) => (mkCache (Some r') (in_memory_cache c) true (stats c), Some n)
      | (r', inl _) => (mkCache (Some r') (in_memory_cache c) true (error (stats c)), None)
      end
  | _, _ =>
      let '(c1, current) := get now key c in
      let new_value := default 0 current + amount in
      let '(c2, _) := set settings now key new_value None c1 in
      (c2, Some new_value)
  end.

(** The value the service holds for [key] at time [now]: what [get]
    would return, without the bookkeeping. *)
Definition peek (now : Z) (key : string) (c : CacheService) : option Z :=
  match connected c, redis c with
  | true, Some r =>
      if available r then r_value <$> redis_lookup now key r else None
  | _, _ =>
      match in_memory_cache c !! key with
      | Some cache_entry =>
          if decide (now < expires_at cache_entry) then Some (value cache_entry)
          else None
      | None => None
      end
  end.

(** The backend can keep a counter for a window of [w] seconds: the
    Redis server answers, or the in-memory fallback is in use and its
    default time-to-live (which [increment] gives to the entries it
    rewrites) covers the window. *)
Definition backend_ready (settings : Settings) (w : Z) (c : CacheService) : Prop :=
  match connected c, redis c with
  | true, Some r => available r = true
  | _, _ => w ≤ CACHE_TTL settings
  end.

End Cache.

(** ** Rate limiter ([app/services/rate_limiter.py]) *)

Module RateLimiter.
Import Exceptions.

(** [RateLimiter.stats]. *)
Record Stats : Type := mkStats {
  total_requests : Z;
  blocked_requests : Z;
  unique_clients : gset string;
  rate_limit_hits : Z
}.

(** An entry of [RateLimiter.client_stats]. *)
Record ClientStats : Type := mkClientStats {
  requests : Z;
  blocked : Z;
  first_seen : Z;
  last_seen : Z
}.

(** [class RateLimiter] (the [slowapi] limiter object is only used by
    [create_limiter_decorator]). *)
Record RateLimiter : Type := mkLimiter {
  stats : Stats;
  client_stats : gmap string ClientStats
}.

(** [RateLimiter.__init__]. *)
Definition init : RateLimiter := mkLimiter (mkStats 0 0 ∅ 0) ∅.

(** The second component of the result of [check_rate_limit] when the
    request is blocked; the empty dict is [None]. *)
Record Info : Type := mkInfo {
  info_error : string;
  info_retry_after : Z;
  info_limit : string;
  info_client_id : string
}.

(** What parsing the limit string (for instance ["100/60seconds"]) gives
    in the first lines of [_sliding_window_check]. *)
Inductive ParsedLimit : Type :=
| NotTwoParts
| ValueError
| Parsed (max_requests window_seconds : Z).

Definition parse_limit (limit : string) : ParsedLimit :=
  match PyStr.split "/" limit with
  | [p0; p1] =>
      match PyStr.int p0 with
      | None => ValueError
      | Some max_requests =>
          let window_parts := PyStr.replace "second" "" (PyStr.replace "seconds" "" p1) in
          match PyStr.int window_parts with
          | None => ValueError
          | Some window_seconds => Parsed max_requests window_seconds
          end
      end
  | _ => NotTwoParts
  end.

(** The number put in the key: [window_start // window_seconds] with
    [window_start = current_time - window_seconds]. *)
Definition window_number (current_time window_seconds : Z) : Z :=
  (current_time - window_seconds) `div` window_seconds.

(** [f"rate_limit:{client_id}:{window_start // window_seconds}"]. *)
Definition rate_limit_key (client_id : string) (current_time window_seconds : Z)
    : string :=
  "rate_limit:" +:+ client_id +:+ ":" +:+ pretty (window_number current_time window_seconds).

(** The default limit of [check_rate_limit]. *)
Definition default_limit (settings : Settings) : string :=
  pretty (RATE_LIMIT_REQUESTS settings) +:+ "/" +:+
  pretty (RATE_LIMIT_WINDOW settings) +:+ "seconds".

(** [if not limit: limit = f"..."]: the limit [check_rate_limit] hands
    to [_sliding_window_check]. *)
Definition effective_limit (settings : Settings) (limit : option string) : string :=
  match limit with
  | Some l => if decide (l = "") then default_limit settings else l
  | None => default_limit settings
  end.

(** [except Exception as e: ... return True, 0]: an [Exception] is
    logged and the request allowed; anything else propagates. *)
Definition fail_open {St A : Type} (allowed : A) (st : St) (e : exn)
    : St * outcome A :=
  if is_Exception e then (st, Returns allowed) else (st, Raises e).

Section WithStore.

(** The module-level [cache_service] as the limiter sees it: three
    awaited calls on a store of state [St], each of which returns or
    raises. *)
Context {St : Type}.
Variable cache_get : Z → string → St → St * outcome (option Z).
Variable cache_increment : Z → string → Z → St → St * outcome (option Z).
Variable cache_set : Z → string → Z → option Z → St → St * outcome bool.

(** [RateLimiter._sliding_window_check]. *)
Definition _sliding_window_check (client_id limit : string) (now : Z) (st : St)
    : St * outcome (bool * Z) :=
  match parse_limit limit with
  | NotTwoParts => (st, Returns (true, 0))
  | ValueError => (st, Returns (true, 0))
  | Parsed max_requests window_seconds =>
      let current_time := now in
      if decide (window_seconds = 0) then (st, Returns (true, 0))
      else
        let key := rate_limit_key client_id current_time window_seconds in
        match cache_get now key st with
        | (st1, inl e) => fail_open (true, 0) st1 e
        | (st1, inr got) =>
            let current_count := default 0 got in
            if decide (max_requests ≤ current_count) then
              let retry_after := window_seconds - current_time `mod` window_seconds in
              (st1, Returns (false, retry_after))
            else
              match cache_increment now key 1 st1 with
              | (st2, inl e) => fail_open (true, 0) st2 e
              | (st2, inr _) =>
                  if decide (current_count = 0) then
                    match cache_set now key 1 (Some window_seconds) st2 with
                    | (st3, inl e) => fail_open (true, 0) st3 e
                    | (st3, inr _) => (st3, Returns (true, 0))
                    end
                  else (st2, Returns (true, 0))
              end
        end
  end.

(** [RateLimiter.check_rate_limit]. [client] is the outcome of
    [key_func(request)] (or of [get_remote_address(request)]); [limit] is
    [None] when the caller gives none. The bookkeeping done before an
    exception is raised stays done. *)
Definition check_rate_limit (settings : Settings) (rl : RateLimiter)
    (client : outcome string) (limit : option string) (now : Z) (st : St)
    : RateLimiter * St * outcome (bool * option Info) :=
  match client with
  | inl e =>
      let '(st', r) := fail_open (true, None) st e in (rl, st', r)
  | inr client_id =>
      let stats1 :=
        mkStats (total_requests (stats rl) + 1) (blocked_requests (stats rl))
                ({[client_id]} ∪ unique_clients (stats rl))
                (rate_limit_hits (stats rl)) in
      let cs0 := default (mkClientStats 0 0 now now) (client_stats rl !! client_id) in
      let cs1 := mkClientStats (requests cs0 + 1) (blocked cs0) (first_seen cs0) now in
      let rl1 := mkLimiter stats1 (<[client_id := cs1]> (client_stats rl)) in
      let limit := effective_limit settings limit in
      match _sliding_window_check client_id limit now st with
      | (st', inl e) =>
          let '(st'', r) := fail_open (true, None) st' e in (rl1, st'', r)
      | (st', inr (true, _)) => (rl1, st', Returns (true, None))
      | (st', inr (false, retry_after)) =>
          let stats2 :=
            mkStats (total_requests stats1) (blocked_requests stats1 + 1)
                    (unique_clients stats1) (rate_limit_hits stats1 + 1) in
          let rl2 :=
            mkLimiter stats2
              (<[client_id := mkClientStats (requests cs1) (blocked cs1 + 1)
                                            (first_seen cs1) (last_seen cs1)]>
                 (client_stats rl1)) in
          (rl2, st',
           Returns (false,
                    Some (mkInfo "Rate limit exceeded" retry_after limit client_id)))
      end
  end.

(** A call on the store raised [e] during the check of [client_id]
    against [limit] at time [now], started in state [st]: the [get], the
    [increment] that follows a count under the limit, or the [set] that
    follows the first increment of a window. *)
Inductive store_error (client_id limit : string) (now : Z) (st : St) (e : exn)
    : Prop :=
| get_raised max_requests window_seconds st1 :
    parse_limit limit = Parsed max_requests window_seconds →
    window_seconds ≠ 0 →
    cache_get now (rate_limit_key client_id now window_seconds) st
      = (st1, Raises e) →
    store_error client_id limit now st e
| increment_raised max_requests window_seconds st1 got st2 :
    parse_limit limit = Parsed max_requests window_seconds →
    window_seconds ≠ 0 →
    cache_get now (rate_limit_key client_id now window_seconds) st
      = (st1, Returns got) →
    default 0 got < max_requests →
    cache_increment now (rate_limit_key client_id now window_seconds) 1 st1
      = (st2, Raises e) →
    store_error client_id limit now st e
| set_raised max_requests window_seconds st1 got st2 n st3 :
    parse_limit limit = Parsed max_requests window_seconds →
    window_seconds ≠ 0 →
    cache_get now (rate_limit_key client_id now window_seconds) st
      = (st1, Returns got) →
    default 0 got < max_requests →
    default 0 got = 0 →
    cache_increment now (rate_limit_key client_id now window_seconds) 1 st1
      = (st2, Returns n) →
    cache_set now (rate_limit_key client_id now window_seconds) 1
              (Some window_seconds) st2
      = (st3, Raises e) →
    store_error client_id limit now st e.

End WithStore.

(** The store the module imports: the global [cache_service]. Its
    methods catch every exception themselves, so none of the three calls
    raises. *)
Definition cache_get (now : Z) (key : string) (c : Cache.CacheService)
    : Cache.CacheService * outcome (option Z) :=
  let '(c', v) := Cache.get now key c in (c', Returns v).

Definition cache_increment (settings : Settings) (now : Z) (key : string)
    (amount : Z) (c : Cache.CacheService)
    : Cache.CacheService * outcome (option Z) :=
  let '(c', v) := Cache.increment settings now key amount c in (c', Returns v).

Definition cache_set (settings : Settings) (now : Z) (key : string) (v : Z)
    (ttl : option Z) (c : Cache.CacheService)
    : Cache.CacheService * outcome bool :=
  let '(c', ok) := Cache.set settings now key v ttl c in (c', Returns ok).

(** [_sliding_window_check] and [check_rate_limit] on [cache_service]. *)
Definition sliding_window_check_cached (settings : Settings)
    (client_id limit : string) (now : Z) (c : Cache.CacheService)
    : Cache.CacheService * outcome (bool * Z) :=
  _sliding_window_check cache_get (cache_increment settings) (cache_set settings)
                        client_id limit now c.

Definition check_rate_limit_cached (settings : Settings) (rl : RateLimiter)
    (client : outcome string) (limit : option string) (now : Z)
    (c : Cache.CacheService)
    : RateLimiter * Cache.CacheService * outcome (bool * option Info) :=
  check_rate_limit cache_get (cache_increment settings) (cache_set settings)
                   settings rl client limit now c.

(** A store that only records the calls made on it, to observe which
    keys a check consults: every [get] finds [count]. *)
Inductive StoreCall : Type :=
| CallGet (key : string)
| CallIncrement (key : string) (amount : Z)
| CallSet (key : string) (v : Z) (ttl : option Z).

Definition call_key (c : StoreCall) : string :=
  match c with
  | CallGet k => k
  | CallIncrement k _ => k
  | CallSet k _ _ => k
  end.

Definition rec_get (count : option Z) (now : Z) (key : string)
    (log : list StoreCall) : list StoreCall * outcome (option Z) :=
  (log ++ [CallGet key], Returns count).

Definition rec_increment (count : option Z) (now : Z) (key : string)
    (amount : Z) (log : list StoreCall) : list StoreCall * outcome (option Z) :=
  (log ++ [CallIncrement key amount], Returns (Some (default 0 count + amount))).

Definition rec_set (now : Z) (key : string) (v : Z) (ttl : option Z)
    (log : list StoreCall) : list StoreCall * outcome bool :=
  (log ++ [CallSet key v ttl], Returns true).

(** The window index in the words of the spec:
    [window_index = floor(now / window_seconds)]. *)
Definition spec_window_index (now window_seconds : Z) : Z :=
  now `div` window_seconds.

(** A store whose server cannot be reached: every call raises. *)
Definition down_get (now : Z) (key : string) (st : unit)
    : unit * outcome (option Z) :=
  (st, Raises (PyException "ConnectionError" "store unreachable")).

Definition down_increment (now : Z) (key : string) (amount : Z) (st : unit)
    : unit * outcome (option Z) :=
  (st, Raises (PyException "ConnectionError" "store unreachable")).

Definition down_set (now : Z) (key : string) (v : Z) (ttl : option Z) (st : unit)
    : unit * outcome bool :=
  (st, Raises (PyException "ConnectionError" "store unreachable")).

End RateLimiter.

(** ** Python dictionaries whose order is observed *)

Module PyDict.
Section Dict.
Context {V : Type}.

(** A [dict] in insertion order. *)
Definition dict : Type := list (string * V).

(** [d.get(k)]. *)
Fixpoint get (k : string) (d : dict) : option V :=
  match d with
  | [] => None
  | (k', v) :: d' => if decide (k' = k) then Some v else get k d'
  end.

(** [d[k] = v]: a present key keeps its place, a new one goes last. *)
Fixpoint set (k : string) (v : V) (d : dict) : dict :=
  match d with
  | [] => [(k, v)]
  | (k', v') :: d' =>
      if decide (k' = k) then (k, v) :: d' else (k', v') :: set k v d'
  end.

(** [d.pop(k)] on the table. *)
Fixpoint remove (k : string) (d : dict) : dict :=
  match d with
  | [] => []
  | (k', v') :: d' => if decide (k' = k) then d' else (k', v') :: remove k d'
  end.

(** [d.keys()], [d.values()]. *)
Definition keys (d : dict) : list string := d.*1.
Definition values (d : dict) : list V := d.*2.

(** Keys are unique. *)
Definition wf (d : dict) : Prop := NoDup (keys d).

End Dict.
Arguments dict : clear implicits.
End PyDict.

(** ** Service registry ([app/services/service_discovery.py]) *)

Module ServiceDiscovery.
Import Exceptions.

(** [class ServiceInfo(BaseModel)]. A latency is a finite float, here the
    rational it denotes. *)
Record ServiceInfo : Type := mkInfo {
  id : string;
  name : string;
  version : string;
  host : string;
  port : Z;
  protocol : string;
  health_endpoint : string;
  tags : list string;
  dependencies : list string;
  metadata : list (string * string);
  registered_at : Z;
  last_health_check : option Z;
  health_status : string;
  consecutive_failures : Z;
  response_time_ms : option Q
}.

(** The descriptor given to [register_service]: the keys the function
    indexes are present, the ones it reads with [.get] are optional. *)
Record ServiceData : Type := mkData {
  sd_id : option string;
  sd_name : string;
  sd_version : string;
  sd_host : string;
  sd_port : Z;
  sd_protocol : option string;
  sd_health_endpoint : option string;
  sd_tags : option (list string);
  sd_dependencies : option (list string);
  sd_metadata : option (list (string * string))
}.

(** [ServiceDiscovery.stats] ([average_response_time], a mean of floats,
    is left out). *)
Record Stats : Type := mkStats {
  total_services : Z;
  healthy_services : Z;
  unhealthy_services : Z;
  total_health_checks : Z;
  failed_health_checks : Z
}.

(** [class ServiceDiscovery]. *)
Record ServiceDiscovery : Type := mkRegistry {
  services : PyDict.dict ServiceInfo;
  stats : Stats
}.

(** [ServiceDiscovery.__init__]. *)
Definition init : ServiceDiscovery := mkRegistry [] (mkStats 0 0 0 0 0).

Definition set_total_services (n : Z) (s : Stats) : Stats :=
  mkStats n (healthy_services s) (unhealthy_services s)
          (total_health_checks s) (failed_health_checks s).

(** The [ServiceInfo] built by [register_service]. *)
Definition new_service_info (service_id : string) (service_data : ServiceData)
    (now : Z) : ServiceInfo :=
  mkInfo service_id (sd_name service_data) (sd_version service_data)
         (sd_host service_data) (sd_port service_data)
         (default "http" (sd_protocol service_data))
         (default "/health" (sd_health_endpoint service_data))
         (default [] (sd_tags service_data))
         (default [] (sd_dependencies service_data))
         (default [] (sd_metadata service_data))
         now None "unknown" 0 None.

(** [register_service]; [uuid] is the value of [str(uuid4())]. *)
Definition register_service (sd : ServiceDiscovery) (service_data : ServiceData)
    (uuid : string) (now : Z) : ServiceDiscovery * string :=
  let service_id := default uuid (sd_id service_data) in
  let service_info := new_service_info service_id service_data now in
  let services' := PyDict.set service_id service_info (services sd) in
  (mkRegistry services'
              (set_total_services (Z.of_nat (length services')) (stats sd)),
   service_id).

(** [deregister_service]. *)
Definition deregister_service (sd : ServiceDiscovery) (service_id : string)
    : ServiceDiscovery * bool :=
  match PyDict.get service_id (services sd) with
  | Some _ =>
      let services' := PyDict.remove service_id (services sd) in
      (mkRegistry services'
                  (set_total_services (Z.of_nat (length services')) (stats sd)),
       true)
  | None => (sd, false)
  end.

(** [get_service]. *)
Definition get_service (sd : ServiceDiscovery) (service_id : string)
    : option ServiceInfo :=
  PyDict.get service_id (services sd).

(** [get_services_by_name]. *)
Definition get_services_by_name (sd : ServiceDiscovery) (nm : string)
    : list ServiceInfo :=
  filter (λ service, name service = nm) (PyDict.values (services sd)).

(** [get_services_by_tag]. *)
Definition get_services_by_tag (sd : ServiceDiscovery) (tag : string)
    : list ServiceInfo :=
  filter (λ service, tag ∈ tags service) (PyDict.values (services sd)).

(** [get_healthy_services]. *)
Definition get_healthy_services (sd : ServiceDiscovery) (nm : option string)
    : list ServiceInfo :=
  let all := PyDict.values (services sd) in
  let named :=
    match nm with
    | Some n => if decide (n = "") then all else filter (λ s, name s = n) all
    | None => all
    end in
  filter (λ s, health_status s = "healthy") named.

(** [get_all_services]. *)
Definition get_all_services (sd : ServiceDiscovery) : list ServiceInfo :=
  PyDict.values (services sd).

(** The sort key [s.response_time_ms or float('inf')]: a float or
    infinity. [None] and [0.0] are falsy. *)
Inductive SortKey : Type := Finite (q : Q) | Infinity.

Definition sort_key (s : ServiceInfo) : SortKey :=
  match response_time_ms s with
  | Some q => if Qeq_bool q 0 then Infinity else Finite q
  | None => Infinity
  end.

(** [a < b] on sort keys. *)
Definition key_lt (a b : SortKey) : bool :=
  match a, b with
  | Finite x, Finite y => negb (Qle_bool y x)
  | Finite _, Infinity => true
  | Infinity, _ => false
  end.

(** [min(l, key=...)] on a list with first element [best]: the first of
    the elements with the least key. *)
Fixpoint min_from {A : Type} (key : A → SortKey) (best : A) (l : list A) : A :=
  match l with
  | [] => best
  | x :: l' => min_from key (if key_lt (key x) (key best) then x else best) l'
  end.

(** The tag filter of [discover_service]:
    [all(tag in s.tags for tag in tags)]. *)
Definition has_all_tags (wanted : list string) (s : ServiceInfo) : bool :=
  forallb (λ tag, bool_decide (tag ∈ tags s)) wanted.

(** The instances [discover_service] chooses from: those of the name,
    filtered by the tags when [tags] is given and not empty. *)
Definition candidates (sd : ServiceDiscovery) (nm : string)
    (wanted : option (list string)) : list ServiceInfo :=
  let services := get_services_by_name sd nm in
  match wanted with
  | Some (t :: ts) => filter (λ s, has_all_tags (t :: ts) s = true) services
  | _ => services
  end.

(** [discover_service]. *)
Definition discover_service (sd : ServiceDiscovery) (nm : string)
    (wanted : option (list string)) : option ServiceInfo :=
  let services := candidates sd nm wanted in
  let healthy_services := filter (λ s, health_status s = "healthy") services in
  match healthy_services with
  | h :: hs => Some (min_from sort_key h hs)
  | [] =>
      match services with
      | s :: _ => Some s
      | [] => None
      end
  end.

(** What the HTTP GET of the health endpoint gives: a response, with its
    status code and the measured [response_time_ms], or an exception
    (transport error, timeout). *)
Definition Probe : Type := outcome (Z * Q).

Definition set_health (status : string) (failures : Z) (rt : option Q)
    (checked : option Z) (s : ServiceInfo) : ServiceInfo :=
  mkInfo (id s) (name s) (version s) (host s) (port s) (protocol s)
         (health_endpoint s) (tags s) (dependencies s) (metadata s)
         (registered_at s) checked status failures rt.

(** [_check_service_health] on the instance [service_info], which it
    updates in place. *)
Definition _check_service_health (now : Z) (probe : Probe)
    (service_info : ServiceInfo) (st : Stats) : ServiceInfo * Stats * outcome unit :=
  if decide (health_endpoint service_info = "") then (service_info, st, Returns tt)
  else
    match probe with
    | inr (status_code, response_time_ms') =>
        let checked :=
          if decide (status_code = 200)
          then set_health "healthy" 0 (Some response_time_ms') (Some now) service_info
          else set_health "degraded" (consecutive_failures service_info + 1)
                          (response_time_ms service_info) (Some now) service_info in
        (checked,
         mkStats (total_services st) (healthy_services st) (unhealthy_services st)
                 (total_health_checks st + 1) (failed_health_checks st),
         Returns tt)
    | inl e =>
        if is_Exception e then
          (set_health "unhealthy" (consecutive_failures service_info + 1)
                      (response_time_ms service_info) (Some now) service_info,
           mkStats (total_services st) (healthy_services st) (unhealthy_services st)
                   (total_health_checks st + 1) (failed_health_checks st + 1),
           Returns tt)
        else (service_info, st, Raises e)
    end.

(** [_update_health_stats] (without the average). *)
Definition _update_health_stats (sd : ServiceDiscovery) : ServiceDiscovery :=
  let vs := PyDict.values (services sd) in
  let healthy_count := length (filter (λ s, health_status s = "healthy") vs) in
  let unhealthy_count := length (filter (λ s, health_status s = "unhealthy") vs) in
  mkRegistry (services sd)
             (mkStats (total_services (stats sd)) (Z.of_nat healthy_count)
                      (Z.of_nat unhealthy_count)
                      (total_health_checks (stats sd))
                      (failed_health_checks (stats sd))).

(** The probes of one cycle, one task per entry of the table;
    [asyncio.gather(..., return_exceptions=True)] keeps what a task raises
    to itself. [probe_of] gives the outcome of the GET for each id. *)
Fixpoint check_all (now : Z) (probe_of : string → Probe)
    (d : PyDict.dict ServiceInfo) (st : Stats) : PyDict.dict ServiceInfo * Stats :=
  match d with
  | [] => ([], st)
  | (service_id, service_info) :: d' =>
      let '(info', st', _) :=
        _check_service_health now (probe_of service_id) service_info st in
      let '(d'', st'') := check_all now probe_of d' st' in
      ((service_id, info') :: d'', st'')
  end.

(** [_perform_health_checks]: one probe cycle. *)
Definition _perform_health_checks (now : Z) (probe_of : string → Probe)
    (sd : ServiceDiscovery) : ServiceDiscovery :=
  match services sd with
  | [] => sd
  | _ =>
      let '(d, st) := check_all now probe_of (services sd) (stats sd) in
      _update_health_stats (mkRegistry d st)
  end.

(** The table is well formed: ids are unique, and every instance is
    stored under its own id. *)
Definition registry_wf (sd : ServiceDiscovery) : Prop :=
  PyDict.wf (services sd) ∧ ∀ k s, (k, s) ∈ services sd → id s = k.

(** [a <= b] on sort keys. *)
Definition key_le (a b : SortKey) : bool := negb (key_lt b a).

End ServiceDiscovery.

(** ** Connection manager ([app/services/websocket_manager.py]) *)

Module WebSocketManager.

(** What the manager reads from a [fastapi.WebSocket]: [client.host] when
    there is a client, and the [user-agent] header when there is one. *)
Record WebSocket : Type := mkWebSocket {
  client_host : option string;
  user_agent_header : option string
}.

(** [class ConnectionInfo(BaseModel)]. *)
Record ConnectionInfo : Type := mkConnectionInfo {
  connection_id : string;
  client_ip : string;
  user_agent : string;
  connected_at : Z;
  last_activity : Z;
  message_count : Z;
  user_id : option string;
  session_id : option string
}.

(** An outgoing message, a [dict] in the source: the three keys
    [send_message] fills in when they are missing, and the payload. *)
Record Message : Type := mkMessage {
  msg_type : option string;
  msg_timestamp : option Z;
  msg_message_id : option string;
  msg_data : list (string * string)
}.

(** [WebSocketManager.stats]. *)
Record Stats : Type := mkStats {
  total_connections : Z;
  current_connections : Z;
  messages_sent : Z;
  messages_received : Z;
  disconnections : Z;
  errors : Z
}.

(** The handlers [initialize] registers. *)
Inductive Handler : Type := _handle_ping | _handle_voice_input | _handle_text_input.

(** [class WebSocketManager]. [active_connections] is the primary
    connection table. *)
Record WebSocketManager : Type := mkManager {
  active_connections : gmap string WebSocket;
  connection_info : gmap string ConnectionInfo;
  user_connections : gmap string (gset string);
  session_connections : gmap string (gset string);
  message_handlers : gmap string Handler;
  running : bool;
  stats : Stats
}.

(** [WebSocketManager.__init__]. *)
Definition init : WebSocketManager :=
  mkManager ∅ ∅ ∅ ∅ ∅ false (mkStats 0 0 0 0 0 0).

(** The environment of one operation: whether [websocket.accept()],
    [websocket.send_text(...)] and [websocket.close()] return ([true]) or
    raise an [Exception] for a connection, and the [uuid4] drawn for a
    message that lacks an id. *)
Record Env : Type := mkEnv {
  accept_ok : string → bool;
  send_text_ok : string → Message → bool;
  close_ok : string → bool;
  uuid4 : Message → string
}.

Definition with_stats (s : WebSocketManager) (st : Stats) : WebSocketManager :=
  mkManager (active_connections s) (connection_info s) (user_connections s)
            (session_connections s) (message_handlers s) (running s) st.

(** [index[key].discard(connection_id)] followed by the removal of the
    set when it has become empty, guarded by [key and key in index]. *)
Definition discard_from (key : option string) (cid : string)
    (index : gmap string (gset string)) : gmap string (gset string) :=
  match key with
  | Some k =>
      if decide (k = "") then index
      else match index !! k with
           | Some ids =>
               let ids' := ids ∖ {[cid]} in
               if decide (ids' = ∅) then delete k index else <[k := ids']> index
           | None => index
           end
  | None => index
  end.

(** [WebSocketManager.disconnect]. An exception of [websocket.close()]
    is logged and the removal goes on. *)
Definition disconnect (env : Env) (s : WebSocketManager) (cid : string)
    : WebSocketManager :=
  let active' :=
    match active_connections s !! cid with
    | Some _ => delete cid (active_connections s)
    | None => active_connections s
    end in
  let '(info', users', sessions') :=
    match connection_info s !! cid with
    | Some conn_info =>
        (delete cid (connection_info s),
         discard_from (user_id conn_info) cid (user_connections s),
         discard_from (session_id conn_info) cid (session_connections s))
    | None => (connection_info s, user_connections s, session_connections s)
    end in
  mkManager active' info' users' sessions' (message_handlers s) (running s)
            (mkStats (total_connections (stats s))
                     (Z.of_nat (size active'))
                     (messages_sent (stats s)) (messages_received (stats s))
                     (disconnections (stats s) + 1) (errors (stats s))).

(** The message with the required fields filled in. *)
Definition complete (env : Env) (now : Z) (message_type : option string)
    (message : Message) : Message :=
  let m1 :=
    match msg_type message with
    | Some _ => message
    | None =>
        mkMessage
          (Some match message_type with
                | Some t => if decide (t = "") then "message" else t
                | None => "message"
                end)
          (msg_timestamp message) (msg_message_id message) (msg_data message)
    end in
  let m2 :=
    match msg_timestamp m1 with
    | Some _ => m1
    | None => mkMessage (msg_type m1) (Some now) (msg_message_id m1) (msg_data m1)
    end in
  match msg_message_id m2 with
  | Some _ => m2
  | None => mkMessage (msg_type m2) (msg_timestamp m2) (Some (uuid4 env m2)) (msg_data m2)
  end.

(** [WebSocketManager.send_message]. Returns the manager, the message
    dict as the call leaves it, and whether the message was sent. *)
Definition send_message (env : Env) (now : Z) (s : WebSocketManager)
    (cid : string) (message : Message) (message_type : option string)
    : WebSocketManager * Message * bool :=
  match active_connections s !! cid with
  | None => (s, message, false)
  | Some websocket =>
      let message' := complete env now message_type message in
      if send_text_ok env cid message' then
        (with_stats s
           (mkStats (total_connections (stats s)) (current_connections (stats s))
                    (messages_sent (stats s) + 1) (messages_received (stats s))
                    (disconnections (stats s)) (errors (stats s))),
         message', true)
      else (disconnect env s cid, message', false)
  end.

(** [WebSocketManager.send_error]. *)
Definition send_error (env : Env) (now : Z) (s : WebSocketManager)
    (cid error_message : string) : WebSocketManager * bool :=
  let '(s', _, sent) :=
    send_message env now s cid
      (mkMessage (Some "error") None None
                 [("error", error_message); ("timestamp", pretty now)])
      None in
  (s', sent).

(** A reply of a built-in handler: a message of the given type. *)
Definition reply (ty : string) (data : list (string * string)) : Message :=
  mkMessage (Some ty) None None data.

(** [WebSocketManager.broadcast_message]: the snapshot of the keys is
    taken first, the one message dict goes to all. *)
Definition broadcast_message (env : Env) (now : Z) (s : WebSocketManager)
    (message : Message) (exclude_connections : gset string)
    : WebSocketManager * Z :=
  let '(s', _, sent_count) :=
    foldl (λ '(acc, msg, n) cid,
             if decide (cid ∈ exclude_connections) then (acc, msg, n)
             else let '(acc', msg', sent) := send_message env now acc cid msg None in
                  (acc', msg', if sent then n + 1 else n))
          (s, message, 0)
          (elements (dom (active_connections s))) in
  (s', sent_count).

(** An incoming text frame: not JSON, JSON that is not a
    [WebSocketMessage], or a message with its type and the [text] of its
    data. *)
Inductive Frame : Type :=
| InvalidJSON
| NotAMessage
| Incoming (ty : string) (text : option string).

(** The built-in handlers. *)
Definition run_handler (env : Env) (now : Z) (s : WebSocketManager)
    (cid : string) (h : Handler) (text : option string) : WebSocketManager :=
  match h with
  | _handle_ping => (send_message env now s cid (reply "pong" []) None).1.1
  | _handle_voice_input =>
      let s1 :=
        (send_message env now s cid
           (reply "voice_processing" [("status", "processing")]) None).1.1 in
      (send_message env now s1 cid (reply "ai_response" []) None).1.1
  | _handle_text_input =>
      match text with
      | Some (String c t) =>
          let s1 :=
            (send_message env now s cid
               (reply "text_processing" [("status", "processing")]) None).1.1 in
          (send_message env now s1 cid
             (reply "ai_response" [("text", String c t)]) None).1.1
      | _ => (send_error env now s cid "Text input is required").1
      end
  end.

(** [_process_message]. *)
Definition _process_message (env : Env) (now : Z) (s : WebSocketManager)
    (cid ty : string) (text : option string) : WebSocketManager :=
  match message_handlers s !! ty with
  | Some handler => run_handler env now s cid handler text
  | None => (send_error env now s cid ("Unknown message type: " +:+ ty)).1
  end.

(** One turn of the loop of [_handle_messages]. *)
Definition handle_frame (env : Env) (now : Z) (s : WebSocketManager)
    (cid : string) (f : Frame) : WebSocketManager :=
  match f with
  | InvalidJSON => (send_error env now s cid "Invalid JSON format").1
  | NotAMessage => (send_error env now s cid "Message processing error").1
  | Incoming ty text =>
      let info' :=
        alter (λ ci, mkConnectionInfo (connection_id ci) (client_ip ci)
                       (user_agent ci) (connected_at ci) now
                       (message_count ci + 1) (user_id ci) (session_id ci))
              cid (connection_info s) in
      let s1 :=
        mkManager (active_connections s) info' (user_connections s)
                  (session_connections s) (message_handlers s) (running s)
                  (mkStats (total_connections (stats s))
                           (current_connections (stats s))
                           (messages_sent (stats s))
                           (messages_received (stats s) + 1)
                           (disconnections (stats s)) (errors (stats s))) in
      _process_message env now s1 cid ty text
  end.

(** [_handle_messages] on the frames received before the transport
    raises; the loop only runs while [running]. *)
Definition _handle_messages (env : Env) (now : Z) (s : WebSocketManager)
    (cid : string) (frames : list Frame) : WebSocketManager :=
  if running s then foldl (λ acc f, handle_frame env now acc cid f) s frames
  else s.

(** The tables after [handle_connection] has stored the accepted
    connection and its [ConnectionInfo]. *)
Definition accepted (now : Z) (s : WebSocketManager) (websocket : WebSocket)
    (cid : string) : WebSocketManager :=
  let active' := <[cid := websocket]> (active_connections s) in
  let info :=
    mkConnectionInfo cid (default "unknown" (client_host websocket))
                     (default "unknown" (user_agent_header websocket))
                     now now 0 None None in
  mkManager active' (<[cid := info]> (connection_info s))
            (user_connections s) (session_connections s)
            (message_handlers s) (running s)
            (mkStats (total_connections (stats s) + 1)
                     (Z.of_nat (size active'))
                     (messages_sent (stats s)) (messages_received (stats s))
                     (disconnections (stats s)) (errors (stats s))).

(** [handle_connection]; [cid] is the [uuid4] drawn for the connection.
    When [websocket.accept()] raises, the handler disconnects [cid]. *)
Definition handle_connection (env : Env) (now : Z) (s : WebSocketManager)
    (websocket : WebSocket) (cid : string) (frames : list Frame)
    : WebSocketManager :=
  if accept_ok env cid then
    let s1 := accepted now s websocket cid in
    let s2 :=
      (send_message env now s1 cid
         (reply "connection_established"
                [("connection_id", cid); ("server_time", pretty now)])
         None).1.1 in
    _handle_messages env now s2 cid frames
  else disconnect env s cid.

(** One turn of [_cleanup_loop]: the idle sweep. *)
Definition idle_sweep (env : Env) (now : Z) (s : WebSocketManager)
    : WebSocketManager :=
  let inactive_connections :=
    (map_to_list (filter (λ kv, 300 < now - last_activity kv.2)
                         (connection_info s))).*1 in
  foldl (λ acc cid, disconnect env acc cid) s inactive_connections.

(** One turn of [_heartbeat_loop]. *)
Definition heartbeat (env : Env) (now : Z) (s : WebSocketManager)
    : WebSocketManager :=
  if decide (active_connections s = ∅) then s
  else (broadcast_message env now s
          (reply "heartbeat" [("server_status", "healthy")]) ∅).1.

(** [register_handler] and [initialize]. *)
Definition register_handler (s : WebSocketManager) (message_type : string)
    (handler : Handler) : WebSocketManager :=
  mkManager (active_connections s) (connection_info s) (user_connections s)
            (session_connections s)
            (<[message_type := handler]> (message_handlers s)) (running s)
            (stats s).

Definition initialize (s : WebSocketManager) : WebSocketManager :=
  let s1 :=
    mkManager (active_connections s) (connection_info s) (user_connections s)
              (session_connections s) (message_handlers s) true (stats s) in
  register_handler
    (register_handler (register_handler s1 "ping" _handle_ping)
                      "voice_input" _handle_voice_input)
    "text_input" _handle_text_input.

(** [shutdown]. *)
Definition shutdown (env : Env) (s : WebSocketManager) : WebSocketManager :=
  let s1 :=
    mkManager (active_connections s) (connection_info s) (user_connections s)
              (session_connections s) (message_handlers s) false (stats s) in
  foldl (λ acc cid, disconnect env acc cid) s1
        (elements (dom (active_connections s1))).

(** The operations of the manager, each with the environment and the
    clock it runs in. *)
Inductive Op : Type :=
| Initialize
| Accept (websocket : WebSocket) (cid : string) (frames : list Frame)
| Send (cid : string) (message : Message) (message_type : option string)
| Broadcast (message : Message) (exclude_connections : gset string)
| Disconnect (cid : string)
| IdleSweep
| Heartbeat
| Shutdown.

Definition step (env : Env) (now : Z) (op : Op) (s : WebSocketManager)
    : WebSocketManager :=
  match op with
  | Initialize => initialize s
  | Accept websocket cid frames => handle_connection env now s websocket cid frames
  | Send cid message message_type =>
      (send_message env now s cid message message_type).1.1
  | Broadcast message exclude_connections =>
      (broadcast_message env now s message exclude_connections).1
  | Disconnect cid => disconnect env s cid
  | IdleSweep => idle_sweep env now s
  | Heartbeat => heartbeat env now s
  | Shutdown => shutdown env s
  end.

(** A run: operations in the order they complete. *)
Definition run (ops : list (Env * Z * Op)) (s : WebSocketManager)
    : WebSocketManager :=
  foldl (λ acc '(env, now, op), step env now op acc) s ops.

(** The invariant of the secondary indexes: every connection id in a set
    of [user_connections] or [session_connections] is in the primary
    connection table. *)
Definition index_in_table (index : gmap string (gset string))
    (s : WebSocketManager) : Prop :=
  ∀ key ids cid,
    index !! key = Some ids → cid ∈ ids → cid ∈ dom (active_connections s).

Definition indexes_in_table (s : WebSocketManager) : Prop :=
  index_in_table (user_connections s) s
  ∧ index_in_table (session_connections s) s.

(** An index agrees with the connection records: a connection listed
    under a key is in the primary table, and its record names that key
    (a truthy one) in the field the index is about. *)
Definition index_agrees (field : ConnectionInfo → option string)
    (index : gmap string (gset string)) (s : WebSocketManager) : Prop :=
  ∀ key ids cid,
    index !! key = Some ids → cid ∈ ids →
    key ≠ ""
    ∧ cid ∈ dom (active_connections s)
    ∧ ∃ conn_info, connection_info s !! cid = Some conn_info
                   ∧ field conn_info = Some key.

Definition indexes_agree (s : WebSocketManager) : Prop :=
  index_agrees user_id (user_connections s) s
  ∧ index_agrees session_id (session_connections s) s.

(** Two states with the same primary table and indexes, and the same
    user and session recorded for every connection. *)
Definition same_tables (s s' : WebSocketManager) : Prop :=
  active_connections s' = active_connections s
  ∧ user_connections s' = user_connections s
  ∧ session_connections s' = session_connections s
  ∧ ∀ cid, user_id <$> connection_info s' !! cid = user_id <$> connection_info s !! cid
           ∧ session_id <$> connection_info s' !! cid
             = session_id <$> connection_info s !! cid.

(** The id drawn for a new connection is not in use. *)
Definition fresh_id (op : Op) (s : WebSocketManager) : Prop :=
  match op with
  | Accept _ cid _ => connection_info s !! cid = None
  | _ => True
  end.

End WebSocketManager.

(** ** Circuit breaker manager: administration and summaries *)

Module CircuitBreakerAdmin.
Import Exceptions CircuitBreaker.

#[global] Instance CircuitBreakerState_eq_dec : EqDecision CircuitBreakerState.
Proof. solve_decision. Defined.

(** [remove_circuit_breaker]: [if name in d: del d[name]] on both
    tables; the result tells whether either held the name. *)
Definition remove_circuit_breaker (m : CircuitBreakerManager) (nm : string)
    : CircuitBreakerManager * bool :=
  (mkManager (delete nm (circuit_breakers m)) (delete nm (stats m))
             (default_config m),
   bool_decide (is_Some (circuit_breakers m !! nm))
   || bool_decide (is_Some (stats m !! nm))).

(** [sum(1 for stats in self.stats.values() if stats.state == s)]. *)
Definition count_state (s : CircuitBreakerState)
    (sts : gmap string CircuitBreakerStats) : Z :=
  Z.of_nat (size (filter (λ kv, state kv.2 = s) sts)).

(** The dict [get_health_summary] returns. [open_breakers] is a list in
    the source, in the order of the dict; here it is the set of its
    names. *)
Record HealthSummary : Type := mkSummary {
  total_circuit_breakers : Z;
  closed : Z;
  open : Z;
  half_open : Z;
  health_status : string;
  open_breakers : gset string
}.

(** [get_health_summary]. *)
Definition get_health_summary (m : CircuitBreakerManager) : HealthSummary :=
  let total_breakers := Z.of_nat (size (stats m)) in
  let open_breakers := count_state OPEN (stats m) in
  let half_open_breakers := count_state HALF_OPEN (stats m) in
  let closed_breakers := total_breakers - open_breakers - half_open_breakers in
  mkSummary total_breakers closed_breakers open_breakers half_open_breakers
    (if decide (open_breakers = 0) then "healthy"
     else if decide (open_breakers < total_breakers) then "degraded"
     else "unhealthy")
    (dom (filter (λ kv, state kv.2 = OPEN) (stats m))).

(** The operations of the manager that change it. *)
Inductive Op (W R : Type) : Type :=
| CallBreaker (nm : string) (func : W → W * outcome R)
       (failure_threshold recovery_timeout : option Z)
| ResetBreaker (nm : string)
| RemoveBreaker (nm : string).
Arguments CallBreaker {W R}.
Arguments ResetBreaker {W R}.
Arguments RemoveBreaker {W R}.

Definition step {W R : Type} (now : Z) (op : Op W R)
    (mw : CircuitBreakerManager * W) : CircuitBreakerManager * W :=
  match op with
  | CallBreaker nm func failure_threshold recovery_timeout =>
      (call_with_circuit_breaker mw.1 nm func mw.2
         failure_threshold recovery_timeout now).1
  | ResetBreaker nm => ((reset_circuit_breaker mw.1 nm).1, mw.2)
  | RemoveBreaker nm => ((remove_circuit_breaker mw.1 nm).1, mw.2)
  end.

(** A run: operations with the time at which each one happens. *)
Definition run {W R : Type} (ops : list (Z * Op W R))
    (mw : CircuitBreakerManager * W) : CircuitBreakerManager * W :=
  foldl (λ acc '(now, op), step now op acc) mw ops.

(** The listeners [get_or_create_circuit_breaker] gives the breaker of
    [nm]. *)
Definition own_listeners (nm : string) : list Listener :=
  [on_open nm; on_close nm; on_half_open nm].

(** Every stored breaker notifies the record of its own name only. *)
Definition listeners_own (m : CircuitBreakerManager) : Prop :=
  ∀ nm cb, circuit_breakers m !! nm = Some cb → _listeners cb = own_listeners nm.

(** The counters of a record add up: no count is negative and the calls
    that succeeded or failed are among the calls made. *)
Definition counters_ok (st : CircuitBreakerStats) : Prop :=
  0 ≤ failure_count st ∧ 0 ≤ success_count st
  ∧ failure_count st + success_count st ≤ total_calls st.

(** The two tables go together: they hold the same names, a breaker
    notifies its own record, a record carries its name and the
    thresholds of its breaker, and its counters add up. *)
Definition consistent (m : CircuitBreakerManager) : Prop :=
  dom (circuit_breakers m) = dom (stats m)
  ∧ listeners_own m
  ∧ (∀ nm st, stats m !! nm = Some st → name st = nm ∧ counters_ok st)
  ∧ (∀ nm cb st,
       circuit_breakers m !! nm = Some cb → stats m !! nm = Some st →
       failure_threshold st = _failure_threshold cb
       ∧ recovery_timeout st = _recovery_timeout cb).

(** Two records that differ at most in the state and the two times. *)
Definition keeps (a b : CircuitBreakerStats) : Prop :=
  name b = name a ∧ failure_count b = failure_count a
  ∧ success_count b = success_count a ∧ total_calls b = total_calls a
  ∧ recovery_timeout b = recovery_timeout a
  ∧ failure_threshold b = failure_threshold a
  ∧ created_at b = created_at a.

End CircuitBreakerAdmin.

(** ** Cache service: keys *)

Module CacheKeys.
Import Exceptions Cache.

(** Modelled from the spec: [DEL key] on the Redis server (spec 6:
    [delete(key)->ok]); the reply is the number of keys removed. *)
Definition redis_delete (now : Z) (key : string) (r : Redis) : Redis * outcome Z :=
  if available r then
    match redis_lookup now key r with
    | Some _ => (mkRedis true (base.delete key (db r)), Returns 1)
    | None => (r, Returns 0)
    end
  else (r, Raises connection_error).

(** Modelled from the spec: [EXISTS key] (spec 6: [exists(key)->bool]);
    the reply is the number of the keys that exist. *)
Definition redis_exists (now : Z) (key : string) (r : Redis) : outcome Z :=
  if available r then
    Returns (match redis_lookup now key r with Some _ => 1 | None => 0 end)
  else Raises connection_error.

Definition did_delete (s : CacheStats) : CacheStats :=
  mkCacheStats (hits s) (misses s) (sets s) (deletes s + 1) (errors s)
               (fallback_hits s).

(** [CacheService.delete]. *)
Definition delete (now : Z) (key : string) (c : CacheService)
    : CacheService * bool :=
  match connected c, redis c with
  | true, Some r =>
      match redis_delete now key r with
      | (r', inr result) =>
          (mkCache (Some r') (in_memory_cache c) true (did_delete (stats c)),
           bool_decide (0 < result))
      | (r', inl _) =>
          (mkCache (Some r') (in_memory_cache c) true (error (stats c)), false)
      end
  | _, _ =>
      match in_memory_cache c !! key with
      | Some _ =>
          (mkCache (redis c) (base.delete key (in_memory_cache c)) (connected c)
                   (did_delete (stats c)),
           true)
      | None => (c, false)
      end
  end.

(** [CacheService.exists]. *)
Definition exists_ (now : Z) (key : string) (c : CacheService)
    : CacheService * bool :=
  match connected c, redis c with
  | true, Some r =>
      match redis_exists now key r with
      | inr n => (c, bool_decide (0 < n))
      | inl _ =>
          (mkCache (redis c) (in_memory_cache c) true (error (stats c)), false)
      end
  | _, _ =>
      match in_memory_cache c !! key with
      | Some cache_entry => (c, bool_decide (now < expires_at cache_entry))
      | None => (c, false)
      end
  end.

(** The store answers: the Redis server is reached, or the in-memory
    fallback is in use. *)
Definition answers (c : CacheService) : Prop :=
  match connected c, redis c with
  | true, Some r => available r = true
  | _, _ => True
  end.

(** The in-memory fallback is in use. *)
Definition on_fallback (c : CacheService) : Prop :=
  (connected c && bool_decide (is_Some (redis c))) = false.

End CacheKeys.

(** ** Decimal strings *)

Module Decimal.

(** [all(p(ch) for ch in s)]. *)
Fixpoint all_chars (p : ascii → bool) (s : string) : bool :=
  match s with
  | EmptyString => true
  | String c s' => p c && all_chars p s'
  end.

(** [ch] is one of [0] to [9]. *)
Definition is_digit (c : ascii) : bool :=
  match PyStr.digit_of c with Some _ => true | None => false end.

(** The number a string of digits denotes, read after the number
    [acc]. *)
Fixpoint digits_value (acc : Z) (s : string) : Z :=
  match s with
  | EmptyString => acc
  | String c s' => digits_value (10 * acc + default 0 (PyStr.digit_of c)) s'
  end.

End Decimal.

(** ** Rate limiter: statistics and administration *)

Module RateLimiterAdmin.
Import Exceptions RateLimiter.

(** [get_client_stats]; the empty dict is [None]. *)
Definition get_client_stats (rl : RateLimiter) (client_id : string)
    : option ClientStats :=
  client_stats rl !! client_id.

(** [cleanup_old_stats]: the records last seen before the cut-off are
    deleted. *)
Definition cleanup_old_stats (max_age_seconds now : Z) (rl : RateLimiter)
    : RateLimiter :=
  let current_time := now in
  let cutoff_time := current_time - max_age_seconds in
  mkLimiter (stats rl)
            (filter (λ kv, ¬ last_seen kv.2 < cutoff_time) (client_stats rl)).

(** What [get_stats] returns, without the rate (a float) and without
    the two lists, which depend on the order of the dict. *)
Record StatsReport : Type := mkReport {
  rep_total_requests : Z;
  rep_blocked_requests : Z;
  rep_allowed_requests : Z;
  rep_unique_clients : Z;
  rep_rate_limit_hits : Z
}.

Definition get_stats (rl : RateLimiter) : StatsReport :=
  let total_requests := total_requests (stats rl) in
  let blocked_requests := blocked_requests (stats rl) in
  mkReport total_requests blocked_requests (total_requests - blocked_requests)
           (Z.of_nat (size (unique_clients (stats rl))))
           (rate_limit_hits (stats rl)).

(** The operations that change the limiter. *)
Inductive Op : Type :=
| CheckRequest (client : outcome string) (limit : option string)
| CleanupStats (max_age_seconds : Z)
| ResetClient (client_id : string).

Section WithStore.

Context {St : Type}.
Variable cache_get : Z → string → St → St * outcome (option Z).
Variable cache_increment : Z → string → Z → St → St * outcome (option Z).
Variable cache_set : Z → string → Z → option Z → St → St * outcome bool.
Variable cache_invalidate_pattern : string → St → St * outcome Z.

(** [reset_client_limits]. *)
Definition reset_client_limits (rl : RateLimiter) (client_id : string) (st : St)
    : RateLimiter * St * outcome bool :=
  let pattern := "rate_limit:" +:+ client_id +:+ ":*" in
  match cache_invalidate_pattern pattern st with
  | (st', inl e) =>
      if is_Exception e then (rl, st', Returns false) else (rl, st', Raises e)
  | (st', inr _) =>
      (mkLimiter (stats rl)
         (alter (λ cs, mkClientStats (requests cs) 0 (first_seen cs) (last_seen cs))
                client_id (client_stats rl)),
       st', Returns true)
  end.

Definition step (settings : Settings) (now : Z) (op : Op)
    (s : RateLimiter * St) : RateLimiter * St :=
  match op with
  | CheckRequest client limit =>
      (check_rate_limit cache_get cache_increment cache_set settings s.1
                        client limit now s.2).1
  | CleanupStats max_age_seconds => (cleanup_old_stats max_age_seconds now s.1, s.2)
  | ResetClient client_id => (reset_client_limits s.1 client_id s.2).1
  end.

(** A run: operations with the time at which each one happens. *)
Definition run (settings : Settings) (ops : list (Z * Op))
    (s : RateLimiter * St) : RateLimiter * St :=
  foldl (λ acc '(now, op), step settings now op acc) s ops.

End WithStore.

(** The bookkeeping adds up: blocked requests are among the requests
    counted, every block is a rate-limit hit, and every client on
    record has made a request, was blocked no more often than it asked,
    and is among the clients seen. *)
Definition stats_ok (rl : RateLimiter) : Prop :=
  0 ≤ blocked_requests (stats rl)
  ∧ blocked_requests (stats rl) ≤ total_requests (stats rl)
  ∧ rate_limit_hits (stats rl) = blocked_requests (stats rl)
  ∧ ∀ client_id cs,
      client_stats rl !! client_id = Some cs →
      0 ≤ blocked cs ∧ blocked cs ≤ requests cs ∧ 1 ≤ requests cs
      ∧ client_id ∈ unique_clients (stats rl).

End RateLimiterAdmin.

(** ** Service registry: queries, statistics and runs *)

Module ServiceDiscoveryAdmin.
Import Exceptions ServiceDiscovery.

(** [check_service_availability]. *)
Definition check_service_availability (sd : ServiceDiscovery)
    (service_name : string) : bool :=
  bool_decide (0 < length (get_healthy_services sd (Some service_name)))%nat.

(** [len([s for s in self.services.values() if s.health_status == status])]. *)
Definition count_status (status : string) (sd : ServiceDiscovery) : Z :=
  Z.of_nat (length (filter (λ s, health_status s = status)
                           (PyDict.values (services sd)))).

(** The entry [services_by_status] of [get_stats]. *)
Record ServicesByStatus : Type := mkByStatus {
  by_healthy : Z;
  by_degraded : Z;
  by_unhealthy : Z;
  by_unknown : Z
}.

Definition services_by_status (sd : ServiceDiscovery) : ServicesByStatus :=
  mkByStatus (count_status "healthy" sd) (count_status "degraded" sd)
             (count_status "unhealthy" sd) (count_status "unknown" sd).

(** The operations that change the registry. A probe cycle comes with
    the outcome of the GET for each id. *)
Inductive Op : Type :=
| RegisterService (service_data : ServiceData) (uuid : string)
| DeregisterService (service_id : string)
| ProbeCycle (probe_of : string → Probe).

Definition step (now : Z) (op : Op) (sd : ServiceDiscovery) : ServiceDiscovery :=
  match op with
  | RegisterService service_data uuid => (register_service sd service_data uuid now).1
  | DeregisterService service_id => (deregister_service sd service_id).1
  | ProbeCycle probe_of => _perform_health_checks now probe_of sd
  end.

(** A run: operations with the time at which each one happens. *)
Definition run (ops : list (Z * Op)) (sd : ServiceDiscovery) : ServiceDiscovery :=
  foldl (λ acc '(now, op), step now op acc) sd ops.

(** What holds of the health fields of an instance: its status is one
    of the four; it is "unknown" exactly as long as it has not been
    probed; the failure counter is 0 for an unknown or healthy instance
    and at least 1 for a degraded or unhealthy one; a healthy instance
    has a latency on record, an unknown one has none. *)
Definition instance_ok (s : ServiceInfo) : Prop :=
  health_status s ∈ ["unknown"; "healthy"; "degraded"; "unhealthy"]
  ∧ 0 ≤ consecutive_failures s
  ∧ (health_status s = "unknown" ↔ last_health_check s = None)
  ∧ (health_status s = "unknown" →
       consecutive_failures s = 0 ∧ response_time_ms s = None)
  ∧ (health_status s = "healthy" →
       consecutive_failures s = 0 ∧ is_Some (response_time_ms s))
  ∧ (health_status s = "degraded" ∨ health_status s = "unhealthy" →
       1 ≤ consecutive_failures s).

(** The counters of the registry that do not go stale. *)
Definition counts_ok (sd : ServiceDiscovery) : Prop :=
  total_services (stats sd) = Z.of_nat (length (get_all_services sd))
  ∧ 0 ≤ failed_health_checks (stats sd)
  ∧ failed_health_checks (stats sd) ≤ total_health_checks (stats sd).

(** The entries a probe cycle counts as a health check, and those it
    counts as a failed one. *)
Definition probed (probe_of : string → Probe) (kv : string * ServiceInfo) : bool :=
  negb (bool_decide (health_endpoint kv.2 = ""))
  && match probe_of kv.1 with inl e => is_Exception e | inr _ => true end.

Definition probe_failed (probe_of : string → Probe) (kv : string * ServiceInfo)
    : bool :=
  negb (bool_decide (health_endpoint kv.2 = ""))
  && match probe_of kv.1 with inl e => is_Exception e | inr _ => false end.

End ServiceDiscoveryAdmin.

(** ** Connection manager: bookkeeping *)

Module WebSocketTables.
Import WebSocketManager.

(** The bookkeeping of the manager adds up: the two connection tables
    hold the same ids, [current_connections] is the size of the primary
    table and never more than [total_connections], every record is
    stored under its own id, and no connection has received more
    messages than the manager has counted. *)
Definition tables_ok (s : WebSocketManager) : Prop :=
  dom (active_connections s) = dom (connection_info s)
  ∧ current_connections (stats s) = Z.of_nat (size (active_connections s))
  ∧ current_connections (stats s) ≤ total_connections (stats s)
  ∧ 0 ≤ messages_received (stats s)
  ∧ ∀ cid conn_info,
      connection_info s !! cid = Some conn_info →
      connection_id conn_info = cid
      ∧ 0 ≤ message_count conn_info
      ∧ message_count conn_info ≤ messages_received (stats s).


(** The update of the record on a message received at time [now]. *)
Definition received (now : Z) (conn_info : ConnectionInfo) : ConnectionInfo :=
  mkConnectionInfo (connection_id conn_info) (client_ip conn_info)
                   (user_agent conn_info) (connected_at conn_info) now
                   (message_count conn_info + 1) (user_id conn_info)
                   (session_id conn_info).


(** [get_connection_stats], without the list of connection details:
    the counters, and [len(self.active_connections)]. *)
Definition get_connection_stats (s : WebSocketManager) : Stats * Z :=
  (stats s, Z.of_nat (size (active_connections s))).

End WebSocketTables.

(** ** Health summary ([app/services/health_check.py]) *)

Module HealthCheck.

(** The three [usage_percent] readings of [_get_system_metrics]; a
    reading that is missing from the dict is [None]. *)
Record Usage : Type := mkUsage {
  memory_usage_percent : option Q;
  cpu_usage_percent : option Q;
  disk_usage_percent : option Q
}.

(** What [_get_system_metrics] returns: the metrics, or
    [{"error": str(e)}] when reading them raised. *)
Inductive SystemMetrics : Type :=
| MetricsError (message : string)
| Metrics (usage : Usage).

(** [d.get("usage_percent", 0) > 90]. *)
Definition over_90 (usage_percent : option Q) : bool :=
  match usage_percent with
  | Some q => negb (Qle_bool q 90)
  | None => false
  end.

(** [system_metrics.get(part, {})] followed by the reading. *)
Definition reading (system_metrics : SystemMetrics) (part : Usage → option Q)
    : option Q :=
  match system_metrics with
  | Metrics usage => part usage
  | MetricsError _ => None
  end.

(** [sum(1 for service in external_services.values()
         if service.get("status") == status)];
    the external services are given by their status. *)
Definition count_external (status : string) (external_services : gmap string string)
    : Z :=
  Z.of_nat (size (filter (λ kv, kv.2 = status) external_services)).

(** [_determine_overall_health]. *)
Definition _determine_overall_health (service_stats : ServiceDiscovery.Stats)
    (system_metrics : SystemMetrics) (external_services : gmap string string)
    : string :=
  match system_metrics with
  | MetricsError _ => "unhealthy"
  | Metrics _ =>
      if over_90 (reading system_metrics memory_usage_percent) then "degraded"
      else if over_90 (reading system_metrics cpu_usage_percent) then "degraded"
      else if over_90 (reading system_metrics disk_usage_percent) then "degraded"
      else if decide (ServiceDiscovery.healthy_services service_stats
                      < ServiceDiscovery.unhealthy_services service_stats)
      then "degraded"
      else if decide (0 < count_external "unhealthy" external_services)
      then "degraded"
      else "healthy"
  end.

(** [_count_healthy_components] and [_count_total_components]. *)
Definition _count_healthy_components (service_stats : ServiceDiscovery.Stats)
    (external_services : gmap string string) : Z :=
  ServiceDiscovery.healthy_services service_stats
  + count_external "healthy" external_services.

Definition _count_total_components (service_stats : ServiceDiscovery.Stats)
    (external_services : gmap string string) : Z :=
  ServiceDiscovery.total_services service_stats
  + Z.of_nat (size external_services).

(** [_get_critical_issues]. *)
Definition _get_critical_issues (service_stats : ServiceDiscovery.Stats)
    (system_metrics : SystemMetrics) : list string :=
  (if over_90 (reading system_metrics memory_usage_percent)
   then ["High memory usage"] else [])
  ++ (if over_90 (reading system_metrics cpu_usage_percent)
      then ["High CPU usage"] else [])
  ++ (if over_90 (reading system_metrics disk_usage_percent)
      then ["High disk usage"] else [])
  ++ (if decide (0 < ServiceDiscovery.unhealthy_services service_stats)
      then [pretty (ServiceDiscovery.unhealthy_services service_stats)
            +:+ " unhealthy services"]
      else []).

(** The status of the discovery component in [get_system_health]. *)
Definition discovery_status (service_stats : ServiceDiscovery.Stats) : string :=
  if decide (0 ≤ ServiceDiscovery.total_services service_stats)
  then "healthy" else "unhealthy".

End HealthCheck.

(** ** Cache service: values of any type *)

(** [Cache] above is the service as the rate limiter uses it, with
    integer counters. This module is the same [get], [set] and [exists]
    for every value the source accepts, with the JSON text that goes to
    the Redis server; [of_int_cache] embeds the integer caches, on which
    the two agree. *)
Module CacheValues.
Import Exceptions.

(** A Python object handed to [set] or returned by [get]: [None], an
    [int], a [str], or any other object (a float, [bytes], a list, a
    dict, ...), which the model tells apart by a name. *)
Inductive PyValue : Type :=
| PyNone
| PyInt (n : Z)
| PyStr (s : string)
| PyObject (o : string).

(** An entry of [in_memory_cache]: [{"value": ..., "expires_at": ...}]. *)
Record CacheEntry : Type := mkEntry {
  value : PyValue;
  expires_at : Z
}.

(** Modelled from the spec: the Redis server behind [self.redis] (spec 2
    and 6: get / set-with-ttl). The client is created with
    [decode_responses=True], so a key holds a [str], with an optional
    expiry time. *)
Record RedisEntry : Type := mkRedisEntry {
  r_value : string;
  r_expires_at : option Z
}.

Record Redis : Type := mkRedis {
  available : bool;
  db : gmap string RedisEntry
}.

(** A key is visible until its expiry time. *)
Definition redis_lookup (now : Z) (key : string) (r : Redis) : option RedisEntry :=
  match db r !! key with
  | Some e =>
      match r_expires_at e with
      | Some t => if decide (now < t) then Some e else None
      | None => Some e
      end
  | None => None
  end.

(** Modelled from the spec: [GET key]. *)
Definition redis_get (now : Z) (key : string) (r : Redis)
    : outcome (option string) :=
  if available r then Returns (r_value <$> redis_lookup now key r)
  else Raises Cache.connection_error.

(** Modelled from the spec: [SETEX key ttl value]; a ttl that is not
    positive is refused by the server. *)
Definition redis_setex (now : Z) (key : string) (ttl : Z) (text : string)
    (r : Redis) : Redis * outcome unit :=
  if available r then
    if decide (0 < ttl)
    then (mkRedis true (<[key := mkRedisEntry text (Some (now + ttl))]> (db r)),
          Returns tt)
    else (r, Raises (PyException "ResponseError" "invalid expire time in setex"))
  else (r, Raises Cache.connection_error).

(** Modelled from the spec: [EXISTS key]; the reply is the number of the
    keys that exist. *)
Definition redis_exists (now : Z) (key : string) (r : Redis) : outcome Z :=
  if available r then
    Returns (match redis_lookup now key r with Some _ => 1 | None => 0 end)
  else Raises Cache.connection_error.

(** [class CacheService]. *)
Record CacheService : Type := mkCache {
  redis : option Redis;
  in_memory_cache : gmap string CacheEntry;
  connected : bool;
  stats : Cache.CacheStats
}.

(** [CacheService.__init__]. *)
Definition init : CacheService :=
  mkCache None ∅ false (Cache.mkCacheStats 0 0 0 0 0 0).

(** [isinstance(e, json.JSONDecodeError)]. *)
Definition is_JSONDecodeError (e : exn) : bool :=
  match e with
  | PyException type_name _ => bool_decide (type_name = "JSONDecodeError")
  | _ => false
  end.

(** [CacheService._cleanup_memory_cache]. *)
Definition _cleanup_memory_cache (now : Z) (m : gmap string CacheEntry)
    : gmap string CacheEntry :=
  filter (λ kv, now < expires_at kv.2) m.

(** [CacheService.exists]. *)
Definition exists_ (now : Z) (key : string) (c : CacheService)
    : CacheService * bool :=
  match connected c, redis c with
  | true, Some r =>
      match redis_exists now key r with
      | inr n => (c, bool_decide (0 < n))
      | inl _ =>
          (mkCache (redis c) (in_memory_cache c) true (Cache.error (stats c)),
           false)
      end
  | _, _ =>
      match in_memory_cache c !! key with
      | Some cache_entry => (c, bool_decide (now < expires_at cache_entry))
      | None => (c, false)
      end
  end.

Section WithJson.

(** The two functions of the standard library the service calls:
    [json.dumps(value, default=str)] and [json.loads(text)], each of
    which returns or raises. *)
Variable json_dumps : PyValue → outcome string.
Variable json_loads : string → outcome PyValue.

(** [try: return json.loads(value) except json.JSONDecodeError: return
    value]: the object a reply of the server is turned into, or the
    exception that goes on to the handler of [get]. *)
Definition loads_or_text (text : string) : outcome PyValue :=
  match json_loads text with
  | inr v => Returns v
  | inl e => if is_JSONDecodeError e then Returns (PyStr text) else Raises e
  end.

(** [CacheService.get]. Every exception is caught and turned into
    [None]; a miss is [None] as well. *)
Definition get (now : Z) (key : string) (c : CacheService)
    : CacheService * PyValue :=
  match connected c, redis c with
  | true, Some r =>
      match redis_get now key r with
      | inr (Some text) =>
          match loads_or_text text with
          | inr v =>
              (mkCache (redis c) (in_memory_cache c) true (Cache.hit (stats c)), v)
          | inl _ =>
              (mkCache (redis c) (in_memory_cache c) true
                       (Cache.error (Cache.hit (stats c))),
               PyNone)
          end
      | inr None =>
          (mkCache (redis c) (in_memory_cache c) true (Cache.miss (stats c)), PyNone)
      | inl _ =>
          (mkCache (redis c) (in_memory_cache c) true (Cache.error (stats c)), PyNone)
      end
  | _, _ =>
      match in_memory_cache c !! key with
      | Some cache_entry =>
          if decide (now < expires_at cache_entry)
          then (mkCache (redis c) (in_memory_cache c) (connected c)
                        (Cache.fallback_hit (stats c)),
                value cache_entry)
          else (mkCache (redis c) (delete key (in_memory_cache c)) (connected c)
                        (Cache.miss (stats c)),
                PyNone)
      | None =>
          (mkCache (redis c) (in_memory_cache c) (connected c)
                   (Cache.miss (stats c)),
           PyNone)
      end
  end.

(** [if serialize and not isinstance(value, str): value =
    json.dumps(value, default=str)]: the text sent to the server. *)
Definition serialized (value : PyValue) : outcome string :=
  match value with
  | PyStr s => Returns s
  | _ => json_dumps value
  end.

(** [CacheService.set] (with [serialize] left to its default). *)
Definition set (settings : Settings) (now : Z) (key : string) (value : PyValue)
    (ttl : option Z) (c : CacheService) : CacheService * bool :=
  let ttl := int_or ttl (CACHE_TTL settings) in
  match connected c, redis c with
  | true, Some r =>
      match serialized value with
      | inr text =>
          match redis_setex now key ttl text r with
          | (r', inr _) =>
              (mkCache (Some r') (in_memory_cache c) true (Cache.did_set (stats c)),
               true)
          | (r', inl _) =>
              (mkCache (Some r') (in_memory_cache c) true (Cache.error (stats c)),
               false)
          end
      | inl _ =>
          (mkCache (redis c) (in_memory_cache c) true (Cache.error (stats c)), false)
      end
  | _, _ =>
      let m := <[key := mkEntry value (now + ttl)]> (in_memory_cache c) in
      let m' :=
        if decide (Z.of_nat (size m) `mod` 100 = 0)
        then _cleanup_memory_cache now m else m in
      (mkCache (redis c) m' (connected c) (Cache.did_set (stats c)), true)
  end.

(** What a [get] at time [now] makes of what the service holds under
    [key], without the bookkeeping: the object of a live in-memory
    entry, or the reply of the server as [get] decodes it. *)
Definition peek (now : Z) (key : string) (c : CacheService) : PyValue :=
  match connected c, redis c with
  | true, Some r =>
      if available r then
        match redis_lookup now key r with
        | Some e =>
            match loads_or_text (r_value e) with
            | inr v => v
            | inl _ => PyNone
            end
        | None => PyNone
        end
      else PyNone
  | _, _ =>
      match in_memory_cache c !! key with
      | Some cache_entry =>
          if decide (now < expires_at cache_entry) then value cache_entry
          else PyNone
      | None => PyNone
      end
  end.

End WithJson.

(** The store answers: the Redis server is reached, or the in-memory
    fallback is in use. *)
Definition answers (c : CacheService) : Prop :=
  match connected c, redis c with
  | true, Some r => available r = true
  | _, _ => True
  end.

(** The in-memory fallback is in use. *)
Definition on_fallback (c : CacheService) : Prop :=
  (connected c && bool_decide (is_Some (redis c))) = false.

(** The cache service with integer counters, as a cache service of this
    module: an in-memory counter is the [int] itself, a counter on the
    server is its decimal text. *)
Definition of_int_entry (e : Cache.CacheEntry) : CacheEntry :=
  mkEntry (PyInt (Cache.value e)) (Cache.expires_at e).

Definition of_int_redis (r : Cache.Redis) : Redis :=
  mkRedis (Cache.available r)
          ((λ e, mkRedisEntry (pretty (Cache.r_value e)) (Cache.r_expires_at e))
             <$> Cache.db r).

Definition of_int_cache (c : Cache.CacheService) : CacheService :=
  mkCache (of_int_redis <$> Cache.redis c)
          (of_int_entry <$> Cache.in_memory_cache c)
          (Cache.connected c) (Cache.stats c).

(** What [get] returns for a counter: [None] or the [int]. *)
Definition of_int_result (current : option Z) : PyValue :=
  match current with
  | Some n => PyInt n
  | None => PyNone
  end.

(** [json.dumps] and [json.loads] on the integers: the decimal text of
    an [int] and back. *)
Definition json_on_ints (json_dumps : PyValue → outcome string)
    (json_loads : string → outcome PyValue) : Prop :=
  ∀ n, json_dumps (PyInt n) = Returns (pretty n)
       ∧ json_loads (pretty n) = Returns (PyInt n).

(** The replies of [json.dumps] and [json.loads] that the examples
    use. [json.dumps]: [None] is the text [null], an [int] its decimal
    text, a [str] (one without characters that JSON escapes) the text
    between double quotes; the one other object of the examples is a
    list that contains itself, on which it raises. [json.loads]: the
    decimal text of an [int] as Python prints it is that [int], the
    text [null] is [None], and no other text of the examples is JSON. *)
Definition example_dumps (v : PyValue) : outcome string :=
  match v with
  | PyNone => Returns "null"
  | PyInt n => Returns (pretty n)
  | PyStr s => Returns (String "034"%char (s +:+ String "034"%char ""))
  | PyObject _ => Raises (PyException "ValueError" "Circular reference detected")
  end.

Definition example_loads (text : string) : outcome PyValue :=
  match PyStr.int text with
  | Some n =>
      if decide (pretty n = text) then Returns (PyInt n)
      else Raises (PyException "JSONDecodeError" "Expecting value")
  | None =>
      if decide (text = "null") then Returns PyNone
      else Raises (PyException "JSONDecodeError" "Expecting value")
  end.

End CacheValues.

(** * Properties *)

(** ** Circuit breaker manager *)

Module CircuitBreakerProofs.
Import Exceptions CircuitBreaker.

Section Calls.
Context {W R : Type}.
Implicit Types (m : CircuitBreakerManager) (cb : BaseCircuitBreaker)
  (st : CircuitBreakerStats) (func : W → W * outcome R).

Lemma get_or_create_existing m nm cb ft rt now :
  circuit_breakers m !! nm = Some cb →
  get_or_create_circuit_breaker m nm ft rt now = (m, cb).
Proof. intros H. unfold get_or_create_circuit_breaker. by rewrite H. Qed.

Lemma current_state_open now cb :
  current_state now cb = "open" ↔
  _state cb = OPEN ∧
  ∀ t, _last_failure cb = Some t → now < t + _recovery_timeout cb.
Proof.
  destruct cb as [ft rt n lf s ls]. unfold current_state, recover. simpl.
  destruct s; simpl; try (split; [done | intros [? _]; done]).
  destruct lf as [t|]; simpl.
  - case_decide; simpl.
    + split; [done|]. intros [_ H']. specialize (H' t eq_refl). lia.
    + split; [|done]. intros _. split; [done|]. intros t' [= <-]. lia.
  - split; [|done]. intros _. split; [done|]. intros t' [=].
Qed.

Lemma same_counters_refl a : same_counters a a.
Proof. by repeat split. Qed.

Lemma same_counters_trans a b c :
  same_counters a b → same_counters b c → same_counters a c.
Proof.
  intros (?&?&?&?) (?&?&?&?). repeat split; congruence.
Qed.

Lemma run_listener_counters now t l (sts : gmap string CircuitBreakerStats) k st :
  sts !! k = Some st →
  ∃ st', run_listener now t l sts !! k = Some st' ∧ same_counters st st'.
Proof.
  intros Hk.
  assert (∀ f nm, (∀ x, same_counters x (f x)) →
            ∃ st', alter f nm sts !! k = Some st' ∧ same_counters st st') as Halt.
  { intros f nm Hf. destruct (decide (nm = k)) as [->|Hne].
    - rewrite lookup_alter_eq, Hk. simpl. eauto.
    - rewrite lookup_alter_ne by done. exists st. split; [done|]. by repeat split. }
  destruct t, l; simpl; try (exists st; split; [done | by repeat split]);
    apply Halt; intros x; by repeat split.
Qed.

Lemma notify_counters now ls ts (sts : gmap string CircuitBreakerStats) k st :
  sts !! k = Some st →
  ∃ st', notify now ls ts sts !! k = Some st' ∧ same_counters st st'.
Proof.
  unfold notify. revert sts st. induction ts as [|t ts IH]; intros sts st Hk; simpl.
  { exists st. split; [done | by repeat split]. }
  assert (∃ st1, foldl (λ acc' l, run_listener now t l acc') sts ls !! k = Some st1
                 ∧ same_counters st st1) as (st1 & H1 & Hc1).
  { clear IH. revert sts st Hk. induction ls as [|l ls IHl]; intros sts st Hk; simpl.
    - exists st. split; [done | by repeat split].
    - destruct (run_listener_counters now t l sts k st Hk) as (st0 & H0 & Hc0).
      destruct (IHl _ _ H0) as (st1 & H1 & Hc1).
      exists st1. split; [done|]. by eapply same_counters_trans. }
  destruct (IH _ _ H1) as (st2 & H2 & Hc2).
  exists st2. split; [done|]. by eapply same_counters_trans.
Qed.

Lemma current_state_not_open now cb :
  current_state now cb ≠ "open" → _state (recover now cb).1 ≠ OPEN.
Proof. unfold current_state. intros H Hs. apply H. by rewrite Hs. Qed.

(** What the breaker does with an operation that raises an [Exception]
    while it is not open: the operation runs, and the exception comes
    back as it is. *)
Lemma breaker_call_raises now cb func w w' e :
  current_state now cb ≠ "open" →
  func w = (w', Raises e) →
  ∃ cb' ts, breaker_call now cb func w = (cb', ts, w', Raises e).
Proof.
  intros Hno Hf. apply current_state_not_open in Hno.
  unfold breaker_call. destruct (recover now cb) as [b1 ev]. simpl in Hno.
  destruct (_state b1); [|done|]; rewrite Hf; unfold Raises; simpl;
    destruct (is_Exception e); try case_decide; eauto.
Qed.

(** C6 (amended). For every breaker name and operation: if the breaker
    is open, the call raises the circuit-open error for that name, does
    not invoke the operation and changes nothing in the record but
    [total_calls]; if the breaker is not open and the operation raises
    an [Exception] other than the circuit-open error, the call counts
    the attempt and the failure, records the failure time and raises an
    external-service error carrying the name and the original message;
    a circuit-open error raised by the operation itself is re-raised
    unchanged, counted as an attempt but not as a failure. The two
    errors are different classes with different codes. *)
Theorem call_errors m nm func w ft rt now m1 cb st :
  get_or_create_circuit_breaker m nm ft rt now = (m1, cb) →
  stats m1 !! nm = Some st →
  (current_state now cb = "open" →
     call_with_circuit_breaker m nm func w ft rt now =
       (with_stats m1 (<[nm := set_total_calls (total_calls st + 1) st]> (stats m1)),
        w, Raises (CircuitBreakerOpenError nm)))
  ∧ (current_state now cb ≠ "open" →
     ∀ w' e, func w = (w', Raises e) →
       is_Exception e = true →
       (∀ s, e ≠ CircuitBreakerOpenError s) →
       ∃ m' st',
         call_with_circuit_breaker m nm func w ft rt now =
           (m', w', Raises (ExternalServiceError nm (str e)))
         ∧ stats m' !! nm = Some st'
         ∧ failure_count st' = failure_count st + 1
         ∧ last_failure_time st' = Some now
         ∧ success_count st' = success_count st
         ∧ total_calls st' = total_calls st + 1
         ∧ details_service (ExternalServiceError nm (str e)) = Some nm
         ∧ message (ExternalServiceError nm (str e)) =
             "External service error (" +:+ nm +:+ "): " +:+ str e)
  ∧ (current_state now cb ≠ "open" →
     ∀ w' s, func w = (w', Raises (CircuitBreakerOpenError s)) →
       ∃ m' st',
         call_with_circuit_breaker m nm func w ft rt now =
           (m', w', Raises (CircuitBreakerOpenError s))
         ∧ stats m' !! nm = Some st'
         ∧ failure_count st' = failure_count st
         ∧ success_count st' = success_count st
         ∧ total_calls st' = total_calls st + 1)
  ∧ (∀ s msg, CircuitBreakerOpenError nm ≠ ExternalServiceError s msg
              ∧ code (CircuitBreakerOpenError nm) ≠ code (ExternalServiceError s msg)).
Proof.
  intros Hgc Hst. split; [|split; [|split]].
  - intros Hopen. unfold call_with_circuit_breaker. rewrite Hgc.
    rewrite decide_True by done.
    by rewrite (alter_alt_Some _ _ _ _ Hst).
  - intros Hno w' e Hf Hexc Hnot.
    destruct (breaker_call_raises now cb func w w' e Hno Hf) as (cb' & ts & Hcall).
    unfold call_with_circuit_breaker. rewrite Hgc.
    rewrite decide_False by done. rewrite Hcall.
    rewrite (alter_alt_Some _ _ _ _ Hst). simpl.
    destruct (notify_counters now (_listeners cb) ts
                (<[nm := set_total_calls (total_calls st + 1) st]> (stats m1)) nm
                (set_total_calls (total_calls st + 1) st)) as (st1 & H1 & Hc1).
    { apply lookup_insert_eq. }
    destruct Hc1 as (_ & Hf1 & Hs1 & Ht1). simpl in *.
    unfold Raises. destruct e as [s| | |]; simpl in *; try done.
    + by destruct (Hnot s).
    + eexists _, _. split; [reflexivity|]. simpl.
      rewrite lookup_alter_eq, H1. simpl. split; [reflexivity|]. simpl.
      by rewrite Hf1, Hs1, Ht1.
    + eexists _, _. split; [reflexivity|]. simpl.
      rewrite lookup_alter_eq, H1. simpl. split; [reflexivity|]. simpl.
      by rewrite Hf1, Hs1, Ht1.
  - intros Hno w' s Hf.
    destruct (breaker_call_raises now cb func w w' _ Hno Hf) as (cb' & ts & Hcall).
    unfold call_with_circuit_breaker. rewrite Hgc.
    rewrite decide_False by done. rewrite Hcall.
    rewrite (alter_alt_Some _ _ _ _ Hst). simpl.
    destruct (notify_counters now (_listeners cb) ts
                (<[nm := set_total_calls (total_calls st + 1) st]> (stats m1)) nm
                (set_total_calls (total_calls st + 1) st)) as (st1 & H1 & Hc1).
    { apply lookup_insert_eq. }
    destruct Hc1 as (_ & Hf1 & Hs1 & Ht1). simpl in *.
    eexists _, st1. split; [reflexivity|]. simpl. split; [done|].
    by rewrite Hf1, Hs1, Ht1.
  - intros s msg. split; done.
Qed.


Lemma set_breaker_managed nm ft rt n lf s n' lf' s' :
  set_breaker (managed nm ft rt n lf s) n' lf' s' = managed nm ft rt n' lf' s'.
Proof. reflexivity. Qed.

Lemma call_fresh m nm func w ft rt now :
  circuit_breakers m !! nm = None →
  let ft' := int_or ft (cfg_failure_threshold (default_config m)) in
  let rt' := int_or rt (cfg_recovery_timeout (default_config m)) in
  call_with_circuit_breaker m nm func w ft rt now =
  call_with_circuit_breaker
    (mkManager (<[nm := managed nm ft' rt' 0 None CLOSED]> (circuit_breakers m))
               (<[nm := mkStats nm CLOSED 0 0 0 None None rt' ft' 3 30 now]> (stats m))
               (default_config m))
    nm func w ft rt now.
Proof.
  intros Hnone. simpl. unfold call_with_circuit_breaker at 1 2.
  unfold get_or_create_circuit_breaker. rewrite Hnone. simpl.
  by rewrite lookup_insert_eq.
Qed.

(** A call on a breaker the manager created, with its record. *)
Lemma call_managed cbs sts cfg nm func w ft rt now ft' rt' n lf s st :
  call_with_circuit_breaker
    (mkManager (<[nm := managed nm ft' rt' n lf s]> cbs) (<[nm := st]> sts) cfg)
    nm func w ft rt now =
  let cb := managed nm ft' rt' n lf s in
  let st1 := set_total_calls (total_calls st + 1) st in
  if decide (current_state now cb = "open") then
    (mkManager (<[nm := cb]> cbs) (<[nm := st1]> sts) cfg, w,
     Raises (CircuitBreakerOpenError nm))
  else
    let '(cb', ts, w', r) := breaker_call now cb func w in
    let sts2 := notify now (_listeners cb) ts (<[nm := st1]> sts) in
    match r with
    | inr result =>
        (mkManager (<[nm := cb']> cbs)
           (alter (λ st, set_last_success_time (Some now)
                           (set_success_count (success_count st + 1) st)) nm sts2) cfg,
         w', Returns result)
    | inl e =>
        if is_circuit_open e then (mkManager (<[nm := cb']> cbs) sts2 cfg, w', Raises e)
        else if is_Exception e then
          (mkManager (<[nm := cb']> cbs)
             (alter (λ st, set_last_failure_time (Some now)
                             (set_failure_count (failure_count st + 1) st)) nm sts2) cfg,
           w', Raises (ExternalServiceError nm (str e)))
        else (mkManager (<[nm := cb']> cbs) sts2 cfg, w', Raises e)
    end.
Proof.
  unfold call_with_circuit_breaker, get_or_create_circuit_breaker. simpl.
  rewrite lookup_insert_eq. simpl. rewrite alter_insert_eq.
  case_decide; [done|].
  destruct (breaker_call _ _ _ _) as [[[cb' ts] w'] r].
  unfold with_stats, with_breaker. simpl. rewrite insert_insert_eq.
  destruct r as [e|v]; [|done]. by destruct e.
Qed.


(** C1 (amended). A breaker created with [failure_threshold=3]: after
    three consecutive calls whose operation raises an [Exception] (the
    only exceptions the breaker counts), the state of the record is
    open; each of the three calls raises an external-service error, or
    passes the exception on unchanged when it is itself a circuit-open
    error. A fourth call before the recovery timeout has run out is
    rejected with the circuit-open error and the operation is not
    invoked (the world is left as it was); once the recovery timeout has
    elapsed, a call that succeeds returns its result and leaves the
    state closed and the failure count of the breaker itself at 0. The
    recorded [failure_count] of the statistics is cumulative and is not
    reset: it stays at the number of the three exceptions that the
    manager counted, which is 3 when none of them is a circuit-open
    error. *)
Theorem threshold_three_scenario m nm (f1 f2 f3 f4 f5 : W → W * outcome R)
    w0 w1 w2 w3 w5 e1 e2 e3 v rt t1 t2 t3 t4 t5 :
  let T := int_or rt (cfg_recovery_timeout (default_config m)) in
  circuit_breakers m !! nm = None →
  f1 w0 = (w1, Raises e1) → f2 w1 = (w2, Raises e2) → f3 w2 = (w3, Raises e3) →
  is_Exception e1 = true → is_Exception e2 = true → is_Exception e3 = true →
  t4 < t3 + T → t3 + T ≤ t5 →
  f5 w3 = (w5, Returns v) →
  ∃ m1 m2 m3 m4 m5,
    call_with_circuit_breaker m nm f1 w0 (Some 3) rt t1
      = (m1, w1, Raises (relayed nm e1))
    ∧ call_with_circuit_breaker m1 nm f2 w1 (Some 3) rt t2
      = (m2, w2, Raises (relayed nm e2))
    ∧ call_with_circuit_breaker m2 nm f3 w2 (Some 3) rt t3
      = (m3, w3, Raises (relayed nm e3))
    ∧ get_circuit_breaker_state m3 nm = Some OPEN
    ∧ call_with_circuit_breaker m3 nm f4 w3 (Some 3) rt t4
      = (m4, w3, Raises (CircuitBreakerOpenError nm))
    ∧ call_with_circuit_breaker m4 nm f5 w3 (Some 3) rt t5 = (m5, w5, Returns v)
    ∧ get_circuit_breaker_state m5 nm = Some CLOSED
    ∧ _failure_count <$> circuit_breakers m5 !! nm = Some 0
    ∧ failure_count <$> stats m5 !! nm
      = Some (counted e1 + counted e2 + counted e3)
    ∧ (is_circuit_open e1 = false → is_circuit_open e2 = false →
       is_circuit_open e3 = false →
       failure_count <$> stats m5 !! nm = Some 3).
Proof.
  intros T Hnone Hf1 Hf2 Hf3 He1 He2 He3 Ht4 Ht5 Hf5.
  unfold relayed, counted.
  destruct (is_circuit_open e1) eqn:Hc1, (is_circuit_open e2) eqn:Hc2,
           (is_circuit_open e3) eqn:Hc3.
  all: do 5 eexists.
  all: split;
    [ rewrite call_fresh by done; rewrite call_managed; simpl;
      unfold breaker_call; simpl; rewrite Hf1; unfold Raises; simpl;
      rewrite ?He1, ?Hc1; simpl; rewrite ?He1, ?Hc1; simpl;
      rewrite ?alter_insert_eq, ?set_breaker_managed; reflexivity |].
  all: split;
    [ rewrite call_managed; simpl;
      unfold breaker_call; simpl; rewrite Hf2; unfold Raises; simpl;
      rewrite ?He2, ?Hc2; simpl; rewrite ?He2, ?Hc2; simpl;
      rewrite ?alter_insert_eq, ?set_breaker_managed; reflexivity |].
  all: split;
    [ rewrite call_managed; simpl;
      unfold breaker_call; simpl; rewrite Hf3; unfold Raises; simpl;
      rewrite ?He3, ?Hc3; simpl; rewrite ?He3, ?Hc3; simpl;
      unfold _on_circuit_breaker_open;
      rewrite ?alter_insert_eq, ?set_breaker_managed; reflexivity |].
  all: split;
    [ unfold get_circuit_breaker_state; simpl; by rewrite lookup_insert_eq |].
  all: split;
    [ rewrite call_managed; simpl;
      rewrite decide_True; [reflexivity|];
      apply current_state_open; simpl; split; [done|]; by intros t [= <-] |].
  all: split;
    [ rewrite call_managed; simpl;
      rewrite decide_False
        by (rewrite current_state_open; simpl; intros [_ H];
            specialize (H _ eq_refl); fold T in H; lia);
      unfold breaker_call, recover; simpl; fold T; rewrite decide_True by done;
      simpl; rewrite Hf5; unfold Returns; simpl;
      unfold _on_circuit_breaker_half_open, _on_circuit_breaker_close;
      rewrite ?alter_insert_eq, ?set_breaker_managed; reflexivity |].
  all: unfold get_circuit_breaker_state; simpl; rewrite !lookup_insert_eq;
    repeat split; done.
Qed.

End Calls.

Lemma threshold_three_scenario_witness :
  let failing : nat → nat * outcome Z :=
    λ n, (S n, Raises (PyException "TimeoutError" "timed out")) in
  let ok : nat → nat * outcome Z := λ n, (S n, Returns 7) in
  ∃ m1 m2 m3 m4 m5,
    call_with_circuit_breaker (init default_settings) "stt" failing 0%nat
        (Some 3) (Some 60) 0
      = (m1, 1%nat, Raises (ExternalServiceError "stt" "timed out"))
    ∧ call_with_circuit_breaker m1 "stt" failing 1%nat (Some 3) (Some 60) 1
      = (m2, 2%nat, Raises (ExternalServiceError "stt" "timed out"))
    ∧ call_with_circuit_breaker m2 "stt" failing 2%nat (Some 3) (Some 60) 2
      = (m3, 3%nat, Raises (ExternalServiceError "stt" "timed out"))
    ∧ get_circuit_breaker_state m3 "stt" = Some OPEN
    ∧ call_with_circuit_breaker m3 "stt" ok 3%nat (Some 3) (Some 60) 3
      = (m4, 3%nat, Raises (CircuitBreakerOpenError "stt"))
    ∧ call_with_circuit_breaker m4 "stt" ok 3%nat (Some 3) (Some 60) 62
      = (m5, 4%nat, Returns 7)
    ∧ get_circuit_breaker_state m5 "stt" = Some CLOSED
    ∧ _failure_count <$> circuit_breakers m5 !! "stt" = Some 0
    ∧ failure_count <$> stats m5 !! "stt" = Some 3.
Proof.
  intros failing ok.
  destruct (threshold_three_scenario (init default_settings) "stt"
              failing failing failing ok ok 0%nat 1%nat 2%nat 3%nat 4%nat
              (PyException "TimeoutError" "timed out")
              (PyException "TimeoutError" "timed out")
              (PyException "TimeoutError" "timed out")
              7 (Some 60) 0 1 2 3 62)
    as (m1 & m2 & m3 & m4 & m5 & H1 & H2 & H3 & H4 & H5 & H6 & H7 & H8 & _ & H9);
    try reflexivity; try (simpl; lia).
  exists m1, m2, m3, m4, m5.
  repeat split; try assumption. by apply H9.
Defined.

(** C1 as the spec states it fails: with a threshold of 3, after three
    failed calls, a rejected fourth call, the recovery timeout and a
    successful call, the state is closed but the recorded
    [failure_count] is 3, not 0. *)
Lemma threshold_three_failure_count_not_reset :
  let failing : nat → nat * outcome Z :=
    λ n, (S n, Raises (PyException "TimeoutError" "timed out")) in
  let ok : nat → nat * outcome Z := λ n, (S n, Returns 7) in
  let '(m1, w1, _) :=
    call_with_circuit_breaker (init default_settings) "stt" failing 0%nat
      (Some 3) (Some 60) 0 in
  let '(m2, w2, _) := call_with_circuit_breaker m1 "stt" failing w1 (Some 3) (Some 60) 1 in
  let '(m3, w3, _) := call_with_circuit_breaker m2 "stt" failing w2 (Some 3) (Some 60) 2 in
  let '(m4, w4, r4) := call_with_circuit_breaker m3 "stt" ok w3 (Some 3) (Some 60) 3 in
  let '(m5, w5, r5) := call_with_circuit_breaker m4 "stt" ok w4 (Some 3) (Some 60) 62 in
  get_circuit_breaker_state m3 "stt" = Some OPEN
  ∧ (r4 = Raises (CircuitBreakerOpenError "stt") ∧ w4 = w3)
  ∧ r5 = Returns 7
  ∧ get_circuit_breaker_state m5 "stt" = Some CLOSED
  ∧ failure_count <$> get_circuit_breaker_stats m5 "stt" = Some 3
  ∧ ¬ (get_circuit_breaker_state m5 "stt" = Some CLOSED
       ∧ failure_count <$> get_circuit_breaker_stats m5 "stt" = Some 0).
Proof. vm_compute. repeat split; try congruence. intros [_ H]. congruence. Qed.

(** The same scenario with operations that raise a circuit-open error of
    their own (a nested call on another breaker): the breaker counts the
    three exceptions and opens, the manager counts no failure. *)
Example threshold_three_nested_open_errors :
  let nested : nat → nat * outcome Z :=
    λ n, (S n, Raises (CircuitBreakerOpenError "tts")) in
  let '(m1, w1, r1) :=
    call_with_circuit_breaker (init default_settings) "stt" nested 0%nat
      (Some 3) (Some 60) 0 in
  let '(m2, w2, _) := call_with_circuit_breaker m1 "stt" nested w1 (Some 3) (Some 60) 1 in
  let '(m3, w3, _) := call_with_circuit_breaker m2 "stt" nested w2 (Some 3) (Some 60) 2 in
  r1 = Raises (CircuitBreakerOpenError "tts")
  ∧ get_circuit_breaker_state m3 "stt" = Some OPEN
  ∧ failure_count <$> get_circuit_breaker_stats m3 "stt" = Some 0.
Proof. vm_compute. repeat split. Qed.

(** An exception outside [Exception] (a cancelled task) is not counted
    by the breaker: after three such calls the breaker is still closed
    and the exception has come through unchanged. *)
Example threshold_three_cancelled_not_counted :
  let cancelled : nat → nat * outcome Z :=
    λ n, (S n, Raises (PyBaseException "CancelledError" "")) in
  let '(m1, w1, r1) :=
    call_with_circuit_breaker (init default_settings) "stt" cancelled 0%nat
      (Some 3) (Some 60) 0 in
  let '(m2, w2, _) := call_with_circuit_breaker m1 "stt" cancelled w1 (Some 3) (Some 60) 1 in
  let '(m3, w3, _) := call_with_circuit_breaker m2 "stt" cancelled w2 (Some 3) (Some 60) 2 in
  r1 = Raises (PyBaseException "CancelledError" "")
  ∧ get_circuit_breaker_state m3 "stt" = Some CLOSED
  ∧ failure_count <$> get_circuit_breaker_stats m3 "stt" = Some 0.
Proof. vm_compute. repeat split. Qed.

Lemma call_errors_witness :
  let failing : nat → nat * outcome Z :=
    λ n, (S n, Raises (PyException "TimeoutError" "timed out")) in
  ∃ m' st',
    call_with_circuit_breaker (init default_settings) "stt" failing 0%nat None None 0
      = (m', 1%nat, Raises (ExternalServiceError "stt" "timed out"))
    ∧ stats m' !! "stt" = Some st'
    ∧ failure_count st' = 1
    ∧ last_failure_time st' = Some 0.
Proof.
  intros failing.
  destruct (call_errors (init default_settings) "stt" failing 0%nat None None 0
              (get_or_create_circuit_breaker (init default_settings) "stt" None None 0).1
              (get_or_create_circuit_breaker (init default_settings) "stt" None None 0).2
              (mkStats "stt" CLOSED 0 0 0 None None 60 5 3 30 0))
    as (_ & Hfail & _); [reflexivity | reflexivity |].
  destruct (Hfail ltac:(vm_compute; congruence) 1%nat
              (PyException "TimeoutError" "timed out") eq_refl eq_refl
              ltac:(intros s; discriminate))
    as (m' & st' & Hcall & Hst & Hfc & Hlf & _).
  exists m', st'. repeat split; assumption.
Defined.

(** C6 as the spec states it fails: an operation that raises the
    manager's own [CircuitBreakerOpenError] (a nested call on another
    breaker that is open) while the breaker is closed. The error comes
    back unchanged, not as an [ExternalServiceError], and the failure
    count of the record stays 0. *)
Lemma call_errors_nested_open_passes_through :
  let nested : nat → nat * outcome Z :=
    λ n, (S n, Raises (CircuitBreakerOpenError "tts")) in
  let '(m1, cb) :=
    get_or_create_circuit_breaker (init default_settings) "stt" None None 0 in
  let '(m', w', r) :=
    call_with_circuit_breaker (init default_settings) "stt" nested 0%nat None None 0 in
  current_state 0 cb ≠ "open"
  ∧ nested 0%nat = (1%nat, Raises (CircuitBreakerOpenError "tts"))
  ∧ w' = 1%nat
  ∧ r = Raises (CircuitBreakerOpenError "tts")
  ∧ (∀ msg, r ≠ Raises (ExternalServiceError "stt" msg))
  ∧ failure_count <$> stats m1 !! "stt" = Some 0
  ∧ failure_count <$> stats m' !! "stt" = Some 0
  ∧ last_failure_time <$> stats m' !! "stt" = Some None.
Proof. vm_compute. repeat split; intros; congruence. Qed.

End CircuitBreakerProofs.

(** ** Cache service *)

Module CacheProofs.
Import Exceptions Cache.

Implicit Types (c : CacheService) (r : Redis).

Lemma get_peek now key c : (get now key c).2 = peek now key c.
Proof.
  unfold get, peek, redis_get.
  destruct (connected c), (redis c) as [r|]; simpl;
    try (destruct (in_memory_cache c !! key) as [e|]; simpl;
         [case_decide|]; done).
  destruct (available r); simpl; [|done].
  by destruct (redis_lookup now key r).
Qed.


Lemma get_ready settings w now key c :
  backend_ready settings w c → backend_ready settings w (get now key c).1.
Proof.
  unfold backend_ready, get, redis_get.
  destruct (connected c) eqn:Hc, (redis c) as [r|] eqn:Hr; simpl.
  2-4: destruct (in_memory_cache c !! key) as [e|]; simpl;
       [case_decide|]; simpl; rewrite ?Hc, ?Hr; done.
  intros Ha. rewrite Ha. simpl.
  destruct (redis_lookup now key r); simpl; by rewrite ?Hr.
Qed.


Lemma cleanup_lookup now (m : gmap string CacheEntry) k :
  _cleanup_memory_cache now m !! k =
  match m !! k with
  | Some e => if decide (now < expires_at e) then Some e else None
  | None => None
  end.
Proof.
  unfold _cleanup_memory_cache. rewrite map_lookup_filter.
  destruct (m !! k) as [e|]; simpl; [|done].
  case_decide; simpl.
  - rewrite option_guard_True; done.
  - rewrite option_guard_False; done.
Qed.


(** What [set] leaves under the key, and that it leaves the rest as it
    was, as seen from [now] on. *)
Lemma set_peek settings w now t key v ttl c :
  backend_ready settings w c →
  0 < int_or ttl (CACHE_TTL settings) →
  now ≤ t →
  peek t key (set settings now key v ttl c).1 =
    if decide (t < now + int_or ttl (CACHE_TTL settings)) then Some v else None.
Proof.
  unfold backend_ready, set, peek, redis_setex, redis_lookup. intros Hr Httl Hle.
  destruct (connected c) eqn:Hc, (redis c) as [r|] eqn:Hre; simpl.
  2-4: rewrite ?Hc, ?Hre; case_decide; rewrite ?cleanup_lookup, lookup_insert_eq;
       simpl; rewrite ?decide_True by lia; done.
  rewrite Hr. rewrite decide_True by done. simpl.
  rewrite lookup_insert_eq. simpl. by case_decide.
Qed.


(** [increment] on the in-memory fallback is a [get] followed by a
    [set] with the default time-to-live. *)
Lemma increment_fallback settings now key a c :
  (connected c && bool_decide (is_Some (redis c))) = false →
  increment settings now key a c =
    ((set settings now key (default 0 (peek now key c) + a) None (get now key c).1).1,
     Some (default 0 (peek now key c) + a)).
Proof.
  intros Hfb. unfold increment. rewrite <- get_peek.
  destruct (connected c), (redis c) as [r|]; simpl in Hfb; try done;
    destruct (get now key c) as [c1 cur]; simpl;
    destruct (set settings now key (default 0 cur + a) None c1); done.
Qed.

Lemma increment_redis settings now key a c r :
  connected c = true → redis c = Some r →
  increment settings now key a c =
    match redis_incrby now key a r with
    | (r', inr n) => (mkCache (Some r') (in_memory_cache c) true (stats c), Some n)
    | (r', inl _) => (mkCache (Some r') (in_memory_cache c) true (error (stats c)), None)
    end.
Proof. intros Hc Hr. unfold increment. by rewrite Hc, Hr. Qed.

Lemma backend_cases c :
  (connected c && bool_decide (is_Some (redis c))) = false
  ∨ ∃ r, connected c = true ∧ redis c = Some r.
Proof.
  destruct (connected c), (redis c) as [r|]; simpl; eauto.
Qed.






End CacheProofs.

(** ** Rate limiter *)

Module RateLimiterProofs.
Import Exceptions RateLimiter.

Section WithStore.
Context {St : Type}.
Variable cache_get : Z → string → St → St * outcome (option Z).
Variable cache_increment : Z → string → Z → St → St * outcome (option Z).
Variable cache_set : Z → string → Z → option Z → St → St * outcome bool.

Local Abbreviation check := (_sliding_window_check cache_get cache_increment cache_set).
Local Abbreviation raised := (store_error cache_get cache_increment cache_set).

Lemma fail_open_Exception {A : Type} (allowed : A) (st : St) e :
  is_Exception e = true → fail_open allowed st e = (st, Returns allowed).
Proof. intros H. unfold fail_open. by rewrite H. Qed.

Lemma sliding_window_fails_open client_id limit now st e :
  raised client_id limit now st e →
  is_Exception e = true →
  ∃ st', check client_id limit now st = (st', Returns (true, 0)).
Proof.
  intros Herr Hexc. unfold _sliding_window_check.
  destruct Herr as [mx w st1 Hp Hw Hget
                   |mx w st1 got st2 Hp Hw Hget Hlt Hinc
                   |mx w st1 got st2 n st3 Hp Hw Hget Hlt H0 Hinc Hset];
    rewrite Hp, decide_False by done; rewrite Hget; unfold Raises, Returns.
  - rewrite fail_open_Exception by done. eauto.
  - rewrite decide_False by lia. rewrite Hinc. unfold Raises.
    rewrite fail_open_Exception by done. eauto.
  - rewrite decide_False by lia. rewrite Hinc. unfold Returns.
    rewrite decide_True by done. rewrite Hset. unfold Raises.
    rewrite fail_open_Exception by done. eauto.
Qed.

(** C5. For every client identity and limit, if a call on the key-value
    store made during the check raises an error (an [Exception]), the
    sliding-window check allows the request and [check_rate_limit]
    returns [(True, {})]: the request is admitted, nothing is denied and
    nothing propagates. *)
Theorem check_rate_limit_fails_open settings rl client_id limit now st e :
  raised client_id (effective_limit settings limit) now st e →
  is_Exception e = true →
  (∃ st', check client_id (effective_limit settings limit) now st
            = (st', Returns (true, 0)))
  ∧ ∃ rl' st',
      check_rate_limit cache_get cache_increment cache_set settings rl
                       (Returns client_id) limit now st
        = (rl', st', Returns (true, None)).
Proof.
  intros Herr Hexc.
  destruct (sliding_window_fails_open _ _ _ _ _ Herr Hexc) as (st' & Hcheck).
  split; [eauto|].
  unfold check_rate_limit, Returns. simpl. unfold Returns in Hcheck.
  rewrite Hcheck. eauto.
Qed.

End WithStore.

Lemma check_rate_limit_fails_open_witness :
  ∃ rl' st',
    check_rate_limit down_get down_increment down_set default_settings init
                     (Returns "10.0.0.7") (Some "5/60seconds") 125 tt
      = (rl', st', Returns (true, None)).
Proof.
  apply (check_rate_limit_fails_open down_get down_increment down_set
           default_settings init "10.0.0.7" (Some "5/60seconds") 125 tt
           (PyException "ConnectionError" "store unreachable")).
  - apply (get_raised _ _ _ _ _ _ _ _ 5 60 tt); [reflexivity | lia | reflexivity].
  - reflexivity.
Defined.

(** The number in the key is one less than [floor(now / window)]. *)
Lemma window_number_spec now w :
  w ≠ 0 → window_number now w = spec_window_index now w - 1.
Proof.
  intros Hw. unfold window_number, spec_window_index.
  replace (now - w) with (now + (-1) * w) by lia.
  rewrite Z.div_add by done. lia.
Qed.

(** C8 (amended). For every check at time [now] with window length
    [window_seconds], every call the check makes on the store (the [get]
    that consults the count, the [increment], and the [set] of the first
    request) uses one key, built from the client identity and the number
    [floor((now - window_seconds) / window_seconds)], which is
    [floor(now / window_seconds) - 1]. *)
Theorem sliding_window_key client_id limit max_requests window_seconds now count :
  parse_limit limit = Parsed max_requests window_seconds →
  window_seconds ≠ 0 →
  let key :=
    "rate_limit:" +:+ client_id +:+ ":" +:+
    pretty (spec_window_index now window_seconds - 1) in
  (_sliding_window_check (rec_get count) (rec_increment count) rec_set
                         client_id limit now []).1
  = if decide (max_requests ≤ default 0 count) then [CallGet key]
    else if decide (default 0 count = 0)
         then [CallGet key; CallIncrement key 1; CallSet key 1 (Some window_seconds)]
         else [CallGet key; CallIncrement key 1].
Proof.
  intros Hp Hw key. unfold _sliding_window_check.
  rewrite Hp, decide_False by done.
  unfold rate_limit_key. rewrite window_number_spec by done. fold key.
  unfold rec_get, Returns. simpl.
  destruct (decide (max_requests ≤ default 0 count)); [done|].
  unfold rec_increment, Returns. simpl.
  destruct (decide (default 0 count = 0)); done.
Qed.

Lemma sliding_window_key_witness :
  (_sliding_window_check (rec_get None) (rec_increment None) rec_set
                         "10.0.0.7" "5/60seconds" 125 []).1
  = [CallGet "rate_limit:10.0.0.7:1"; CallIncrement "rate_limit:10.0.0.7:1" 1;
     CallSet "rate_limit:10.0.0.7:1" 1 (Some 60)].
Proof.
  apply (sliding_window_key "10.0.0.7" "5/60seconds" 5 60 125 None);
    [reflexivity | lia].
Defined.

(** C8 as the spec states it fails: at [now = 125] with a window of 60
    seconds the window index [floor(now / window_seconds)] is 2, and the
    key the check consults and increments carries 1. *)
Lemma sliding_window_key_not_spec_index :
  spec_window_index 125 60 = 2
  ∧ (_sliding_window_check (rec_get None) (rec_increment None) rec_set
                           "10.0.0.7" "5/60seconds" 125 []).1
    = [CallGet "rate_limit:10.0.0.7:1"; CallIncrement "rate_limit:10.0.0.7:1" 1;
       CallSet "rate_limit:10.0.0.7:1" 1 (Some 60)]
  ∧ "rate_limit:10.0.0.7:1"
    ≠ "rate_limit:" +:+ "10.0.0.7" +:+ ":" +:+ pretty (spec_window_index 125 60).
Proof. vm_compute. repeat split; congruence. Qed.

End RateLimiterProofs.

(** ** Rate limiter on the cache service *)

Module RateLimiterCacheProofs.
Import Exceptions RateLimiter CacheProofs.

Section Cached.
Variable settings : Settings.
Implicit Types c : Cache.CacheService.

Local Abbreviation check := (sliding_window_check_cached settings).
Local Abbreviation ready := (Cache.backend_ready settings).

(** The check on [cache_service], call by call. *)
Lemma check_unfold client limit mx w now c :
  parse_limit limit = Parsed mx w → w ≠ 0 →
  check client limit now c =
    let key := rate_limit_key client now w in
    let c1 := (Cache.get now key c).1 in
    let cur := default 0 (Cache.peek now key c) in
    if decide (mx ≤ cur) then (c1, Returns (false, w - now `mod` w))
    else
      let c2 := (Cache.increment settings now key 1 c1).1 in
      if decide (cur = 0)
      then ((Cache.set settings now key 1 (Some w) c2).1, Returns (true, 0))
      else (c2, Returns (true, 0)).
Proof.
  intros Hp Hw. unfold sliding_window_check_cached, _sliding_window_check.
  rewrite Hp, decide_False by done. simpl.
  unfold cache_get. rewrite <- get_peek.
  destruct (Cache.get now _ c) as [c1 cur]. simpl. unfold Returns.
  case_decide; [done|].
  unfold cache_increment.
  destruct (Cache.increment settings now _ 1 c1) as [c2 n]. simpl.
  case_decide; [|done].
  unfold cache_set. by destruct (Cache.set settings now _ 1 (Some w) c2).
Qed.




Lemma append_inv_head (s a b : string) : s +:+ a = s +:+ b → a = b.
Proof. induction s as [|ch s IH]; simpl; [done|]. intros [= H]. auto. Qed.

Lemma rate_limit_key_inj client a b w :
  rate_limit_key client a w = rate_limit_key client b w →
  window_number a w = window_number b w.
Proof.
  unfold rate_limit_key. intros H.
  do 3 apply append_inv_head in H. by apply (inj pretty) in H.
Qed.

Lemma rate_limit_key_same_window client a b w :
  w ≠ 0 → a `div` w = b `div` w →
  rate_limit_key client a w = rate_limit_key client b w.
Proof.
  intros Hw Hd. unfold rate_limit_key.
  rewrite !RateLimiterProofs.window_number_spec by done.
  unfold spec_window_index. by rewrite Hd.
Qed.


(** On the cache service an unreachable Redis server does not raise:
    [get] answers [None] and the request is admitted, whatever was
    counted before, as long as the limit is positive. *)
Lemma redis_unreachable_admits client limit mx w now c r :
  parse_limit limit = Parsed mx w → w ≠ 0 → 0 < mx →
  Cache.connected c = true → Cache.redis c = Some r →
  Cache.available r = false →
  ∃ c', check client limit now c = (c', Returns (true, 0)).
Proof.
  intros Hp Hw Hmx Hc Hr Ha.
  rewrite (check_unfold _ _ mx w) by done. cbv zeta.
  assert (Cache.peek now (rate_limit_key client now w) c = None) as ->.
  { unfold Cache.peek. by rewrite Hc, Hr, Ha. }
  rewrite decide_False by (simpl; lia). rewrite decide_True by done. eauto.
Qed.

End Cached.

(** Five admissions and a denial with a Redis server behind the cache
    service, by running the checks. *)
Example five_then_denied_on_redis :
  let check := sliding_window_check_cached default_settings "10.0.0.7" "5/60seconds" in
  let c := Cache.mkCache (Some (Cache.mkRedis true ∅)) ∅ true
                         (Cache.mkCacheStats 0 0 0 0 0 0) in
  let '(c1, r1) := check 120 c in
  let '(c2, r2) := check 121 c1 in
  let '(c3, r3) := check 130 c2 in
  let '(c4, r4) := check 145 c3 in
  let '(c5, r5) := check 160 c4 in
  let '(c6, r6) := check 179 c5 in
  let '(c7, r7) := check 180 c6 in
  [r1; r2; r3; r4; r5; r6; r7]
  = [Returns (true, 0); Returns (true, 0); Returns (true, 0); Returns (true, 0);
     Returns (true, 0); Returns (false, 1); Returns (true, 0)]
  ∧ (Cache.get 179 "rate_limit:10.0.0.7:1" c6).2 = Some 5.
Proof. vm_compute. split; reflexivity. Qed.


(** The same with the default settings and a Redis server that has
    stopped answering: every check is admitted. *)
Example six_admitted_when_redis_is_down :
  let check := sliding_window_check_cached default_settings "10.0.0.7" "5/60seconds" in
  let c := Cache.mkCache (Some (Cache.mkRedis false ∅)) ∅ true
                         (Cache.mkCacheStats 0 0 0 0 0 0) in
  let '(c1, r1) := check 120 c in
  let '(c2, r2) := check 121 c1 in
  let '(c3, r3) := check 122 c2 in
  let '(c4, r4) := check 123 c3 in
  let '(c5, r5) := check 124 c4 in
  let '(c6, r6) := check 125 c5 in
  [r1; r2; r3; r4; r5; r6]
  = [Returns (true, 0); Returns (true, 0); Returns (true, 0); Returns (true, 0);
     Returns (true, 0); Returns (true, 0)].
Proof. vm_compute. reflexivity. Qed.


End RateLimiterCacheProofs.

(** ** Python dictionaries *)

Module PyDictProofs.
Section Dict.
Context {V : Type}.
Implicit Types (d : PyDict.dict V) (k : string) (v : V).

Lemma dict_get_set_eq k v d : PyDict.get k (PyDict.set k v d) = Some v.
Proof.
  induction d as [|[k' v'] d IH]; simpl.
  - by rewrite decide_True.
  - case_decide; simpl; [by rewrite decide_True|]. by rewrite decide_False.
Qed.

Lemma dict_get_set_ne k k' v d :
  k' ≠ k → PyDict.get k' (PyDict.set k v d) = PyDict.get k' d.
Proof.
  intros Hne. induction d as [|[k0 v0] d IH]; simpl.
  - by rewrite decide_False.
  - destruct (decide (k0 = k)) as [->|]; simpl.
    + by rewrite !decide_False.
    + case_decide; [done|]. apply IH.
Qed.

Lemma dict_get_Some_elem k v d : PyDict.get k d = Some v → (k, v) ∈ d.
Proof.
  induction d as [|[k' v'] d IH]; simpl; [done|].
  case_decide as Hk.
  - intros [= <-]. subst. apply list_elem_of_here.
  - intros H. apply list_elem_of_further. auto.
Qed.

Lemma dict_get_None_keys k d : PyDict.get k d = None ↔ k ∉ PyDict.keys d.
Proof.
  unfold PyDict.keys. induction d as [|[k' v'] d IH]; simpl.
  - split; [intros _; apply not_elem_of_nil | done].
  - rewrite not_elem_of_cons. case_decide as Hk.
    + split; [done|]. intros [Hne _]. by subst.
    + rewrite IH. split; [|tauto]. intros H. split; [congruence|done].
Qed.

Lemma dict_keys_set_present k v d :
  k ∈ PyDict.keys d → PyDict.keys (PyDict.set k v d) = PyDict.keys d.
Proof.
  unfold PyDict.keys. induction d as [|[k' v'] d IH]; simpl.
  - intros H. by apply elem_of_nil in H.
  - intros H. case_decide as Hk; simpl; [by subst|].
    f_equal. apply IH. apply elem_of_cons in H as [->|]; done.
Qed.

Lemma dict_keys_set_absent k v d :
  k ∉ PyDict.keys d → PyDict.keys (PyDict.set k v d) = PyDict.keys d ++ [k].
Proof.
  unfold PyDict.keys. induction d as [|[k' v'] d IH]; simpl; [done|].
  rewrite not_elem_of_cons. intros [Hne Hnot].
  rewrite decide_False by done. simpl. f_equal. by apply IH.
Qed.

Lemma dict_wf_set k v d : PyDict.wf d → PyDict.wf (PyDict.set k v d).
Proof.
  unfold PyDict.wf. intros Hwf.
  destruct (decide (k ∈ PyDict.keys d)) as [Hin|Hnot].
  - by rewrite dict_keys_set_present.
  - rewrite dict_keys_set_absent by done.
    apply NoDup_app. split; [done|]. split; [|apply NoDup_singleton].
    intros x Hx Hx'. apply list_elem_of_singleton in Hx'. by subst.
Qed.

(** Assigning to a present key changes that one entry where it stands. *)
Lemma dict_set_present k v old d :
  PyDict.wf d → PyDict.get k d = Some old →
  ∃ d1 d2, (d = d1 ++ ((k, old) :: d2))
           ∧ (PyDict.set k v d = d1 ++ ((k, v) :: d2))
           ∧ (k ∉ PyDict.keys d1) ∧ (k ∉ PyDict.keys d2).
Proof.
  unfold PyDict.wf, PyDict.keys.
  induction d as [|[k' v'] d IH]; simpl; [done|].
  intros Hwf Hget. apply NoDup_cons in Hwf as [Hk' Hwf].
  case_decide as Hk.
  - injection Hget as <-. subst k'. exists [], d. simpl.
    repeat split; try done. apply not_elem_of_nil.
  - destruct (IH Hwf Hget) as (d1 & d2 & -> & Hset & H1 & H2).
    exists ((k', v') :: d1), d2. simpl. rewrite Hset.
    repeat split; try done. rewrite not_elem_of_cons. split; [congruence|done].
Qed.

Lemma dict_wf_remove k d : PyDict.wf d → PyDict.wf (PyDict.remove k d).
Proof.
  unfold PyDict.wf, PyDict.keys.
  induction d as [|[k' v'] d IH]; simpl; [done|].
  intros Hwf. apply NoDup_cons in Hwf as [Hk' Hwf].
  case_decide; [done|]. simpl. apply NoDup_cons. split; [|by apply IH].
  intros Hin. apply Hk'. clear -Hin.
  induction d as [|[k0 v0] d IHd]; simpl in *; [done|].
  case_decide; simpl in *.
  - by apply list_elem_of_further.
  - apply elem_of_cons in Hin as [->|Hin]; [apply list_elem_of_here|].
    apply list_elem_of_further. auto.
Qed.

Lemma dict_remove_subset k d x : x ∈ PyDict.remove k d → x ∈ d.
Proof.
  induction d as [|[k0 v0] d IHd]; simpl; [done|].
  case_decide.
  - by apply list_elem_of_further.
  - intros Hin. apply elem_of_cons in Hin as [->|Hin]; [apply list_elem_of_here|].
    apply list_elem_of_further. auto.
Qed.

Lemma dict_set_elem k v d x :
  x ∈ PyDict.set k v d → x = (k, v) ∨ x ∈ d.
Proof.
  induction d as [|[k0 v0] d IHd]; simpl.
  - intros H. apply list_elem_of_singleton in H. by left.
  - case_decide.
    + intros H'. apply elem_of_cons in H' as [->|H']; [by left|].
      right. by apply list_elem_of_further.
    + intros H'. apply elem_of_cons in H' as [->|H'].
      * right. apply list_elem_of_here.
      * destruct (IHd H') as [->|]; [by left|]. right. by apply list_elem_of_further.
Qed.

End Dict.
End PyDictProofs.

(** ** Service registry *)

Module ServiceDiscoveryProofs.
Import Exceptions ServiceDiscovery PyDictProofs.

Implicit Types (sd : ServiceDiscovery) (s : ServiceInfo).

Lemma init_wf : registry_wf init.
Proof.
  split; [apply NoDup_nil_2|]. intros k s H. by apply elem_of_nil in H.
Qed.

Lemma register_service_wf sd service_data uuid now :
  registry_wf sd → registry_wf (register_service sd service_data uuid now).1.
Proof.
  intros [Hwf Hids]. split; simpl.
  - by apply dict_wf_set.
  - intros k s Hin. apply dict_set_elem in Hin as [Heq|Hin]; [|by apply Hids].
    by injection Heq as -> ->.
Qed.

Lemma deregister_service_wf sd service_id :
  registry_wf sd → registry_wf (deregister_service sd service_id).1.
Proof.
  intros [Hwf Hids]. unfold deregister_service.
  destruct (PyDict.get service_id (services sd)) as [found|]; [|done].
  split; simpl.
  - by apply dict_wf_remove.
  - intros k s Hin. apply Hids. by eapply dict_remove_subset.
Qed.

(** C10. For every [register_service] call whose descriptor supplies an
    id already present in a well-formed registry, the new instance
    replaces the one stored under that id, in its place: the id is
    returned, the number of instances (and [total_services]) is
    unchanged, [get_service] returns the instance built from the new
    descriptor, and the list of all services is the old list with the
    previous instance exchanged for the new one, so that the previous
    instance is no longer listed. The instance returned carries the
    data of the new descriptor: its name, version, host and port, its
    protocol, health endpoint, tags, dependencies and metadata (or
    their defaults when the descriptor leaves them out), the time of
    this registration, and the status of an instance never probed. *)
Theorem register_service_replaces sd service_data uuid now service_id old :
  registry_wf sd →
  sd_id service_data = Some service_id →
  get_service sd service_id = Some old →
  let new := new_service_info service_id service_data now in
  let sd' := (register_service sd service_data uuid now).1 in
  (register_service sd service_data uuid now).2 = service_id
  ∧ length (get_all_services sd') = length (get_all_services sd)
  ∧ total_services (stats sd') = Z.of_nat (length (get_all_services sd))
  ∧ get_service sd' service_id = Some new
  ∧ (∃ l1 l2, get_all_services sd = l1 ++ (old :: l2)
              ∧ get_all_services sd' = l1 ++ (new :: l2)
              ∧ (old ∉ l1) ∧ (old ∉ l2))
  ∧ (old ≠ new → old ∉ get_all_services sd')
  ∧ (∃ s, get_service sd' service_id = Some s
          ∧ id s = service_id
          ∧ name s = sd_name service_data
          ∧ version s = sd_version service_data
          ∧ host s = sd_host service_data
          ∧ port s = sd_port service_data
          ∧ protocol s = default "http" (sd_protocol service_data)
          ∧ health_endpoint s = default "/health" (sd_health_endpoint service_data)
          ∧ tags s = default [] (sd_tags service_data)
          ∧ dependencies s = default [] (sd_dependencies service_data)
          ∧ metadata s = default [] (sd_metadata service_data)
          ∧ registered_at s = now
          ∧ last_health_check s = None
          ∧ health_status s = "unknown"
          ∧ consecutive_failures s = 0
          ∧ response_time_ms s = None).
Proof.
  intros [Hwf Hids] Hid Hold new sd'. unfold get_service in Hold.
  destruct (dict_set_present service_id new old (services sd) Hwf Hold)
    as (d1 & d2 & Hd & Hset & Hk1 & Hk2).
  assert (id old = service_id) as Hidold.
  { apply Hids. by apply dict_get_Some_elem. }
  assert (∀ d : PyDict.dict ServiceInfo,
            (∀ k s, (k, s) ∈ d → id s = k) → service_id ∉ PyDict.keys d →
            old ∉ PyDict.values d) as Hnot.
  { intros d Hd' Hk Hin. apply Hk. unfold PyDict.values, PyDict.keys in *.
    apply list_elem_of_fmap in Hin as ([k s] & -> & Hin). simpl in *.
    apply list_elem_of_fmap. exists (k, s). split; [|done]. simpl.
    rewrite <- Hidold. by apply Hd'. }
  assert ((old ∉ PyDict.values d1) ∧ (old ∉ PyDict.values d2)) as [Ho1 Ho2].
  { split; apply Hnot; try done; intros k s Hin; apply Hids; rewrite Hd;
      apply elem_of_app; [by left|right; by apply list_elem_of_further]. }
  assert (get_all_services sd' = PyDict.values d1 ++ (new :: PyDict.values d2)) as Hall'.
  { unfold sd', get_all_services, register_service. simpl. rewrite Hid. simpl.
    fold new. rewrite Hset. unfold PyDict.values. by rewrite fmap_app. }
  assert (get_all_services sd = PyDict.values d1 ++ (old :: PyDict.values d2)) as Hall.
  { unfold get_all_services. rewrite Hd. unfold PyDict.values. by rewrite fmap_app. }
  assert (get_service sd' service_id = Some new) as Hget.
  { unfold sd', get_service, register_service. simpl. rewrite Hid. simpl.
    apply dict_get_set_eq. }
  split; [|split; [|split; [|split; [|split; [|split]]]]].
  - unfold register_service. simpl. by rewrite Hid.
  - rewrite Hall', Hall. by rewrite !length_app.
  - unfold sd', register_service. simpl. rewrite Hid. simpl. fold new.
    f_equal. rewrite Hset, Hall. unfold PyDict.values.
    rewrite !length_app. simpl. rewrite !length_fmap. done.
  - exact Hget.
  - exists (PyDict.values d1), (PyDict.values d2). done.
  - intros Hne. rewrite Hall'. intros Hin.
    apply elem_of_app in Hin as [Hin|Hin]; [done|].
    apply elem_of_cons in Hin as [Hin|Hin]; done.
  - exists new. split; [exact Hget|]. unfold new, new_service_info. simpl.
    repeat split.
Qed.

Lemma register_service_replaces_witness :
  let first := mkData (Some "stt-1") "stt" "1.0" "10.0.0.5" 8001 None None None None None in
  let second := mkData (Some "stt-1") "stt" "1.1" "10.0.0.6" 8002 None None None None None in
  let sd := (register_service init first "u1" 10).1 in
  let sd' := (register_service sd second "u2" 20).1 in
  length (get_all_services sd') = length (get_all_services sd)
  ∧ get_service sd' "stt-1" = Some (new_service_info "stt-1" second 20)
  ∧ (new_service_info "stt-1" first 10 ∉ get_all_services sd')
  ∧ ∃ s, get_service sd' "stt-1" = Some s
         ∧ name s = "stt" ∧ version s = "1.1" ∧ host s = "10.0.0.6"
         ∧ port s = 8002 ∧ protocol s = "http" ∧ registered_at s = 20.
Proof.
  intros first second sd sd'.
  destruct (register_service_replaces sd second "u2" 20 "stt-1"
              (new_service_info "stt-1" first 10))
    as (_ & Hlen & _ & Hget & _ & Hgone & s & Hs & _ & Hn & Hv & Hh & Hp & Hpr
        & _ & _ & _ & _ & Hr & _).
  - apply register_service_wf, init_wf.
  - reflexivity.
  - reflexivity.
  - split; [exact Hlen|]. split; [exact Hget|].
    split; [apply Hgone; discriminate|].
    exists s. repeat split; assumption.
Defined.

(** The instance a probe leaves does not depend on the counters. *)
Lemma check_service_health_info now probe s st st' :
  (_check_service_health now probe s st).1.1
  = (_check_service_health now probe s st').1.1.
Proof.
  unfold _check_service_health. case_decide; [done|].
  destruct probe as [e|[code rt]]; simpl; [|done].
  by destruct (is_Exception e).
Qed.

Lemma check_all_get now probe_of (d : PyDict.dict ServiceInfo) st st0 k :
  PyDict.get k (check_all now probe_of d st).1
  = (λ s, (_check_service_health now (probe_of k) s st0).1.1) <$> PyDict.get k d.
Proof.
  revert st. induction d as [|[k' s'] d IH]; intros st; simpl; [done|].
  destruct (_check_service_health now (probe_of k') s' st) as [[info' st'] r] eqn:Hc.
  specialize (IH st').
  destruct (check_all now probe_of d st') as [d'' st'']. simpl in *.
  case_decide as Hk; [|done]. subst k'. simpl. f_equal.
  rewrite (check_service_health_info now (probe_of k) s' st0 st). by rewrite Hc.
Qed.

Lemma perform_health_checks_get now probe_of sd k :
  get_service (_perform_health_checks now probe_of sd) k
  = (λ s, (_check_service_health now (probe_of k) s (stats sd)).1.1)
      <$> get_service sd k.
Proof.
  unfold _perform_health_checks, get_service.
  destruct (services sd) as [|e d] eqn:Hs; [by rewrite Hs|].
  pose proof (check_all_get now probe_of (e :: d) (stats sd) (stats sd) k) as H.
  destruct (check_all now probe_of (e :: d) (stats sd)) as [d' st']. done.
Qed.

Lemma check_service_health_id now probe s st :
  id (_check_service_health now probe s st).1.1 = id s.
Proof.
  unfold _check_service_health. case_decide; [done|].
  destruct probe as [e|[code rt]]; simpl.
  - by destruct (is_Exception e).
  - by case_decide.
Qed.

Lemma check_all_keys now probe_of (d : PyDict.dict ServiceInfo) st :
  PyDict.keys (check_all now probe_of d st).1 = PyDict.keys d.
Proof.
  unfold PyDict.keys. revert st.
  induction d as [|[k s] d IH]; intros st; simpl; [done|].
  destruct (_check_service_health now (probe_of k) s st) as [[info' st'] r].
  specialize (IH st'). destruct (check_all now probe_of d st') as [d'' st''].
  simpl in *. by f_equal.
Qed.

Lemma check_all_ids now probe_of (d : PyDict.dict ServiceInfo) st :
  (∀ k s, (k, s) ∈ d → id s = k) →
  ∀ k s, (k, s) ∈ (check_all now probe_of d st).1 → id s = k.
Proof.
  revert st. induction d as [|[k0 s0] d IH]; intros st Hids k s; simpl.
  { intros H. by apply elem_of_nil in H. }
  pose proof (check_service_health_id now (probe_of k0) s0 st) as Hid.
  destruct (_check_service_health now (probe_of k0) s0 st) as [[info' st'] r].
  specialize (IH st'). destruct (check_all now probe_of d st') as [d'' st''].
  simpl in *. intros Hin. apply elem_of_cons in Hin as [Heq|Hin].
  - injection Heq as -> ->. rewrite Hid. apply Hids, list_elem_of_here.
  - apply IH; [|done]. intros k' s' H'. by apply Hids, list_elem_of_further.
Qed.

(** A probe cycle keeps the table well formed. *)
Lemma perform_health_checks_wf now probe_of sd :
  registry_wf sd → registry_wf (_perform_health_checks now probe_of sd).
Proof.
  intros [Hwf Hids]. unfold _perform_health_checks.
  destruct (services sd) as [|e d] eqn:Hs; [by split; rewrite ?Hs|].
  pose proof (check_all_keys now probe_of (e :: d) (stats sd)) as Hk.
  pose proof (check_all_ids now probe_of (e :: d) (stats sd) Hids) as Hi.
  destruct (check_all now probe_of (e :: d) (stats sd)) as [d' st'].
  split; simpl in *.
  - unfold PyDict.wf. by rewrite Hk.
  - exact Hi.
Qed.

(** What one probe does to an instance that has a health endpoint. *)
Lemma check_service_health_outcomes now (probe : Probe) s st :
  health_endpoint s ≠ "" →
  let s' := (_check_service_health now probe s st).1.1 in
  (∀ rt, probe = Returns (200, rt) →
     health_status s' = "healthy" ∧ consecutive_failures s' = 0
     ∧ response_time_ms s' = Some rt ∧ last_health_check s' = Some now)
  ∧ (∀ code rt, probe = Returns (code, rt) → code ≠ 200 →
     health_status s' = "degraded"
     ∧ consecutive_failures s' = consecutive_failures s + 1
     ∧ last_health_check s' = Some now)
  ∧ (∀ e, probe = Raises e → is_Exception e = true →
     health_status s' = "unhealthy"
     ∧ consecutive_failures s' = consecutive_failures s + 1
     ∧ last_health_check s' = Some now).
Proof.
  intros Hep s'. unfold s', _check_service_health.
  rewrite decide_False by done.
  split; [|split].
  - intros rt ->. simpl. done.
  - intros code rt -> Hne. simpl. rewrite decide_False by done. done.
  - intros e -> He. simpl. rewrite He. done.
Qed.

(** C4. For every registered instance with a health endpoint, one probe
    cycle leaves under its id an instance with: on HTTP 200, status
    healthy, no consecutive failures and the measured latency; on any
    other status, status degraded and one more consecutive failure; on a
    transport error or timeout, status unhealthy and one more consecutive
    failure; and in each case the time of the cycle as last probe time.
    So the counter, which is never negative, is back at 0 exactly when
    the probe got a 200. *)
Theorem probe_cycle_outcomes now probe_of sd service_id s :
  get_service sd service_id = Some s →
  health_endpoint s ≠ "" →
  ∃ s', get_service (_perform_health_checks now probe_of sd) service_id = Some s'
    ∧ (∀ rt, probe_of service_id = Returns (200, rt) →
         health_status s' = "healthy" ∧ consecutive_failures s' = 0
         ∧ response_time_ms s' = Some rt ∧ last_health_check s' = Some now)
    ∧ (∀ code rt, probe_of service_id = Returns (code, rt) → code ≠ 200 →
         health_status s' = "degraded"
         ∧ consecutive_failures s' = consecutive_failures s + 1
         ∧ last_health_check s' = Some now)
    ∧ (∀ e, probe_of service_id = Raises e → is_Exception e = true →
         health_status s' = "unhealthy"
         ∧ consecutive_failures s' = consecutive_failures s + 1
         ∧ last_health_check s' = Some now)
    ∧ (0 ≤ consecutive_failures s →
       (∀ e, probe_of service_id = Raises e → is_Exception e = true) →
       (consecutive_failures s' = 0 ↔ ∃ rt, probe_of service_id = Returns (200, rt))).
Proof.
  intros Hget Hep. eexists. split.
  { rewrite perform_health_checks_get, Hget. reflexivity. }
  destruct (check_service_health_outcomes now (probe_of service_id) s (stats sd) Hep)
    as (H200 & Hother & Herr).
  split; [exact H200|]. split; [exact Hother|]. split; [exact Herr|].
  intros Hpos Hexc. split.
  - intros Hzero. destruct (probe_of service_id) as [e|[code rt]] eqn:Hp.
    + destruct (Herr e eq_refl (Hexc e eq_refl)) as (_ & Hcf & _). lia.
    + destruct (decide (code = 200)) as [->|Hne]; [by exists rt|].
      destruct (Hother code rt eq_refl Hne) as (_ & Hcf & _). lia.
  - intros [rt Hp]. by destruct (H200 rt Hp) as (_ & Hcf & _).
Qed.

Lemma probe_cycle_outcomes_witness :
  let data := mkData (Some "stt-1") "stt" "1.0" "10.0.0.5" 8001 None None None None None in
  let sd := (register_service init data "u1" 10).1 in
  let probe_of : string → Probe := λ _, Returns (503, (12 # 1)%Q) in
  ∃ s', get_service (_perform_health_checks 40 probe_of sd) "stt-1" = Some s'
    ∧ health_status s' = "degraded"
    ∧ consecutive_failures s' = 1
    ∧ last_health_check s' = Some 40.
Proof.
  intros data sd probe_of.
  destruct (probe_cycle_outcomes 40 probe_of sd "stt-1"
              (new_service_info "stt-1" data 10))
    as (s' & Hget & _ & Hother & _); [reflexivity | discriminate |].
  exists s'. split; [exact Hget|].
  exact (Hother 503 (12 # 1)%Q eq_refl ltac:(discriminate)).
Defined.

(** The order [min] uses on sort keys. *)
Lemma key_lt_Finite x y : key_lt (Finite x) (Finite y) = true ↔ (x < y)%Q.
Proof.
  simpl. rewrite negb_true_iff. split.
  - intros H. apply Qnot_le_lt. intros Hle. apply Qle_bool_iff in Hle. congruence.
  - intros H. destruct (Qle_bool y x) eqn:E; [|done].
    apply Qle_bool_iff in E. by apply Qlt_not_le in H.
Qed.

Lemma key_lt_trans a b c :
  key_lt a b = true → key_lt b c = true → key_lt a c = true.
Proof.
  destruct a as [x|], b as [y|], c as [z|]; try done.
  rewrite !key_lt_Finite. apply Qlt_trans.
Qed.

Lemma key_lt_cotrans a b c :
  key_lt a c = true → key_lt a b = true ∨ key_lt b c = true.
Proof.
  destruct a as [x|], b as [y|], c as [z|]; try done; try (by left); try (by right).
  rewrite !key_lt_Finite. intros Hxz.
  destruct (Qlt_le_dec x y) as [Hxy|Hyx]; [by left|].
  right. by eapply Qle_lt_trans.
Qed.

(** [min] returns an element of the list, and none has a smaller key. *)
Lemma min_from_elem {A : Type} (key : A → SortKey) best (l : list A) :
  min_from key best l ∈ best :: l.
Proof.
  revert best. induction l as [|x l IH]; intros best; simpl.
  - apply list_elem_of_here.
  - specialize (IH (if key_lt (key x) (key best) then x else best)).
    apply elem_of_cons in IH as [->|IH].
    + destruct (key_lt (key x) (key best)).
      * apply list_elem_of_further, list_elem_of_here.
      * apply list_elem_of_here.
    + by do 2 apply list_elem_of_further.
Qed.

Lemma min_from_least {A : Type} (key : A → SortKey) best (l : list A) x :
  x ∈ best :: l → key_lt (key x) (key (min_from key best l)) = false.
Proof.
  revert best x. induction l as [|y l IH]; intros best x; simpl.
  - intros H. apply list_elem_of_singleton in H as ->.
    destruct (key best) as [q|]; simpl; [|done].
    apply negb_false_iff, Qle_bool_iff, Qle_refl.
  - set (best' := if key_lt (key y) (key best) then y else best).
    intros Hx.
    assert (key_lt (key best) (key (min_from key best' l)) = false
            ∧ key_lt (key y) (key (min_from key best' l)) = false) as [Hb Hy].
    { pose proof (IH best' best' ltac:(apply list_elem_of_here)) as Hbest'.
      unfold best' in *. destruct (key_lt (key y) (key best)) eqn:Hlt.
      - split; [|done].
        destruct (key_lt (key best) (key (min_from key y l))) eqn:E; [|done].
        by rewrite (key_lt_trans _ _ _ Hlt E) in Hbest'.
      - split; [done|].
        destruct (key_lt (key y) (key (min_from key best l))) eqn:E; [|done].
        destruct (key_lt_cotrans _ (key best) _ E) as [H'|H']; congruence. }
    apply elem_of_cons in Hx as [->|Hx]; [done|].
    apply elem_of_cons in Hx as [->|Hx]; [done|].
    apply IH. by apply list_elem_of_further.
Qed.

Lemma has_all_tags_spec wanted s :
  has_all_tags wanted s = true ↔ ∀ tag, tag ∈ wanted → tag ∈ tags s.
Proof.
  unfold has_all_tags. rewrite forallb_forall. split.
  - intros H tag Hin. apply list_elem_of_In in Hin.
    specialize (H tag Hin). by apply bool_decide_eq_true in H.
  - intros H tag Hin. apply bool_decide_eq_true, H. by apply list_elem_of_In.
Qed.

(** The instances [discover_service] chooses from are the registered
    ones of the name that carry every requested tag. *)
Lemma candidates_spec sd nm wanted s :
  s ∈ candidates sd nm wanted ↔
  s ∈ get_all_services sd ∧ name s = nm
  ∧ ∀ tag, tag ∈ default [] wanted → tag ∈ tags s.
Proof.
  unfold candidates, get_services_by_name, get_all_services.
  destruct wanted as [[|t ts]|];
    rewrite ?list_elem_of_filter, ?has_all_tags_spec; simpl.
  - split; [|tauto]. intros [? ?]. repeat split; try done.
    intros tag H'. by apply elem_of_nil in H'.
  - tauto.
  - split; [|tauto]. intros [? ?]. repeat split; try done.
    intros tag H'. by apply elem_of_nil in H'.
Qed.

(** What [discover_service] returns, in terms of the sort key
    [response_time_ms or inf]: a healthy candidate with the least key
    when there is a healthy candidate, else the first candidate, and
    nothing only when there is no candidate. *)
Lemma discover_service_spec sd nm wanted :
  let cs := candidates sd nm wanted in
  let healthy := filter (λ s, health_status s = "healthy") cs in
  match discover_service sd nm wanted with
  | Some s =>
      s ∈ cs
      ∧ (healthy ≠ [] →
         health_status s = "healthy"
         ∧ ∀ s', s' ∈ healthy → key_le (sort_key s) (sort_key s') = true)
  | None => cs = []
  end.
Proof.
  intros cs healthy. unfold discover_service. fold cs. fold healthy.
  destruct healthy as [|h hs] eqn:Hh.
  - destruct cs as [|c cs']; [done|]. split; [apply list_elem_of_here|done].
  - pose proof (min_from_elem sort_key h hs) as Hin.
    rewrite <- Hh in Hin. unfold healthy in Hin.
    apply list_elem_of_filter in Hin as [Hhealthy Hin].
    split; [exact Hin|]. intros _. split; [exact Hhealthy|].
    intros s' Hs'. unfold key_le. rewrite min_from_least; [done | exact Hs'].
Qed.

(** When every healthy candidate has a recorded latency other than 0,
    the instance returned is a healthy candidate of lowest latency. *)
Lemma discover_service_lowest_latency sd nm wanted :
  let healthy :=
    filter (λ s, health_status s = "healthy") (candidates sd nm wanted) in
  healthy ≠ [] →
  (∀ s', s' ∈ healthy → ∃ q, response_time_ms s' = Some q ∧ ¬ (q == 0)%Q) →
  ∃ s q, discover_service sd nm wanted = Some s
         ∧ s ∈ healthy
         ∧ response_time_ms s = Some q
         ∧ ∀ s' q', s' ∈ healthy → response_time_ms s' = Some q' → (q <= q')%Q.
Proof.
  intros healthy Hne Hrec.
  pose proof (discover_service_spec sd nm wanted) as Hspec. simpl in Hspec.
  fold healthy in Hspec.
  destruct (discover_service sd nm wanted) as [s|].
  2:{ exfalso. apply Hne. unfold healthy. by rewrite Hspec. }
  destruct Hspec as [Hin Hmin]. destruct (Hmin Hne) as [Hh Hleast].
  assert (s ∈ healthy) as Hsh by (by apply list_elem_of_filter).
  assert (∀ x q, x ∈ healthy → response_time_ms x = Some q → sort_key x = Finite q)
    as Hkey.
  { intros x q Hx Hq. destruct (Hrec x Hx) as (q0 & Hq0 & Hnz).
    unfold sort_key. rewrite Hq. rewrite Hq in Hq0. injection Hq0 as <-.
    destruct (Qeq_bool q 0) eqn:E; [|done]. by apply Qeq_bool_iff in E. }
  destruct (Hrec s Hsh) as (q & Hq & _).
  exists s, q. repeat split; try done.
  intros s' q' Hs' Hq'. specialize (Hleast s' Hs').
  unfold key_le in Hleast. rewrite (Hkey s q), (Hkey s' q') in Hleast by done.
  apply negb_true_iff in Hleast.
  destruct (Qlt_le_dec q' q) as [Hlt|Hle]; [|done].
  apply key_lt_Finite in Hlt. congruence.
Qed.

(** C3 fails at a recorded latency of 0: of two healthy instances of the
    name, one at 0 ms and one at 10 ms, [discover_service] returns the
    one at 10 ms, because [0.0 or float('inf')] is infinity. *)
Theorem discover_service_skips_zero_latency :
  let fast :=
    mkInfo "a-1" "A" "1.0" "10.0.0.5" 8001 "http" "/health" [] [] [] 10
           (Some 40) "healthy" 0 (Some (0 # 1)%Q) in
  let slow :=
    mkInfo "a-2" "A" "1.0" "10.0.0.6" 8002 "http" "/health" [] [] [] 11
           (Some 40) "healthy" 0 (Some (10 # 1)%Q) in
  let sd := mkRegistry [("a-1", fast); ("a-2", slow)] (mkStats 2 2 0 2 0) in
  registry_wf sd
  ∧ candidates sd "A" None = [fast; slow]
  ∧ discover_service sd "A" None = Some slow
  ∧ (0 # 1 < 10 # 1)%Q.
Proof.
  intros fast slow sd. split; [|split; [|split]].
  - split.
    + unfold PyDict.wf. simpl. apply NoDup_cons. split.
      * intros H. apply list_elem_of_singleton in H. discriminate.
      * apply NoDup_singleton.
    + intros k s H. repeat (apply elem_of_cons in H as [H|H]; [by injection H as -> ->|]).
      by apply elem_of_nil in H.
  - reflexivity.
  - reflexivity.
  - reflexivity.
Qed.

End ServiceDiscoveryProofs.

(** ** Connection manager *)

Module WebSocketManagerProofs.
Import WebSocketManager.

Implicit Types (s : WebSocketManager) (env : Env) (cid : string).

(** C9. For every connection id that is not in the primary connection
    table, [send_message] returns [False]; it raises nothing, and leaves
    the manager and the message as they were. *)
Theorem send_message_unknown_connection env now s cid message message_type :
  cid ∉ dom (active_connections s) →
  send_message env now s cid message message_type = (s, message, false).
Proof.
  intros Hnot. apply not_elem_of_dom in Hnot.
  unfold send_message. by rewrite Hnot.
Qed.

Lemma send_message_unknown_connection_witness :
  let env := mkEnv (λ _, true) (λ _ _, true) (λ _, true) (λ _, "m-1") in
  let s := accepted 5 init (mkWebSocket (Some "10.0.0.9") None) "c-1" in
  send_message env 7 s "c-2" (reply "pong" []) None = (s, reply "pong" [], false).
Proof.
  intros env s.
  apply (send_message_unknown_connection env 7 s "c-2" (reply "pong" []) None).
  apply not_elem_of_dom. reflexivity.
Defined.

(** *** What every operation preserves *)

Section Preservation.

(** A property of the manager that [disconnect] preserves and that only
    depends on the tables, the indexes, and the user and session of each
    connection. *)
Variable Q : WebSocketManager → Prop.
Hypothesis Q_disconnect : ∀ env s cid, Q s → Q (disconnect env s cid).
Hypothesis Q_same : ∀ s s', same_tables s s' → Q s → Q s'.

Lemma same_tables_with_stats s st : same_tables s (with_stats s st).
Proof. by repeat split. Qed.

Lemma send_message_preserves env now s cid message message_type :
  Q s → Q (send_message env now s cid message message_type).1.1.
Proof.
  intros HQ. unfold send_message.
  destruct (active_connections s !! cid); [|done].
  destruct (send_text_ok env cid _); simpl.
  - eapply Q_same; [apply same_tables_with_stats|done].
  - by apply Q_disconnect.
Qed.

Lemma send_error_preserves env now s cid error_message :
  Q s → Q (send_error env now s cid error_message).1.
Proof.
  intros HQ. unfold send_error.
  pose proof (send_message_preserves env now s cid
                (mkMessage (Some "error") None None
                   [("error", error_message); ("timestamp", pretty now)]) None HQ) as H.
  by destruct (send_message _ _ _ _ _ _) as [[s' m] sent].
Qed.

Lemma run_handler_preserves env now s cid h text :
  Q s → Q (run_handler env now s cid h text).
Proof.
  intros HQ. destruct h; simpl.
  - by apply send_message_preserves.
  - by do 2 apply send_message_preserves.
  - destruct text as [[|c t]|].
    + by apply send_error_preserves.
    + by do 2 apply send_message_preserves.
    + by apply send_error_preserves.
Qed.

Lemma process_message_preserves env now s cid ty text :
  Q s → Q (_process_message env now s cid ty text).
Proof.
  intros HQ. unfold _process_message.
  destruct (message_handlers s !! ty).
  - by apply run_handler_preserves.
  - by apply send_error_preserves.
Qed.

Lemma handle_frame_preserves env now s cid f :
  Q s → Q (handle_frame env now s cid f).
Proof.
  intros HQ. destruct f as [| |ty text]; simpl.
  - by apply send_error_preserves.
  - by apply send_error_preserves.
  - apply process_message_preserves. eapply Q_same; [|exact HQ].
    repeat split; simpl; try done;
      (destruct (decide (cid = cid0)) as [->|Hne];
       [rewrite lookup_alter_eq; by destruct (connection_info s !! cid0)
       |by rewrite lookup_alter_ne]).
Qed.

Lemma handle_messages_preserves env now s cid frames :
  Q s → Q (_handle_messages env now s cid frames).
Proof.
  intros HQ. unfold _handle_messages. destruct (running s); [|done].
  revert s HQ. induction frames as [|f frames IH]; intros s HQ; simpl; [done|].
  apply IH. by apply handle_frame_preserves.
Qed.

Lemma handle_connection_preserves env now s websocket cid frames :
  Q s →
  (accept_ok env cid = true → Q (accepted now s websocket cid)) →
  Q (handle_connection env now s websocket cid frames).
Proof.
  intros HQ Hacc. unfold handle_connection.
  destruct (accept_ok env cid).
  - apply handle_messages_preserves, send_message_preserves. by apply Hacc.
  - by apply Q_disconnect.
Qed.

Lemma disconnect_all_preserves env s cids :
  Q s → Q (foldl (λ acc cid, disconnect env acc cid) s cids).
Proof.
  revert s. induction cids as [|cid cids IH]; intros s HQ; simpl; [done|].
  apply IH. by apply Q_disconnect.
Qed.

Lemma broadcast_message_preserves env now s message exclude_connections :
  Q s → Q (broadcast_message env now s message exclude_connections).1.
Proof.
  intros HQ. unfold broadcast_message.
  generalize (elements (dom (active_connections s))) as cids.
  generalize 0 as n. revert s message HQ.
  intros s message HQ n cids. revert s message n HQ.
  induction cids as [|cid cids IH]; intros s message n HQ; simpl; [done|].
  destruct (decide (cid ∈ exclude_connections)); [by apply IH|].
  pose proof (send_message_preserves env now s cid message None HQ) as H.
  destruct (send_message env now s cid message None) as [[s' m'] sent].
  by apply IH.
Qed.

Lemma idle_sweep_preserves env now s : Q s → Q (idle_sweep env now s).
Proof. intros HQ. by apply disconnect_all_preserves. Qed.

Lemma heartbeat_preserves env now s : Q s → Q (heartbeat env now s).
Proof.
  intros HQ. unfold heartbeat. case_decide; [done|].
  by apply broadcast_message_preserves.
Qed.

Lemma initialize_preserves s : Q s → Q (initialize s).
Proof. intros HQ. eapply Q_same; [|exact HQ]. by repeat split. Qed.

Lemma shutdown_preserves env s : Q s → Q (shutdown env s).
Proof.
  intros HQ. unfold shutdown. apply disconnect_all_preserves.
  eapply Q_same; [|exact HQ]. by repeat split.
Qed.

Lemma step_preserves env now op s :
  Q s →
  (∀ websocket cid frames,
     op = Accept websocket cid frames → accept_ok env cid = true →
     Q (accepted now s websocket cid)) →
  Q (step env now op s).
Proof.
  intros HQ Hacc. destruct op; simpl.
  - by apply initialize_preserves.
  - apply handle_connection_preserves; [done|]. by eapply Hacc.
  - by apply send_message_preserves.
  - by apply broadcast_message_preserves.
  - by apply Q_disconnect.
  - by apply idle_sweep_preserves.
  - by apply heartbeat_preserves.
  - by apply shutdown_preserves.
Qed.

End Preservation.

(** *** The tables after [disconnect] *)

Lemma disconnect_active env s cid :
  active_connections (disconnect env s cid) = delete cid (active_connections s).
Proof.
  unfold disconnect. destruct (connection_info s !! cid); simpl;
    destruct (active_connections s !! cid) eqn:E; try done;
    by rewrite delete_id.
Qed.

Lemma disconnect_info env s cid :
  connection_info (disconnect env s cid) = delete cid (connection_info s).
Proof.
  unfold disconnect. destruct (connection_info s !! cid) eqn:E; simpl; [done|].
  by rewrite delete_id.
Qed.

Lemma disconnect_users env s cid :
  user_connections (disconnect env s cid)
  = match connection_info s !! cid with
    | Some conn_info => discard_from (user_id conn_info) cid (user_connections s)
    | None => user_connections s
    end.
Proof. unfold disconnect. by destruct (connection_info s !! cid). Qed.

Lemma disconnect_sessions env s cid :
  session_connections (disconnect env s cid)
  = match connection_info s !! cid with
    | Some conn_info =>
        discard_from (session_id conn_info) cid (session_connections s)
    | None => session_connections s
    end.
Proof. unfold disconnect. by destruct (connection_info s !! cid). Qed.

(** *** The indexes of a manager started from [init] *)

Lemma discard_from_empty key cid : discard_from key cid ∅ = ∅.
Proof.
  unfold discard_from. destruct key as [k|]; [|done].
  case_decide; [done|]. by rewrite lookup_empty.
Qed.

Lemma disconnect_indexes_empty env s cid :
  user_connections s = ∅ ∧ session_connections s = ∅ →
  user_connections (disconnect env s cid) = ∅
  ∧ session_connections (disconnect env s cid) = ∅.
Proof.
  intros [Hu Hs]. rewrite disconnect_users, disconnect_sessions, Hu, Hs.
  destruct (connection_info s !! cid) as [ci|]; [|done].
  by rewrite !discard_from_empty.
Qed.

(** No operation of the manager puts anything in the two indexes. *)
Lemma run_indexes_empty ops s :
  user_connections s = ∅ ∧ session_connections s = ∅ →
  user_connections (run ops s) = ∅ ∧ session_connections (run ops s) = ∅.
Proof.
  unfold run. revert s.
  induction ops as [|[[env now] op] ops IH]; intros s Hs; simpl; [done|].
  apply IH.
  apply (step_preserves
           (λ s, user_connections s = ∅ ∧ session_connections s = ∅)).
  - apply disconnect_indexes_empty.
  - intros s1 s2 (_ & Hu & Hse & _) [H1 H2]. by rewrite Hu, Hse.
  - done.
  - intros websocket cid frames _ _. done.
Qed.

(** In every state the manager reaches from [init] the two indexes are
    empty, so every connection id in them is in the primary table. *)
Lemma run_indexes_in_table ops :
  indexes_in_table (run ops init)
  ∧ ∀ env now op, indexes_in_table (step env now op (run ops init)).
Proof.
  assert (∀ l, indexes_in_table (run l init)) as H.
  { intros l. destruct (run_indexes_empty l init) as [Hu Hs]; [done|].
    split; intros key ids cid Hk; rewrite ?Hu, ?Hs in Hk;
      by rewrite lookup_empty in Hk. }
  split; [apply H|]. intros env now op.
  specialize (H (ops ++ [(env, now, op)])).
  unfold run in H. rewrite foldl_app in H. exact H.
Qed.

(** *** Indexes that are in use *)

Lemma indexes_agree_in_table s : indexes_agree s → indexes_in_table s.
Proof.
  intros [Hu Hs]. split; intros key ids cid Hk Hin.
  - by destruct (Hu key ids cid Hk Hin) as (_ & ? & _).
  - by destruct (Hs key ids cid Hk Hin) as (_ & ? & _).
Qed.

(** What [discard_from] leaves under a key. *)
Lemma discard_from_lookup key cid (index : gmap string (gset string)) k ids' :
  discard_from key cid index !! k = Some ids' →
  ∃ ids, index !! k = Some ids
         ∧ ((key = Some k ∧ k ≠ "" ∧ ids' = ids ∖ {[cid]})
            ∨ ((key ≠ Some k ∨ k = "") ∧ ids' = ids)).
Proof.
  unfold discard_from. destruct key as [k0|]; [|by eauto 6].
  case_decide as Hk0; [subst; intros H; exists ids'; split; [done|]; right;
                       split; [|done]; destruct (decide (k = "")); [by right|];
                       left; congruence|].
  destruct (index !! k0) as [ids0|] eqn:H0.
  2:{ intros H. exists ids'. split; [done|]. right. split; [|done].
      left. intros [= ->]. congruence. }
  case_decide as He.
  - destruct (decide (k = k0)) as [->|Hne].
    + by rewrite lookup_delete_eq.
    + rewrite lookup_delete_ne by done. intros H. exists ids'. split; [done|].
      right. split; [|done]. left. congruence.
  - destruct (decide (k = k0)) as [->|Hne].
    + rewrite lookup_insert_eq. intros [= <-]. exists ids0. split; [done|].
      by left.
    + rewrite lookup_insert_ne by done. intros H. exists ids'. split; [done|].
      right. split; [|done]. left. congruence.
Qed.

Lemma disconnect_index_agrees env s cid field index :
  index_agrees field index s →
  index_agrees field
    (match connection_info s !! cid with
     | Some conn_info => discard_from (field conn_info) cid index
     | None => index
     end)
    (disconnect env s cid).
Proof.
  intros Hagree key ids' cid' Hk Hin.
  assert (∃ ids, index !! key = Some ids ∧ cid' ∈ ids ∧ cid' ≠ cid)
    as (ids & Hk0 & Hin0 & Hne).
  { destruct (connection_info s !! cid) as [ci|] eqn:Hci.
    - apply discard_from_lookup in Hk as (ids & Hk0 & [(Hf & _ & ->)|(Hf & ->)]).
      + exists ids. split; [done|]. set_solver.
      + exists ids. split; [done|]. split; [done|]. intros ->.
        destruct (Hagree key ids cid Hk0 Hin) as (Hkey & _ & ci' & Hci' & Hfield).
        rewrite Hci in Hci'. injection Hci' as <-. destruct Hf; congruence.
    - exists ids'. split; [done|]. split; [done|]. intros ->.
      destruct (Hagree key ids' cid Hk Hin) as (_ & _ & ci' & Hci' & _). congruence. }
  destruct (Hagree key ids cid' Hk0 Hin0) as (Hkey & Hact & ci' & Hci' & Hfield).
  split; [done|]. rewrite disconnect_active, disconnect_info. split.
  - rewrite dom_delete_L. set_solver.
  - exists ci'. split; [|done]. by rewrite lookup_delete_ne.
Qed.

Lemma disconnect_indexes_agree env s cid :
  indexes_agree s → indexes_agree (disconnect env s cid).
Proof.
  intros [Hu Hs].
  pose proof (disconnect_index_agrees env s cid user_id _ Hu) as Hu'.
  pose proof (disconnect_index_agrees env s cid session_id _ Hs) as Hs'.
  split.
  - intros key ids c Hk. apply Hu'. by rewrite <- (disconnect_users env).
  - intros key ids c Hk. apply Hs'. by rewrite <- (disconnect_sessions env).
Qed.

Lemma same_tables_indexes_agree s s' :
  same_tables s s' → indexes_agree s → indexes_agree s'.
Proof.
  intros (Ha & Hu & Hse & Hinfo) [HU HS]. split.
  - intros key ids cid Hk Hin. rewrite Hu in Hk.
    destruct (HU key ids cid Hk Hin) as (? & ? & ci & Hci & Hf).
    split; [done|]. split; [by rewrite Ha|].
    destruct (Hinfo cid) as [H1 _]. rewrite Hci in H1. simpl in H1.
    destruct (connection_info s' !! cid) as [ci'|]; [|done].
    exists ci'. split; [done|]. simpl in H1. congruence.
  - intros key ids cid Hk Hin. rewrite Hse in Hk.
    destruct (HS key ids cid Hk Hin) as (? & ? & ci & Hci & Hf).
    split; [done|]. split; [by rewrite Ha|].
    destruct (Hinfo cid) as [_ H2]. rewrite Hci in H2. simpl in H2.
    destruct (connection_info s' !! cid) as [ci'|]; [|done].
    exists ci'. split; [done|]. simpl in H2. congruence.
Qed.

Lemma accepted_indexes_agree now s websocket cid :
  connection_info s !! cid = None →
  indexes_agree s → indexes_agree (accepted now s websocket cid).
Proof.
  intros Hfresh [HU HS].
  split; intros key ids c Hk Hin; simpl in *.
  - destruct (HU key ids c Hk Hin) as (? & ? & ci & Hci & Hf).
    split; [done|]. split; [rewrite dom_insert_L; set_solver|].
    exists ci. split; [|done]. rewrite lookup_insert_ne; [done|]. congruence.
  - destruct (HS key ids c Hk Hin) as (? & ? & ci & Hci & Hf).
    split; [done|]. split; [rewrite dom_insert_L; set_solver|].
    exists ci. split; [|done]. rewrite lookup_insert_ne; [done|]. congruence.
Qed.

(** C7 (amended). Every operation of the connection manager (accept
    with a connection id that is not in use, the receive loop, send,
    broadcast, disconnect, idle sweep, heartbeat, shutdown) preserves
    the invariant in the form in which [disconnect] maintains it: when
    every connection id in a set [user_connections[u]] or
    [session_connections[s]] is in the primary connection table and has
    a connection record that names [u] as its user (or [s] as its
    session), [u] and [s] being non-empty strings, the same holds after
    the operation; so every connection
    id in an index set is in the primary table afterwards. The converse
    is not asked for. *)
Theorem indexes_within_connection_table env now op s :
  indexes_agree s → fresh_id op s →
  indexes_agree (step env now op s) ∧ indexes_in_table (step env now op s).
Proof.
  intros Hagree Hfresh.
  assert (indexes_agree (step env now op s)) as H.
  { apply (step_preserves indexes_agree); try done.
    - apply disconnect_indexes_agree.
    - apply same_tables_indexes_agree.
    - intros websocket cid frames -> _. by apply accepted_indexes_agree. }
  split; [done|]. by apply indexes_agree_in_table.
Qed.

(** Two connections of one user, one of them disconnected: the other
    stays listed under the user and is in the primary table. *)
Lemma indexes_within_connection_table_witness :
  let env := mkEnv (λ _, true) (λ _ _, true) (λ _, true) (λ _, "m-1") in
  let ws := mkWebSocket (Some "10.0.0.9") None in
  let info1 := mkConnectionInfo "c-1" "10.0.0.9" "unknown" 5 5 0 (Some "u-1") None in
  let info2 := mkConnectionInfo "c-2" "10.0.0.9" "unknown" 6 6 0 (Some "u-1") None in
  let s :=
    mkManager (<["c-1" := ws]> {["c-2" := ws]})
              (<["c-1" := info1]> {["c-2" := info2]})
              {["u-1" := {["c-1"; "c-2"]}]} ∅ ∅ true (mkStats 2 2 0 0 0 0) in
  (indexes_agree (step env 9 (Disconnect "c-1") s)
   ∧ indexes_in_table (step env 9 (Disconnect "c-1") s))
  ∧ user_connections (step env 9 (Disconnect "c-1") s) !! "u-1" = Some {["c-2"]}
  ∧ active_connections (step env 9 (Disconnect "c-1") s) !! "c-1" = None.
Proof.
  intros env ws info1 info2 s. split; [|split].
  - apply (indexes_within_connection_table env 9 (Disconnect "c-1") s).
    + split; intros key ids cid Hk Hin; simpl in Hk.
      * apply lookup_singleton_Some in Hk as [<- <-].
        split; [done|]. simpl. rewrite dom_insert_L, dom_singleton_L.
        apply elem_of_union in Hin as [Hin|Hin]; apply elem_of_singleton in Hin as ->.
        -- split; [set_solver|]. exists info1. split; [|done].
           by rewrite lookup_insert_eq.
        -- split; [set_solver|]. exists info2. split; [|done].
           rewrite lookup_insert_ne by done. by rewrite lookup_singleton_eq.
      * by rewrite lookup_empty in Hk.
    + exact I.
  - vm_compute. reflexivity.
  - vm_compute. reflexivity.
Defined.

(** C7 as the spec states it fails: the membership invariant alone is
    not preserved. A connection listed under a user that its record does
    not name is in the primary table, so the invariant holds; [disconnect]
    removes it from the primary table and cleans only the index sets its
    record names, so it stays listed under the user. *)
Lemma indexes_in_table_not_preserved_by_disconnect :
  let env := mkEnv (λ _, true) (λ _ _, true) (λ _, true) (λ _, "m-1") in
  let info := mkConnectionInfo "c-1" "10.0.0.9" "unknown" 5 5 0 None None in
  let s :=
    mkManager {["c-1" := mkWebSocket (Some "10.0.0.9") None]} {["c-1" := info]}
              {["u-1" := {["c-1"]}]} ∅ ∅ true (mkStats 1 1 0 0 0 0) in
  indexes_in_table s
  ∧ user_connections (step env 9 (Disconnect "c-1") s) !! "u-1" = Some {["c-1"]}
  ∧ active_connections (step env 9 (Disconnect "c-1") s) !! "c-1" = None
  ∧ ¬ indexes_in_table (step env 9 (Disconnect "c-1") s).
Proof.
  intros env info s.
  assert (user_connections (step env 9 (Disconnect "c-1") s) !! "u-1"
          = Some {["c-1"]}) as Hu by (vm_compute; reflexivity).
  assert (active_connections (step env 9 (Disconnect "c-1") s) !! "c-1" = None)
    as Ha by (vm_compute; reflexivity).
  split; [|split; [done|split; [done|]]].
  - split; intros key ids cid Hk Hin; simpl in Hk.
    + apply lookup_singleton_Some in Hk as [<- <-].
      apply elem_of_singleton in Hin as ->.
      simpl. rewrite dom_singleton_L. set_solver.
    + by rewrite lookup_empty in Hk.
  - intros [Hin _].
    specialize (Hin "u-1" {["c-1"]} "c-1" Hu ltac:(set_solver)).
    apply elem_of_dom in Hin as [x Hx]. congruence.
Qed.

(** A connection listed under its user leaves the index when it is
    disconnected. *)
Example disconnect_cleans_index :
  let env := mkEnv (λ _, true) (λ _ _, true) (λ _, true) (λ _, "m-1") in
  let info := mkConnectionInfo "c-1" "10.0.0.9" "unknown" 5 5 0 (Some "u-1") None in
  let s :=
    mkManager {["c-1" := mkWebSocket (Some "10.0.0.9") None]} {["c-1" := info]}
              {["u-1" := {["c-1"]}]} ∅ ∅ true (mkStats 1 1 0 0 0 0) in
  indexes_agree s
  ∧ user_connections (step env 9 (Disconnect "c-1") s) = ∅
  ∧ active_connections (step env 9 (Disconnect "c-1") s) = ∅.
Proof.
  intros env info s. split; [|split].
  - split; intros key ids cid Hk Hin; simpl in Hk.
    + apply lookup_singleton_Some in Hk as [<- <-].
      apply elem_of_singleton in Hin as ->.
      split; [done|]. split; [simpl; rewrite dom_singleton_L; set_solver|].
      exists info. split; [|done]. simpl. by rewrite lookup_singleton_eq.
    + by rewrite lookup_empty in Hk.
  - vm_compute. reflexivity.
  - vm_compute. reflexivity.
Qed.

End WebSocketManagerProofs.

(** ** Circuit breaker manager: administration and summaries *)

Module CircuitBreakerAdminProofs.
Import Exceptions CircuitBreaker CircuitBreakerAdmin.

Implicit Types (m : CircuitBreakerManager) (cb : BaseCircuitBreaker)
  (st : CircuitBreakerStats) (sts : gmap string CircuitBreakerStats).

Lemma keeps_refl a : keeps a a.
Proof. by repeat split. Qed.

Lemma keeps_trans a b c : keeps a b → keeps b c → keeps a c.
Proof.
  intros (?&?&?&?&?&?&?) (?&?&?&?&?&?&?). repeat split; congruence.
Qed.

(** The listeners of the breaker of [nm] touch the record of [nm] only,
    and there only the state and the two times. *)
Lemma notify_own now nm ts sts :
  ∃ f, notify now (own_listeners nm) ts sts = alter f nm sts
       ∧ ∀ x, keeps x (f x).
Proof.
  unfold notify. revert sts. induction ts as [|t ts IH]; intros sts; cbn [foldl].
  { exists (λ x, x). split; [|intros x; apply keeps_refl].
    symmetry. by apply alter_id. }
  assert (∃ g, foldl (λ acc' l, run_listener now t l acc') sts (own_listeners nm)
               = alter g nm sts ∧ ∀ x, keeps x (g x)) as (g & -> & Hg).
  { destruct t; simpl; eexists; (split; [reflexivity|]); intros x; by repeat split. }
  destruct (IH (alter g nm sts)) as (f & -> & Hf).
  exists (f ∘ g). split; [by rewrite alter_alter_eq|].
  intros x. simpl. eapply keeps_trans; [apply Hg | apply Hf].
Qed.

Lemma get_or_create_lookup m nm ft rt now m1 cb :
  get_or_create_circuit_breaker m nm ft rt now = (m1, cb) →
  circuit_breakers m1 !! nm = Some cb
  ∧ default_config m1 = default_config m
  ∧ ∀ k, k ≠ nm →
      circuit_breakers m1 !! k = circuit_breakers m !! k
      ∧ stats m1 !! k = stats m !! k.
Proof.
  unfold get_or_create_circuit_breaker.
  destruct (circuit_breakers m !! nm) as [cb0|] eqn:Hcb; intros [= <- <-].
  - done.
  - simpl. rewrite lookup_insert_eq. repeat split; try done;
      by rewrite lookup_insert_ne.
Qed.

Lemma get_or_create_listeners m nm ft rt now m1 cb :
  listeners_own m →
  get_or_create_circuit_breaker m nm ft rt now = (m1, cb) →
  listeners_own m1.
Proof.
  unfold get_or_create_circuit_breaker. intros Hown.
  destruct (circuit_breakers m !! nm) as [cb0|] eqn:Hcb; intros [= <- <-].
  - done.
  - intros k cb'. simpl. destruct (decide (k = nm)) as [->|Hne].
    + rewrite lookup_insert_eq. by intros [= <-].
    + rewrite lookup_insert_ne by done. apply Hown.
Qed.

Lemma get_or_create_consistent m nm ft rt now m1 cb :
  consistent m →
  get_or_create_circuit_breaker m nm ft rt now = (m1, cb) →
  consistent m1.
Proof.
  intros (Hdom & Hown & Hst & Hth) Hgc.
  pose proof (get_or_create_listeners _ _ _ _ _ _ _ Hown Hgc) as Hown1.
  revert Hgc. unfold get_or_create_circuit_breaker.
  destruct (circuit_breakers m !! nm) as [cb0|] eqn:Hcb; intros [= <- <-].
  { done. }
  split; [|split; [done|split]]; simpl.
  - by rewrite !dom_insert_L, Hdom.
  - intros k st. destruct (decide (k = nm)) as [->|Hne].
    + rewrite lookup_insert_eq. intros [= <-]. simpl.
      unfold counters_ok. simpl. repeat split; lia.
    + rewrite lookup_insert_ne by done. apply Hst.
  - intros k cb' st. destruct (decide (k = nm)) as [->|Hne].
    + rewrite !lookup_insert_eq. by intros [= <-] [= <-].
    + rewrite !lookup_insert_ne by done. apply Hth.
Qed.

Section Calls.
Context {W R : Type}.
Implicit Types (func : W → W * outcome R).

(** The third-party breaker keeps its configuration and its listeners
    through a call. *)
Lemma breaker_call_config now cb func w cb' ts w' r :
  breaker_call now cb func w = (cb', ts, w', r) →
  _listeners cb' = _listeners cb
  ∧ _failure_threshold cb' = _failure_threshold cb
  ∧ _recovery_timeout cb' = _recovery_timeout cb.
Proof.
  unfold breaker_call, recover.
  destruct cb as [ft rt n lf s ls]. simpl.
  destruct s; simpl; try destruct lf as [t|]; simpl; try case_decide; simpl;
    try destruct (func w) as [w1 [e|v]]; simpl;
    try destruct (is_Exception e); simpl; try case_decide; simpl;
    intros [= <- <- <- <-]; done.
Qed.

Lemma breaker_call_returns now cb func w w' v :
  current_state now cb ≠ "open" →
  func w = (w', Returns v) →
  ∃ cb' ts, breaker_call now cb func w = (cb', ts, w', Returns v).
Proof.
  intros Hno Hf. apply CircuitBreakerProofs.current_state_not_open in Hno.
  unfold breaker_call. destruct (recover now cb) as [b1 ev]. simpl in Hno.
  destruct (_state b1); [|done|]; rewrite Hf; unfold Returns; simpl; eauto.
Qed.

(** What a call does to the two tables: the breaker of [nm] is written
    back with its configuration, and the record of [nm], if there is
    one, counts the call and at most one success or failure. *)
Lemma call_tables m nm func w ft rt now m1 cb :
  get_or_create_circuit_breaker m nm ft rt now = (m1, cb) →
  _listeners cb = own_listeners nm →
  ∃ cb' f,
    circuit_breakers (call_with_circuit_breaker m nm func w ft rt now).1.1
      = <[nm := cb']> (circuit_breakers m1)
    ∧ stats (call_with_circuit_breaker m nm func w ft rt now).1.1
      = alter f nm (stats m1)
    ∧ default_config (call_with_circuit_breaker m nm func w ft rt now).1.1
      = default_config m1
    ∧ _listeners cb' = _listeners cb
    ∧ _failure_threshold cb' = _failure_threshold cb
    ∧ _recovery_timeout cb' = _recovery_timeout cb
    ∧ ∀ x, name (f x) = name x
           ∧ recovery_timeout (f x) = recovery_timeout x
           ∧ failure_threshold (f x) = failure_threshold x
           ∧ created_at (f x) = created_at x
           ∧ total_calls (f x) = total_calls x + 1
           ∧ failure_count x ≤ failure_count (f x)
           ∧ success_count x ≤ success_count (f x)
           ∧ failure_count (f x) + success_count (f x)
             ≤ failure_count x + success_count x + 1.
Proof.
  intros Hgc Hls.
  destruct (get_or_create_lookup _ _ _ _ _ _ _ Hgc) as (Hcb & _ & _).
  unfold call_with_circuit_breaker. rewrite Hgc.
  case_decide as Hopen.
  { exists cb, (λ st, set_total_calls (total_calls st + 1) st). simpl.
    rewrite insert_id by done. repeat split; simpl; lia. }
  destruct (breaker_call now cb func w) as [[[cb' ts] w'] r] eqn:Hcall.
  destruct (breaker_call_config _ _ _ _ _ _ _ _ Hcall) as (Hl' & Hft' & Hrt').
  rewrite Hls. simpl.
  destruct (notify_own now nm ts
              (alter (λ st, set_total_calls (total_calls st + 1) st) nm (stats m1)))
    as (g & Hg & Hkeeps).
  rewrite Hg. rewrite ?alter_alter_eq.
  assert (∀ h, (∀ y, name (h y) = name y
                     ∧ recovery_timeout (h y) = recovery_timeout y
                     ∧ failure_threshold (h y) = failure_threshold y
                     ∧ created_at (h y) = created_at y
                     ∧ total_calls (h y) = total_calls y
                     ∧ failure_count y ≤ failure_count (h y)
                     ∧ success_count y ≤ success_count (h y)
                     ∧ failure_count (h y) + success_count (h y)
                       ≤ failure_count y + success_count y + 1) →
            ∀ x, let fx := h (g (set_total_calls (total_calls x + 1) x)) in
                 name fx = name x
                 ∧ recovery_timeout fx = recovery_timeout x
                 ∧ failure_threshold fx = failure_threshold x
                 ∧ created_at fx = created_at x
                 ∧ total_calls fx = total_calls x + 1
                 ∧ failure_count x ≤ failure_count fx
                 ∧ success_count x ≤ success_count fx
                 ∧ failure_count fx + success_count fx
                   ≤ failure_count x + success_count x + 1) as Hcomb.
  { intros h Hh x fx. subst fx.
    destruct (Hh (g (set_total_calls (total_calls x + 1) x)))
      as (h1 & h2 & h3 & h4 & h5 & h6 & h7 & h8).
    destruct (Hkeeps (set_total_calls (total_calls x + 1) x))
      as (k1 & k2 & k3 & k4 & k5 & k6 & k7).
    simpl in *. rewrite h1, h2, h3, h4, h5, k1, k4, k5, k6, k7.
    repeat split; lia. }
  destruct r as [e|v].
  - destruct e as [s| | |]; simpl.
    + exists cb', (λ x, g (set_total_calls (total_calls x + 1) x)). simpl.
      repeat split; try done; try congruence; apply (Hcomb (λ y, y)); intros y; repeat split; lia.
    + exists cb',
        (λ x, (λ st, set_last_failure_time (Some now)
                       (set_failure_count (failure_count st + 1) st))
                (g (set_total_calls (total_calls x + 1) x))).
      simpl. rewrite ?alter_alter_eq.
      repeat split; try done; try congruence;
        apply (Hcomb (λ st, set_last_failure_time (Some now)
                              (set_failure_count (failure_count st + 1) st)));
        intros y; simpl; repeat split; lia.
    + exists cb',
        (λ x, (λ st, set_last_failure_time (Some now)
                       (set_failure_count (failure_count st + 1) st))
                (g (set_total_calls (total_calls x + 1) x))).
      simpl. rewrite ?alter_alter_eq.
      repeat split; try done; try congruence;
        apply (Hcomb (λ st, set_last_failure_time (Some now)
                              (set_failure_count (failure_count st + 1) st)));
        intros y; simpl; repeat split; lia.
    + exists cb', (λ x, g (set_total_calls (total_calls x + 1) x)). simpl.
      repeat split; try done; try congruence; apply (Hcomb (λ y, y)); intros y; repeat split; lia.
  - exists cb',
      (λ x, (λ st, set_last_success_time (Some now)
                     (set_success_count (success_count st + 1) st))
              (g (set_total_calls (total_calls x + 1) x))).
    simpl. rewrite ?alter_alter_eq.
    repeat split; try done; try congruence;
      apply (Hcomb (λ st, set_last_success_time (Some now)
                            (set_success_count (success_count st + 1) st)));
      intros y; simpl; repeat split; lia.
Qed.

(** X1. A call on a breaker that is not open whose operation returns:
    the call returns the same value and leaves the world as the
    operation left it; the record of the breaker counts one more call
    and one more success, takes the time of the call as last success,
    and keeps its failure count (a success does not reset it). *)
Theorem call_success_counts m nm func w ft rt now m1 cb st w' v :
  get_or_create_circuit_breaker m nm ft rt now = (m1, cb) →
  stats m1 !! nm = Some st →
  current_state now cb ≠ "open" →
  func w = (w', Returns v) →
  ∃ m' st',
    call_with_circuit_breaker m nm func w ft rt now = (m', w', Returns v)
    ∧ stats m' !! nm = Some st'
    ∧ total_calls st' = total_calls st + 1
    ∧ success_count st' = success_count st + 1
    ∧ last_success_time st' = Some now
    ∧ failure_count st' = failure_count st.
Proof.
  intros Hgc Hst Hno Hf.
  destruct (breaker_call_returns now cb func w w' v Hno Hf) as (cb' & ts & Hcall).
  unfold call_with_circuit_breaker. rewrite Hgc.
  rewrite decide_False by done. rewrite Hcall.
  rewrite (alter_alt_Some _ _ _ _ Hst). simpl.
  destruct (CircuitBreakerProofs.notify_counters now (_listeners cb) ts
              (<[nm := set_total_calls (total_calls st + 1) st]> (stats m1)) nm
              (set_total_calls (total_calls st + 1) st)) as (st1 & H1 & Hc1).
  { apply lookup_insert_eq. }
  destruct Hc1 as (_ & Hf1 & Hs1 & Ht1). simpl in *.
  eexists _, _. split; [reflexivity|]. simpl.
  rewrite lookup_alter_eq, H1. simpl. split; [reflexivity|]. simpl.
  by rewrite Hf1, Hs1, Ht1.
Qed.

(** X2. Breakers are independent: a call under one name leaves the
    breaker and the record of every other name as they were, whatever
    the operation does and whether or not the breaker trips. *)
Theorem call_isolated m nm other func w ft rt now :
  listeners_own m →
  other ≠ nm →
  circuit_breakers (call_with_circuit_breaker m nm func w ft rt now).1.1 !! other
    = circuit_breakers m !! other
  ∧ stats (call_with_circuit_breaker m nm func w ft rt now).1.1 !! other
    = stats m !! other.
Proof.
  intros Hown Hne.
  destruct (get_or_create_circuit_breaker m nm ft rt now) as [m1 cb] eqn:Hgc.
  pose proof (get_or_create_listeners _ _ _ _ _ _ _ Hown Hgc) as Hown1.
  destruct (get_or_create_lookup _ _ _ _ _ _ _ Hgc) as (Hcb & _ & Hother).
  destruct (call_tables m nm func w ft rt now m1 cb Hgc (Hown1 _ _ Hcb))
    as (cb' & f & -> & -> & _).
  rewrite lookup_insert_ne, lookup_alter_ne by done.
  by apply Hother.
Qed.

Lemma call_consistent m nm func w ft rt now :
  consistent m →
  consistent (call_with_circuit_breaker m nm func w ft rt now).1.1.
Proof.
  intros Hm.
  destruct (get_or_create_circuit_breaker m nm ft rt now) as [m1 cb] eqn:Hgc.
  pose proof (get_or_create_consistent _ _ _ _ _ _ _ Hm Hgc)
    as (Hdom & Hown & Hst & Hth).
  destruct (get_or_create_lookup _ _ _ _ _ _ _ Hgc) as (Hcb & _ & _).
  destruct (call_tables m nm func w ft rt now m1 cb Hgc (Hown _ _ Hcb))
    as (cb' & f & Hcbs & Hsts & _ & Hl & Hft & Hrt & Hf).
  unfold consistent, listeners_own. rewrite Hcbs, Hsts.
  split; [|split; [|split]].
  - rewrite dom_alter_L, <- Hdom. apply dom_insert_lookup_L. by eexists.
  - intros k c. destruct (decide (k = nm)) as [->|Hne].
    + rewrite lookup_insert_eq. intros [= <-]. rewrite Hl. by apply Hown.
    + rewrite lookup_insert_ne by done. apply Hown.
  - intros k st. destruct (decide (k = nm)) as [->|Hne].
    + rewrite lookup_alter_eq. destruct (stats m1 !! nm) as [x|] eqn:Hx; [|done].
      simpl. intros [= <-]. destruct (Hst _ _ Hx) as (Hn & H0 & H1 & H2).
      destruct (Hf x) as (f1 & _ & _ & _ & f5 & f6 & f7 & f8).
      split; [congruence|]. unfold counters_ok. lia.
    + rewrite lookup_alter_ne by done. apply Hst.
  - intros k c st. destruct (decide (k = nm)) as [->|Hne].
    + rewrite lookup_insert_eq, lookup_alter_eq. intros [= <-].
      destruct (stats m1 !! nm) as [x|] eqn:Hx; [|done].
      simpl. intros [= <-]. destruct (Hth _ _ _ Hcb Hx) as [H1 H2].
      destruct (Hf x) as (_ & f2 & f3 & _). split; congruence.
    + rewrite lookup_insert_ne, lookup_alter_ne by done. apply Hth.
Qed.

(** X4. A reset re-admits calls at once: after [reset_circuit_breaker]
    on a known name (which returns [True]), the next call runs the
    operation and returns its value, whatever state the breaker was in
    and however recently it failed. *)
Theorem reset_then_call m nm cb func w w' v ft rt now :
  circuit_breakers m !! nm = Some cb →
  func w = (w', Returns v) →
  (reset_circuit_breaker m nm).2 = true
  ∧ ∃ m', call_with_circuit_breaker (reset_circuit_breaker m nm).1 nm
            func w ft rt now = (m', w', Returns v).
Proof.
  intros Hcb Hf. unfold reset_circuit_breaker. rewrite Hcb. simpl.
  split; [done|].
  unfold call_with_circuit_breaker, get_or_create_circuit_breaker. simpl.
  rewrite lookup_insert_eq.
  rewrite decide_False.
  2:{ rewrite CircuitBreakerProofs.current_state_open. simpl. by intros [? _]. }
  unfold breaker_call, recover. simpl. rewrite Hf. unfold Returns. simpl.
  by eexists.
Qed.

End Calls.

Lemma reset_consistent m nm :
  consistent m → consistent (reset_circuit_breaker m nm).1.
Proof.
  intros (Hdom & Hown & Hst & Hth). unfold reset_circuit_breaker.
  destruct (circuit_breakers m !! nm) as [cb|] eqn:Hcb; [|done].
  unfold consistent, listeners_own. simpl. split; [|split; [|split]].
  - rewrite dom_alter_L, <- Hdom. apply dom_insert_lookup_L. by eexists.
  - intros k c. destruct (decide (k = nm)) as [->|Hne].
    + rewrite lookup_insert_eq. intros [= <-]. simpl. by apply Hown.
    + rewrite lookup_insert_ne by done. apply Hown.
  - intros k st. destruct (decide (k = nm)) as [->|Hne].
    + rewrite lookup_alter_eq. destruct (stats m !! nm) as [x|] eqn:Hx; [|done].
      simpl. intros [= <-]. destruct (Hst _ _ Hx) as (Hn & H0 & H1 & H2).
      split; [done|]. unfold counters_ok. simpl. lia.
    + rewrite lookup_alter_ne by done. apply Hst.
  - intros k c st. destruct (decide (k = nm)) as [->|Hne].
    + rewrite lookup_insert_eq, lookup_alter_eq. intros [= <-].
      destruct (stats m !! nm) as [x|] eqn:Hx; [|done].
      simpl. intros [= <-]. simpl. by apply (Hth nm).
    + rewrite lookup_insert_ne, lookup_alter_ne by done. apply Hth.
Qed.

Lemma remove_consistent m nm :
  consistent m → consistent (remove_circuit_breaker m nm).1.
Proof.
  intros (Hdom & Hown & Hst & Hth).
  unfold consistent, listeners_own, remove_circuit_breaker. simpl.
  split; [|split; [|split]].
  - by rewrite !dom_delete_L, Hdom.
  - intros k c. rewrite lookup_delete_Some. intros [_ H]. by apply Hown.
  - intros k st. rewrite lookup_delete_Some. intros [_ H]. by apply Hst.
  - intros k c st. rewrite !lookup_delete_Some. intros [_ H1] [_ H2].
    by apply (Hth k).
Qed.

Lemma init_consistent settings : consistent (init settings).
Proof.
  unfold consistent, listeners_own, init. simpl.
  split; [by rewrite !dom_empty_L|]. repeat split; intros *; by rewrite ?lookup_empty.
Qed.

Lemma step_consistent {W R : Type} now (op : Op W R) mw :
  consistent mw.1 → consistent (step now op mw).1.
Proof.
  intros H. destruct op; simpl.
  - by apply call_consistent.
  - by apply reset_consistent.
  - by apply remove_consistent.
Qed.

(** X3. In every run of calls, resets and removals from a fresh manager,
    the two tables hold the same names, every breaker notifies the
    record of its own name, every record carries its name and the
    thresholds of its breaker, and in every record the counts are not
    negative and failures plus successes do not exceed the calls made. *)
Theorem run_consistent {W R : Type} settings (ops : list (Z * Op W R)) (w : W) :
  consistent (run ops (init settings, w)).1.
Proof.
  assert (∀ mw : CircuitBreakerManager * W,
            consistent mw.1 → consistent (run ops mw).1) as Hrun.
  { unfold run. induction ops as [|[now op] ops IH]; intros mw Hmw; simpl; [done|].
    apply IH. by apply step_consistent. }
  apply Hrun. apply init_consistent.
Qed.

(** X5. Removal forgets the breaker: afterwards the name has no state,
    no record and no breaker, a second removal returns [False], and the
    next call under the name starts a new record, created at the time
    of that call with the thresholds given to that call, that has
    counted that one call only. *)
Theorem remove_then_call {W R : Type} m nm (func : W → W * outcome R) w ft rt now :
  let m0 := (remove_circuit_breaker m nm).1 in
  get_circuit_breaker_state m0 nm = None
  ∧ get_circuit_breaker_stats m0 nm = None
  ∧ circuit_breakers m0 !! nm = None
  ∧ (remove_circuit_breaker m0 nm).2 = false
  ∧ ∃ st,
      get_circuit_breaker_stats
        (call_with_circuit_breaker m0 nm func w ft rt now).1.1 nm = Some st
      ∧ total_calls st = 1
      ∧ created_at st = now
      ∧ failure_threshold st = int_or ft (cfg_failure_threshold (default_config m))
      ∧ recovery_timeout st = int_or rt (cfg_recovery_timeout (default_config m))
      ∧ 0 ≤ failure_count st ∧ 0 ≤ success_count st
      ∧ failure_count st + success_count st ≤ 1.
Proof.
  intros m0.
  assert (circuit_breakers m0 !! nm = None) as Hnone by apply lookup_delete_eq.
  assert (stats m0 !! nm = None) as Hsn by apply lookup_delete_eq.
  unfold get_circuit_breaker_state, get_circuit_breaker_stats.
  split; [by rewrite Hsn|]. split; [done|]. split; [done|].
  split; [unfold remove_circuit_breaker; by rewrite Hnone, Hsn|].
  destruct (get_or_create_circuit_breaker m0 nm ft rt now) as [m1 cb] eqn:Hgc.
  assert (_listeners cb = own_listeners nm
          ∧ stats m1 !! nm =
              Some (mkStats nm CLOSED 0 0 0 None None
                      (int_or rt (cfg_recovery_timeout (default_config m)))
                      (int_or ft (cfg_failure_threshold (default_config m)))
                      3 30 now)) as [Hls Hst].
  { revert Hgc. unfold get_or_create_circuit_breaker. rewrite Hnone.
    intros [= <- <-]. simpl. by rewrite lookup_insert_eq. }
  destruct (call_tables m0 nm func w ft rt now m1 cb Hgc Hls)
    as (cb' & f & _ & -> & _ & _ & _ & _ & Hf).
  rewrite lookup_alter_eq, Hst. simpl. eexists. split; [reflexivity|].
  destruct (Hf (mkStats nm CLOSED 0 0 0 None None
                  (int_or rt (cfg_recovery_timeout (default_config m)))
                  (int_or ft (cfg_failure_threshold (default_config m)))
                  3 30 now))
    as (_ & f2 & f3 & f4 & f5 & f6 & f7 & f8).
  simpl in *. repeat split; try done; lia.
Qed.

Lemma count_state_total sts :
  count_state CLOSED sts + count_state OPEN sts + count_state HALF_OPEN sts
  = Z.of_nat (size sts).
Proof.
  unfold count_state. induction sts as [|k x sts Hk _ IH] using map_first_key_ind.
  { rewrite !map_filter_empty, !map_size_empty. done. }
  rewrite map_size_insert_None by done.
  assert (∀ s, size (filter (λ kv : string * CircuitBreakerStats, state kv.2 = s)
                            (<[k := x]> sts))
               = ((if decide (state x = s) then 1 else 0)
                  + size (filter (λ kv : string * CircuitBreakerStats, state kv.2 = s)
                                 sts))%nat) as Hsz.
  { intros s. rewrite map_filter_insert. simpl. case_decide.
    - rewrite map_size_insert_None; [done|].
      rewrite map_lookup_filter, Hk. done.
    - by rewrite delete_id. }
  rewrite !Hsz. destruct (state x); simpl; lia.
Qed.

Lemma count_state_zero s sts :
  count_state s sts = 0 ↔ ∀ nm st, sts !! nm = Some st → state st ≠ s.
Proof.
  unfold count_state. rewrite <- Nat2Z.inj_0, Nat2Z.inj_iff, map_size_empty_iff.
  rewrite map_empty. setoid_rewrite map_lookup_filter_None. simpl. split.
  - intros H nm st Hst. destruct (H nm) as [Hn|Hn]; [congruence|]. by apply Hn.
  - intros H nm. destruct (sts !! nm) as [st|] eqn:Hst; [|by left].
    right. intros x [= <-]. by apply (H nm).
Qed.

Lemma count_state_nonneg s sts : 0 ≤ count_state s sts.
Proof. unfold count_state. lia. Qed.

(** X6. The health summary agrees with the records: the closed count,
    which the code obtains by subtraction, is the number of records
    whose state is closed, and the three counts add up to the total;
    the open breakers listed are exactly the names whose recorded state
    is open, and there are as many as the open count; the status is
    healthy exactly when no record is open (in particular when there is
    no record at all), and unhealthy exactly when there is a record and
    every record is open. *)
Theorem health_summary_counts m :
  let h := get_health_summary m in
  closed h = count_state CLOSED (stats m)
  ∧ closed h + open h + half_open h = total_circuit_breakers h
  ∧ (∀ nm, nm ∈ open_breakers h ↔ get_circuit_breaker_state m nm = Some OPEN)
  ∧ open h = Z.of_nat (size (open_breakers h))
  ∧ (health_status h = "healthy"
     ↔ ∀ nm, get_circuit_breaker_state m nm ≠ Some OPEN)
  ∧ (health_status h = "unhealthy"
     ↔ stats m ≠ ∅ ∧ ∀ nm st, stats m !! nm = Some st → state st = OPEN).
Proof.
  intros h. subst h. unfold get_health_summary. simpl.
  pose proof (count_state_total (stats m)) as Htot.
  pose proof (count_state_nonneg CLOSED (stats m)) as Hc.
  pose proof (count_state_nonneg OPEN (stats m)) as Ho.
  pose proof (count_state_nonneg HALF_OPEN (stats m)) as Hh.
  assert (∀ nm, get_circuit_breaker_state m nm = Some OPEN
                ↔ ∃ st, stats m !! nm = Some st ∧ state st = OPEN) as Hget.
  { intros nm. unfold get_circuit_breaker_state.
    destruct (stats m !! nm) as [st|]; simpl.
    - split; [intros [= H]; eauto | intros (x & [= <-] & H); by rewrite H].
    - split; [done | by intros (x & ? & _)]. }
  split; [lia|]. split; [lia|]. split; [|split; [|split]].
  - intros nm. rewrite elem_of_dom. split.
    + intros [st Hst]. apply map_lookup_filter_Some in Hst as [Hst Hs].
      apply Hget. eauto.
    + intros H. apply Hget in H as (st & Hst & Hs). exists st.
      by apply map_lookup_filter_Some.
  - unfold count_state. by rewrite size_dom.
  - case_decide as H0.
    + split; [|done]. intros _ nm. rewrite Hget. intros (st & Hst & Hs).
      by apply (proj1 (count_state_zero OPEN (stats m)) H0 nm st).
    + split.
      * by repeat case_decide.
      * intros Hno. exfalso. apply H0. apply count_state_zero.
        intros nm st Hst Hs. apply (Hno nm). apply Hget. eauto.
  - case_decide as H0; [|case_decide as H1].
    + split; [done|]. intros [Hne Hall]. exfalso.
      apply map_choose in Hne as (nm & st & Hst).
      apply (proj1 (count_state_zero OPEN (stats m)) H0 nm st Hst).
      by apply (Hall nm).
    + split; [done|]. intros [Hne Hall]. exfalso.
      assert (count_state CLOSED (stats m) = 0) as Hc0.
      { apply count_state_zero. intros nm st Hst. by rewrite (Hall _ _ Hst). }
      assert (count_state HALF_OPEN (stats m) = 0) as Hh0.
      { apply count_state_zero. intros nm st Hst. by rewrite (Hall _ _ Hst). }
      lia.
    + split; [|done]. intros _.
      assert (count_state CLOSED (stats m) = 0) as Hc0 by lia.
      assert (count_state HALF_OPEN (stats m) = 0) as Hh0 by lia.
      split.
      * intros Hem. rewrite Hem in H0. apply H0. unfold count_state.
        by rewrite map_filter_empty, map_size_empty.
      * intros nm st Hst.
        pose proof (proj1 (count_state_zero CLOSED (stats m)) Hc0 nm st Hst).
        pose proof (proj1 (count_state_zero HALF_OPEN (stats m)) Hh0 nm st Hst).
        by destruct (state st).
Qed.

Lemma call_success_counts_witness :
  let ok : nat → nat * outcome Z := λ n, (S n, Returns 7) in
  ∃ m' st',
    call_with_circuit_breaker (init default_settings) "stt" ok 0%nat None None 5
      = (m', 1%nat, Returns 7)
    ∧ stats m' !! "stt" = Some st'
    ∧ total_calls st' = 1
    ∧ success_count st' = 1
    ∧ last_success_time st' = Some 5
    ∧ failure_count st' = 0.
Proof.
  intros ok.
  apply (call_success_counts (init default_settings) "stt" ok 0%nat None None 5
           (get_or_create_circuit_breaker (init default_settings) "stt" None None 5).1
           (get_or_create_circuit_breaker (init default_settings) "stt" None None 5).2
           (mkStats "stt" CLOSED 0 0 0 None None 60 5 3 30 5) 1%nat 7);
    [reflexivity | reflexivity | vm_compute; congruence | reflexivity].
Defined.

Lemma call_isolated_witness :
  let failing : nat → nat * outcome Z :=
    λ n, (S n, Raises (PyException "TimeoutError" "timed out")) in
  let m :=
    mkManager (<["tts" := managed "tts" 1 60 1 (Some 0) OPEN]> ∅)
              (<["tts" := mkStats "tts" OPEN 1 0 1 (Some 0) None 60 1 3 30 0]> ∅)
              (circuit_breaker_config default_settings) in
  circuit_breakers (call_with_circuit_breaker m "stt" failing 1%nat (Some 1) None 1).1.1
    !! "tts" = Some (managed "tts" 1 60 1 (Some 0) OPEN)
  ∧ stats (call_with_circuit_breaker m "stt" failing 1%nat (Some 1) None 1).1.1
    !! "tts" = Some (mkStats "tts" OPEN 1 0 1 (Some 0) None 60 1 3 30 0).
Proof.
  intros failing m.
  apply (call_isolated m "stt" "tts" failing 1%nat (Some 1) None 1).
  - intros nm cb. simpl. destruct (decide (nm = "tts")) as [->|Hne].
    + rewrite lookup_insert_eq. by intros [= <-].
    + rewrite lookup_insert_ne by done. by rewrite lookup_empty.
  - done.
Defined.

Lemma reset_then_call_witness :
  let failing : nat → nat * outcome Z :=
    λ n, (S n, Raises (PyException "TimeoutError" "timed out")) in
  let ok : nat → nat * outcome Z := λ n, (S n, Returns 7) in
  let m := (call_with_circuit_breaker (init default_settings) "stt" failing 0%nat
              (Some 1) (Some 60) 0).1.1 in
  get_circuit_breaker_state m "stt" = Some OPEN
  ∧ (reset_circuit_breaker m "stt").2 = true
  ∧ ∃ m', call_with_circuit_breaker (reset_circuit_breaker m "stt").1 "stt"
            ok 1%nat None None 1 = (m', 2%nat, Returns 7).
Proof.
  intros failing ok m. split; [by vm_compute|].
  apply (reset_then_call m "stt"
           (managed "stt" 1 60 1 (Some 0) OPEN) ok 1%nat 2%nat 7 None None 1);
    [by vm_compute | reflexivity].
Defined.

End CircuitBreakerAdminProofs.
(** ** Cache service: keys *)

Module CacheKeysProofs.
Import Exceptions Cache CacheProofs.

Implicit Types (c : CacheService) (r : Redis).

Lemma answers_ready settings c :
  CacheKeys.answers c → backend_ready settings (CACHE_TTL settings) c.
Proof.
  unfold CacheKeys.answers, backend_ready.
  destruct (connected c), (redis c); simpl; done || lia.
Qed.

Lemma exists_peek now key c :
  (CacheKeys.exists_ now key c).2 = bool_decide (is_Some (peek now key c)).
Proof.
  unfold CacheKeys.exists_, CacheKeys.redis_exists, peek.
  destruct (connected c), (redis c) as [r|]; simpl;
    try (destruct (in_memory_cache c !! key) as [e|]; simpl; [|done];
         unfold bool_decide; repeat case_decide; simpl; try done;
         match goal with H : ¬ is_Some _ |- _ => destruct H; by eexists
                       | H : is_Some None |- _ => by destruct H end).
  destruct (available r); simpl; [|done].
  by destruct (redis_lookup now key r).
Qed.

Lemma delete_peek now t key c :
  now ≤ t → peek t key (CacheKeys.delete now key c).1 = None.
Proof.
  intros Hle.
  unfold CacheKeys.delete, CacheKeys.redis_delete, peek, redis_lookup.
  destruct (connected c) eqn:Hc, (redis c) as [r|] eqn:Hr; simpl.
  2-4: destruct (in_memory_cache c !! key) as [e|] eqn:He; simpl;
       rewrite ?Hc, ?Hr, ?He, ?lookup_delete_eq; done.
  destruct (available r) eqn:Ha; simpl; [|by rewrite Ha].
  destruct (db r !! key) as [e|] eqn:He; simpl; [|by rewrite Ha, He].
  destruct (r_expires_at e) as [x|] eqn:Hx; simpl.
  - case_decide; simpl.
    + by rewrite lookup_delete_eq.
    + rewrite Ha, He. simpl. rewrite Hx. by rewrite decide_False by lia.
  - by rewrite lookup_delete_eq.
Qed.

Lemma delete_frame now t key k c :
  k ≠ key → peek t k (CacheKeys.delete now key c).1 = peek t k c.
Proof.
  intros Hne.
  unfold CacheKeys.delete, CacheKeys.redis_delete, peek, redis_lookup.
  destruct (connected c) eqn:Hc, (redis c) as [r|] eqn:Hr; simpl.
  2-4: destruct (in_memory_cache c !! key) as [e|] eqn:He; simpl;
       rewrite ?Hc, ?Hr, ?He, ?lookup_delete_ne by done; done.
  destruct (available r) eqn:Ha; simpl; [|by rewrite Ha].
  destruct (db r !! key) as [e|] eqn:He; simpl; [|by rewrite Ha].
  destruct (r_expires_at e) as [x|] eqn:Hx; simpl.
  - case_decide; simpl.
    + by rewrite lookup_delete_ne.
    + by rewrite Ha.
  - by rewrite lookup_delete_ne.
Qed.

Lemma delete_result now key c :
  (CacheKeys.delete now key c).2 = true →
  match connected c, redis c with
  | true, Some r => is_Some (peek now key c)
  | _, _ => is_Some (in_memory_cache c !! key)
  end.
Proof.
  unfold CacheKeys.delete, CacheKeys.redis_delete, peek.
  destruct (connected c) eqn:Hc, (redis c) as [r|] eqn:Hr; simpl.
  2-4: destruct (in_memory_cache c !! key) as [e|] eqn:He; simpl; by eauto.
  destruct (available r) eqn:Ha; simpl; [|done].
  destruct (redis_lookup now key r); simpl; by eauto.
Qed.

(** X9. After [delete] the key reads as absent from that moment on and
    the other keys read as before; [delete] reports [True] whenever
    [exists] did, and deleting again reports [False]. *)
Theorem delete_then_get now t key c :
  now ≤ t →
  (get t key (CacheKeys.delete now key c).1).2 = None
  ∧ (∀ k, k ≠ key →
       (get t k (CacheKeys.delete now key c).1).2 = (get t k c).2)
  ∧ ((CacheKeys.exists_ now key c).2 = true →
       (CacheKeys.delete now key c).2 = true)
  ∧ (CacheKeys.delete now key (CacheKeys.delete now key c).1).2 = false.
Proof.
  intros Hle. split; [|split; [|split]].
  - rewrite get_peek. by apply delete_peek.
  - intros k Hne. rewrite !get_peek. by apply delete_frame.
  - rewrite exists_peek.
    unfold CacheKeys.delete, CacheKeys.redis_delete, peek.
    destruct (connected c), (redis c) as [r|]; simpl.
    2-4: destruct (in_memory_cache c !! key) as [e|]; simpl; done.
    destruct (available r); simpl; [|done].
    destruct (redis_lookup now key r); simpl; done.
  - destruct (CacheKeys.delete now key (CacheKeys.delete now key c).1).2 eqn:Hd;
      [|done].
    apply delete_result in Hd.
    pose proof (delete_peek now now key c ltac:(lia)) as Hp.
    assert (connected (CacheKeys.delete now key c).1 = connected c
            ∧ (is_Some (redis (CacheKeys.delete now key c).1) ↔ is_Some (redis c))
            ∧ (connected c && bool_decide (is_Some (redis c)) = false →
               in_memory_cache (CacheKeys.delete now key c).1 !! key = None))
      as (Hc & Hr & Hm).
    { unfold CacheKeys.delete, CacheKeys.redis_delete.
      destruct (connected c) eqn:Hc, (redis c) as [r|] eqn:Hr; simpl.
      2-4: destruct (in_memory_cache c !! key) as [e|] eqn:He; simpl;
           rewrite ?Hc, ?Hr, ?lookup_delete_eq; done.
      destruct (available r); simpl; [|by split; [|split]].
      destruct (redis_lookup now key r); simpl; by split; [|split]. }
    rewrite Hc in Hd.
    destruct (connected c) eqn:Hcc.
    + destruct (redis (CacheKeys.delete now key c).1) as [r'|] eqn:Hr'.
      * rewrite Hp in Hd. by destruct Hd.
      * destruct (redis c) as [r|] eqn:Hrc.
        { destruct (proj2 Hr) as [? [=]]. by eexists. }
        rewrite Hm in Hd by done. by destruct Hd.
    + assert (in_memory_cache (CacheKeys.delete now key c).1 !! key = None) as Hn.
      { apply Hm. done. }
      destruct (redis (CacheKeys.delete now key c).1);
        rewrite Hn in Hd; by destruct Hd.
Qed.

Lemma delete_then_get_witness :
  let c := (set default_settings 100 "k" 7 (Some 30) init).1 in
  (get 101 "k" c).2 = Some 7
  ∧ (get 101 "k" (CacheKeys.delete 101 "k" c).1).2 = None
  ∧ (CacheKeys.delete 101 "k" c).2 = true.
Proof.
  intros c.
  destruct (delete_then_get 101 101 "k" c ltac:(lia)) as (H1 & _ & H3 & _).
  split; [reflexivity|]. split; [exact H1|]. apply H3. reflexivity.
Defined.

Lemma on_fallback_answers c : CacheKeys.on_fallback c → CacheKeys.answers c.
Proof.
  unfold CacheKeys.on_fallback, CacheKeys.answers.
  by destruct (connected c), (redis c).
Qed.

(** X11. On the in-memory fallback [increment] rewrites the entry with
    the default time-to-live: whatever expiry the key had, afterwards
    it reads as the old value (0 when absent or expired) plus the
    amount, from the moment of the increment until [CACHE_TTL] seconds
    later, and as absent from then on. *)
Theorem increment_fallback_expiry settings now t key a c :
  CacheKeys.on_fallback c →
  0 < CACHE_TTL settings →
  now ≤ t →
  (get t key (increment settings now key a c).1).2
  = if decide (t < now + CACHE_TTL settings)
    then Some (default 0 (get now key c).2 + a) else None.
Proof.
  intros Hfb Httl Hle. rewrite !get_peek.
  rewrite increment_fallback by done. simpl.
  rewrite (set_peek settings (CACHE_TTL settings)); simpl; try done.
  apply get_ready. apply answers_ready. by apply on_fallback_answers.
Qed.

Lemma increment_fallback_expiry_witness :
  let c := (set default_settings 100 "k" 1 (Some 60) init).1 in
  (get 160 "k" c).2 = None
  ∧ (get 160 "k" (increment default_settings 110 "k" 1 c).1).2 = Some 2.
Proof.
  intros c. split; [reflexivity|].
  apply (increment_fallback_expiry default_settings 110 160 "k" 1 c);
    [reflexivity | reflexivity | lia].
Defined.

(** X10. On a store that answers, [increment] returns the value the key
    read as (0 when it was absent or expired) plus the amount, and a
    [get] at that moment returns the same number. *)
Theorem increment_counts settings now key a c :
  CacheKeys.answers c →
  0 < CACHE_TTL settings →
  (increment settings now key a c).2 = Some (default 0 (get now key c).2 + a)
  ∧ (get now key (increment settings now key a c).1).2
    = Some (default 0 (get now key c).2 + a).
Proof.
  intros Ha Httl. rewrite !get_peek.
  destruct (backend_cases c) as [Hfb|(r & Hc & Hre)].
  - rewrite increment_fallback by done. simpl. split; [done|].
    rewrite (set_peek settings (CACHE_TTL settings)); simpl; try done.
    + by rewrite decide_True by lia.
    + apply get_ready. by apply answers_ready.
  - rewrite (increment_redis _ _ _ _ _ r) by done.
    revert Ha. unfold CacheKeys.answers, redis_incrby, peek.
    rewrite Hc, Hre. intros Ha. rewrite Ha. unfold redis_lookup.
    destruct (db r !! key) as [e|] eqn:He; simpl.
    + destruct (r_expires_at e) as [x|] eqn:Hx; simpl.
      * case_decide; simpl; rewrite lookup_insert_eq; simpl; rewrite ?Hx;
          rewrite ?decide_True by done; done.
      * rewrite lookup_insert_eq. simpl. by rewrite Hx.
    + by rewrite lookup_insert_eq.
Qed.

Lemma increment_counts_witness :
  (increment default_settings 100 "hits" 3 init).2 = Some 3
  ∧ (get 100 "hits" (increment default_settings 100 "hits" 3 init).1).2 = Some 3.
Proof.
  apply (increment_counts default_settings 100 "hits" 3 init);
    [exact I | reflexivity].
Defined.

End CacheKeysProofs.
(** ** Decimal strings *)

Module DecimalProofs.
Import PyStr Decimal.

Lemma app_nil_l (s : string) : "" +:+ s = s.
Proof. reflexivity. Qed.

Lemma app_cons c (s t : string) : String c s +:+ t = String c (s +:+ t).
Proof. reflexivity. Qed.

Ltac str_simpl := repeat (progress (rewrite ?app_cons, ?app_nil_l; simpl)).

Lemma app_nil_r (s : string) : s +:+ "" = s.
Proof. induction s as [|c s IH]; str_simpl; [done|]. by f_equal. Qed.

Lemma app_assoc (a b c : string) : (a +:+ b) +:+ c = a +:+ (b +:+ c).
Proof. induction a as [|x a IH]; str_simpl; [done|]. by f_equal. Qed.

Lemma all_chars_app p a b :
  all_chars p (a +:+ b) = all_chars p a && all_chars p b.
Proof.
  induction a as [|x a IH]; str_simpl; [done|]. rewrite IH. by rewrite andb_assoc.
Qed.

Lemma all_chars_impl (p q : ascii → bool) s :
  (∀ c, p c = true → q c = true) → all_chars p s = true → all_chars q s = true.
Proof.
  intros Hpq. induction s as [|c s IH]; simpl; [done|].
  intros [Hc Hs]%andb_true_iff. rewrite (Hpq _ Hc). simpl. auto.
Qed.

Lemma digits_value_app acc a b :
  digits_value acc (a +:+ b) = digits_value (digits_value acc a) b.
Proof. revert acc. induction a as [|x a IH]; intros acc; str_simpl; [done|]. apply IH. Qed.

(** The digits that [str] writes. *)
Lemma pretty_N_char_digit x :
  (x < 10)%N → digit_of (pretty_N_char x) = Some (Z.of_N x).
Proof.
  intros H.
  assert (x = 0 ∨ x = 1 ∨ x = 2 ∨ x = 3 ∨ x = 4 ∨ x = 5 ∨ x = 6 ∨ x = 7
          ∨ x = 8 ∨ x = 9)%N as Hx by lia.
  repeat (destruct Hx as [->|Hx]; [reflexivity|]). by subst.
Qed.

Lemma pretty_N_go_app x s : pretty_N_go x s = pretty_N_go x "" +:+ s.
Proof.
  revert s. induction (N.lt_wf_0 x) as [x _ IH]; intros s.
  assert (x = 0 ∨ 0 < x)%N as [->|Hpos] by lia.
  { by rewrite !pretty_N_go_0. }
  rewrite (pretty_N_go_step x s), (pretty_N_go_step x "") by done.
  assert (x `div` 10 < x)%N as Hlt by (by apply N.div_lt).
  set (d := pretty_N_char (x `mod` 10)%N).
  rewrite (IH _ Hlt (String d s)), (IH _ Hlt (String d "")).
  by rewrite app_assoc.
Qed.

Lemma pretty_N_go_digits x :
  all_chars is_digit (pretty_N_go x "") = true
  ∧ digits_value 0 (pretty_N_go x "") = Z.of_N x.
Proof.
  induction (N.lt_wf_0 x) as [x _ IH].
  assert (x = 0 ∨ 0 < x)%N as [->|Hpos] by lia.
  { by rewrite !pretty_N_go_0. }
  rewrite pretty_N_go_step by done. rewrite pretty_N_go_app.
  destruct (IH (x `div` 10)%N) as [Ha Hv]; [by apply N.div_lt|].
  pose proof (pretty_N_char_digit (x `mod` 10)%N) as Hd.
  rewrite all_chars_app, digits_value_app, Ha, Hv. simpl.
  unfold is_digit. rewrite Hd by (apply N.mod_lt; lia). simpl.
  split; [done|].
  rewrite (N.div_mod x 10) at 3 by lia. lia.
Qed.

Lemma pretty_N_go_last x :
  (0 < x)%N →
  pretty_N_go x "" =
    pretty_N_go (x `div` 10)%N "" +:+ String (pretty_N_char (x `mod` 10)%N) "".
Proof. intros H. rewrite pretty_N_go_step by done. apply pretty_N_go_app. Qed.

Lemma digits_all_digits acc b s :
  all_chars is_digit s = true →
  s ≠ "" ∨ b = true →
  digits acc b s = Some (digits_value acc s).
Proof.
  revert acc b. induction s as [|c s IH]; intros acc b Ha Hne; simpl.
  { destruct Hne as [?| ->]; done. }
  simpl in Ha. apply andb_true_iff in Ha as [Hc Hs].
  unfold is_digit in Hc. destruct (digit_of c) as [d|] eqn:Hd; [|done].
  rewrite decide_False.
  2:{ intros ->. done. }
  simpl. apply IH; [done | by right].
Qed.

Lemma is_digit_not_space c : is_digit c = true → is_space c = false.
Proof.
  unfold is_digit, digit_of, is_space. simpl.
  case_bool_decide as H1; [|done]. intros _.
  apply bool_decide_eq_false. lia.
Qed.

Lemma rev_app_last s0 l acc :
  String.rev_app (s0 +:+ String l "") acc = String l (String.rev_app s0 acc).
Proof. revert acc. induction s0 as [|c s0 IH]; intros acc; str_simpl; [done|]. apply IH. Qed.

Lemma rev_app_rev_app s a b :
  String.rev_app (String.rev_app s a) b = String.rev_app a (s +:+ b).
Proof.
  revert a b. induction s as [|c s IH]; intros a b; str_simpl; [done|].
  by rewrite IH.
Qed.

(** [strip] leaves a string alone that neither starts nor ends with
    white space. *)
Lemma strip_id c s0 l :
  is_space c = false → is_space l = false →
  strip (String c s0 +:+ String l "") = String c s0 +:+ String l "".
Proof.
  intros Hc Hl. unfold strip. str_simpl. rewrite Hc.
  unfold String.rev at 2. str_simpl.
  rewrite rev_app_last. simpl. rewrite Hl.
  unfold String.rev. simpl. rewrite rev_app_rev_app. by str_simpl.
Qed.

Lemma strip_single c : is_space c = false → strip (String c "") = String c "".
Proof. intros Hc. unfold strip. simpl. rewrite Hc. simpl. by rewrite Hc. Qed.

(** A digit string, or a sign and a digit string, has the form
    [strip] leaves alone. *)
Lemma strip_digits c s :
  is_space c = false →
  all_chars is_digit s = true →
  strip (String c s) = String c s.
Proof.
  intros Hc Hs.
  assert (s = "" ∨ ∃ s0 l, s = s0 +:+ String l "" ∧ is_digit l = true)
    as [->|(s0 & l & -> & Hl)].
  { clear Hc. induction s as [|x s IH]; [by left|]. right.
    simpl in Hs. apply andb_true_iff in Hs as [Hx Hs].
    destruct (IH Hs) as [->|(s0 & l & -> & Hl)].
    - exists "", x. done.
    - exists (String x s0), l. done. }
  - by apply strip_single.
  - apply (strip_id c s0 l); [done|]. by apply is_digit_not_space.
Qed.

Lemma int_unsigned c s :
  is_digit c = true →
  strip (String c s) = String c s →
  int (String c s) = digits 0 false (String c s).
Proof.
  intros Hd Hs. unfold int. rewrite Hs.
  destruct c as [[] [] [] [] [] [] [] []]; try done.
Qed.

(** [int(str(n)) == n]. *)
Lemma int_pretty (n : Z) : int (pretty n) = Some n.
Proof.
  assert (∀ p, ∃ c s, pretty_N_go (N.pos p) "" = String c s
                      ∧ is_digit c = true ∧ all_chars is_digit s = true
                      ∧ digits_value 0 (String c s) = Z.pos p) as Hpos.
  { intros p. destruct (pretty_N_go_digits (N.pos p)) as [Ha Hv].
    destruct (pretty_N_go (N.pos p) "") as [|c s] eqn:Hp.
    - simpl in Hv. lia.
    - simpl in Ha. apply andb_true_iff in Ha as [Hc Hs].
      exists c, s. repeat split; done. }
  destruct n as [|p|p].
  - reflexivity.
  - destruct (Hpos p) as (c & s & Hp & Hc & Hs & Hv).
    unfold pretty, pretty_Z, pretty, pretty_positive, pretty, pretty_N.
    rewrite decide_False by done. rewrite Hp.
    rewrite int_unsigned.
    + rewrite digits_all_digits; [by rewrite Hv| |by left].
      simpl. by rewrite Hc, Hs.
    + done.
    + apply strip_digits; [by apply is_digit_not_space | done].
  - destruct (Hpos p) as (c & s & Hp & Hc & Hs & Hv).
    unfold pretty, pretty_Z, pretty, pretty_positive, pretty, pretty_N.
    rewrite decide_False by done. rewrite Hp.
    unfold int. change ("-" +:+ String c s) with (String "-" (String c s)).
    rewrite strip_digits; [|done|by simpl; rewrite Hc, Hs].
    rewrite digits_all_digits; [|by simpl; rewrite Hc, Hs|by left].
    simpl. simpl in Hv. rewrite Hv. done.
Qed.

(** The characters [str] writes: digits, and a minus sign in front of a
    negative number. *)
Lemma pretty_chars (n : Z) :
  all_chars (λ c, is_digit c || bool_decide (c = "-"%char)) (pretty n) = true.
Proof.
  assert (∀ p, all_chars (λ c, is_digit c || bool_decide (c = "-"%char))
                 (pretty_N_go (N.pos p) "") = true) as Hpos.
  { intros p. destruct (pretty_N_go_digits (N.pos p)) as [Ha _].
    revert Ha. apply all_chars_impl. intros c ->. done. }
  destruct n as [|p|p]; [done|..];
    unfold pretty, pretty_Z, pretty, pretty_positive, pretty, pretty_N;
    rewrite decide_False by done; [apply Hpos|].
  simpl. apply Hpos.
Qed.

Lemma split_no_sep sep s :
  all_chars (λ c, bool_decide (c ≠ sep)) s = true → split sep s = [s].
Proof.
  induction s as [|c s IH]; simpl; [done|].
  intros [Hc Hs]%andb_true_iff. apply bool_decide_eq_true in Hc.
  rewrite decide_False by done. by rewrite IH.
Qed.

Lemma split_app sep a b :
  all_chars (λ c, bool_decide (c ≠ sep)) a = true →
  split sep (a +:+ String sep b) = a :: split sep b.
Proof.
  induction a as [|c a IH]; str_simpl.
  { intros _. by rewrite decide_True. }
  intros [Hc Hs]%andb_true_iff. apply bool_decide_eq_true in Hc.
  rewrite decide_False by done. by rewrite IH.
Qed.

(** [replace] passes over a stretch in which the first character of
    [old] does not occur. *)
Lemma replace_from_app o old new a b :
  all_chars (λ c, bool_decide (c ≠ o)) a = true →
  replace_from (String o old) new 0 (a +:+ b)
  = a +:+ replace_from (String o old) new 0 b.
Proof.
  induction a as [|c a IH]; str_simpl; [done|].
  intros [Hc Hs]%andb_true_iff. apply bool_decide_eq_true in Hc.
  destruct (ascii_dec o c) as [->|_]; [done|]. by rewrite IH.
Qed.

Lemma replace_none o old new a :
  all_chars (λ c, bool_decide (c ≠ o)) a = true →
  replace (String o old) new a = a.
Proof.
  intros Ha. unfold replace.
  rewrite <- (app_nil_r a) at 1. rewrite replace_from_app by done.
  simpl. apply app_nil_r.
Qed.

End DecimalProofs.
(** ** Rate limiter: statistics and administration *)

Module RateLimiterAdminProofs.
Import Exceptions RateLimiter RateLimiterAdmin.

Lemma pretty_without (o : ascii) (n : Z) :
  Decimal.is_digit o = false → o ≠ "-"%char →
  Decimal.all_chars (λ c, bool_decide (c ≠ o)) (pretty n) = true.
Proof.
  intros Hd Hm. eapply DecimalProofs.all_chars_impl; [|apply DecimalProofs.pretty_chars].
  intros c Hc. apply bool_decide_eq_true. intros ->.
  rewrite Hd in Hc. simpl in Hc. apply bool_decide_eq_true in Hc. done.
Qed.

(** X12. The default limit is read back as configured: the string
    [check_rate_limit] builds from [RATE_LIMIT_REQUESTS] and
    [RATE_LIMIT_WINDOW] when no limit is given parses, in
    [_sliding_window_check], to exactly those two numbers, whatever
    integers the settings hold. *)
Theorem default_limit_parses settings :
  parse_limit (effective_limit settings None)
  = Parsed (RATE_LIMIT_REQUESTS settings) (RATE_LIMIT_WINDOW settings).
Proof.
  unfold effective_limit, default_limit, parse_limit.
  set (n := RATE_LIMIT_REQUESTS settings). set (w := RATE_LIMIT_WINDOW settings).
  change (pretty n +:+ "/" +:+ pretty w +:+ "seconds")
    with (pretty n +:+ String "/" (pretty w +:+ "seconds")).
  rewrite DecimalProofs.split_app by (by apply pretty_without).
  rewrite DecimalProofs.split_no_sep.
  2:{ rewrite DecimalProofs.all_chars_app, pretty_without by done. done. }
  rewrite DecimalProofs.int_pretty.
  unfold PyStr.replace at 2.
  rewrite (DecimalProofs.replace_from_app "s" "econds" "" (pretty w) "seconds")
    by (by apply pretty_without).
  change (PyStr.replace_from "seconds" "" 0 "seconds") with "".
  rewrite DecimalProofs.app_nil_r.
  rewrite (DecimalProofs.replace_none "s" "econd") by (by apply pretty_without).
  by rewrite DecimalProofs.int_pretty.
Qed.

Section WithStore.
Context {St : Type}.
Variable cache_get : Z → string → St → St * outcome (option Z).
Variable cache_increment : Z → string → Z → St → St * outcome (option Z).
Variable cache_set : Z → string → Z → option Z → St → St * outcome bool.
Variable cache_invalidate_pattern : string → St → St * outcome Z.

Local Abbreviation check := (_sliding_window_check cache_get cache_increment cache_set).
Local Abbreviation check_rate_limit' :=
  (check_rate_limit cache_get cache_increment cache_set).

Lemma fail_open_not_denied (st st' : St) e (ra : Z) :
  fail_open (true, 0) st e ≠ (st', Returns (false, ra)).
Proof. unfold fail_open. by destruct (is_Exception e). Qed.

(** A denial comes from the comparison of the stored count with the
    limit, and carries the time to the end of the window. *)
Lemma check_denied client_id limit now st st' ra :
  check client_id limit now st = (st', Returns (false, ra)) →
  ∃ mx w, parse_limit limit = Parsed mx w ∧ w ≠ 0 ∧ ra = w - now `mod` w.
Proof.
  unfold _sliding_window_check.
  destruct (parse_limit limit) as [| |mx w]; [done|done|].
  case_decide as Hw; [done|].
  destruct (cache_get now _ st) as [st1 [e|got]].
  { intros Hf. by apply fail_open_not_denied in Hf. }
  case_decide as Hge.
  { intros [= <- <-]. by exists mx, w. }
  destruct (cache_increment now _ 1 st1) as [st2 [e|n]].
  { intros Hf. by apply fail_open_not_denied in Hf. }
  case_decide as Hz; [|done].
  destruct (cache_set now _ 1 _ st2) as [st3 [e|ok]]; [|done].
  intros Hf. by apply fail_open_not_denied in Hf.
Qed.

(** X13. The retry-after of a denial is the time left in the client's
    window: for a positive window length it lies between 1 and the
    window length, the key the check consults stays the same until
    that many seconds have passed, and is a different one from then
    on. *)
Theorem retry_after_next_window client_id limit mx w now st st' ra :
  parse_limit limit = Parsed mx w →
  0 < w →
  check client_id limit now st = (st', Returns (false, ra)) →
  1 ≤ ra ∧ ra ≤ w
  ∧ (∀ t, now ≤ t → t < now + ra →
       rate_limit_key client_id t w = rate_limit_key client_id now w)
  ∧ rate_limit_key client_id (now + ra) w ≠ rate_limit_key client_id now w.
Proof.
  intros Hp Hw Hc.
  destruct (check_denied _ _ _ _ _ _ Hc) as (mx' & w' & Hp' & _ & ->).
  rewrite Hp in Hp'. injection Hp' as <- <-.
  pose proof (Z.mod_pos_bound now w Hw) as Hm.
  pose proof (Z.div_mod now w ltac:(lia)) as Hd.
  split; [lia|]. split; [lia|]. split.
  - intros t Hle Hlt. apply RateLimiterCacheProofs.rate_limit_key_same_window; [lia|].
    symmetry. apply (Z.div_unique_pos t w _ (t - w * (now `div` w))); lia.
  - intros Heq. apply RateLimiterCacheProofs.rate_limit_key_inj in Heq.
    rewrite !RateLimiterProofs.window_number_spec in Heq by lia.
    unfold spec_window_index in Heq.
    assert ((now + (w - now `mod` w)) `div` w = now `div` w + 1) as Hn.
    { symmetry. apply (Z.div_unique_pos _ w _ 0); lia. }
    lia.
Qed.

Lemma check_rate_limit_stats_ok settings rl client limit now st :
  stats_ok rl →
  stats_ok (check_rate_limit' settings rl client limit now st).1.1.
Proof.
  intros Hok. pose proof Hok as (H0 & H1 & H2 & Hcs). unfold check_rate_limit.
  destruct client as [e|client_id].
  { by destruct (fail_open (true, None) st e) as [st' r]. }
  set (cs0 := default (mkClientStats 0 0 now now) (client_stats rl !! client_id)).
  assert (0 ≤ blocked cs0 ∧ blocked cs0 ≤ requests cs0 ∧ 0 ≤ requests cs0)
    as (Hb0 & Hb1 & Hr0).
  { subst cs0. destruct (client_stats rl !! client_id) as [cs|] eqn:Hcl; simpl.
    - destruct (Hcs _ _ Hcl) as (?&?&?&?). lia.
    - lia. }
  assert (∀ extra : Z, 0 ≤ extra ≤ 1 →
    stats_ok
      (mkLimiter
         (mkStats (total_requests (stats rl) + 1)
                  (blocked_requests (stats rl) + extra)
                  ({[client_id]} ∪ unique_clients (stats rl))
                  (rate_limit_hits (stats rl) + extra))
         (<[client_id := mkClientStats (requests cs0 + 1) (blocked cs0 + extra)
                                       (first_seen cs0) now]> (client_stats rl))))
    as Hstep.
  { intros extra Hex. unfold stats_ok. simpl.
    split; [lia|]. split; [lia|]. split; [lia|]. intros k cs.
    destruct (decide (k = client_id)) as [->|Hne].
    - rewrite lookup_insert_eq. intros [= <-]. simpl.
      repeat split; try lia. apply elem_of_union. left. by apply elem_of_singleton.
    - rewrite lookup_insert_ne by done. intros Hl.
      destruct (Hcs _ _ Hl) as (?&?&?&?). repeat split; try lia.
      apply elem_of_union. by right. }
  destruct (check client_id (effective_limit settings limit) now st)
    as [st' [e|[[] retry_after]]].
  - destruct (fail_open (true, None) st' e) as [st'' r]. simpl.
    specialize (Hstep 0 ltac:(lia)). by rewrite !Z.add_0_r in Hstep.
  - simpl. specialize (Hstep 0 ltac:(lia)). by rewrite !Z.add_0_r in Hstep.
  - simpl. rewrite insert_insert_eq. apply (Hstep 1). lia.
Qed.

Lemma cleanup_stats_ok max_age_seconds now rl :
  stats_ok rl → stats_ok (cleanup_old_stats max_age_seconds now rl).
Proof.
  intros (H0 & H1 & H2 & Hcs). unfold stats_ok, cleanup_old_stats. simpl.
  split; [done|]. split; [done|]. split; [done|]. intros k cs Hk.
  apply map_lookup_filter_Some in Hk as [Hl _]. by apply Hcs.
Qed.

Lemma reset_stats_ok rl client_id st :
  stats_ok rl →
  stats_ok (reset_client_limits cache_invalidate_pattern rl client_id st).1.1.
Proof.
  intros Hok. unfold reset_client_limits.
  destruct (cache_invalidate_pattern _ st) as [st' [e|n]].
  { by destruct (is_Exception e). }
  destruct Hok as (H0 & H1 & H2 & Hcs). unfold stats_ok. simpl.
  split; [done|]. split; [done|]. split; [done|]. intros k cs.
  destruct (decide (k = client_id)) as [->|Hne].
  - rewrite lookup_alter_eq.
    destruct (client_stats rl !! client_id) as [x|] eqn:Hx; [|done].
    simpl. intros [= <-]. simpl. destruct (Hcs _ _ Hx) as (?&?&?&?).
    repeat split; done || lia.
  - rewrite lookup_alter_ne by done. apply Hcs.
Qed.

(** X14. The statistics of the limiter add up in every run of checks,
    clean-ups and client resets from a fresh limiter, over any store
    and whatever the store answers or raises: the blocked requests are
    never more than the requests counted (so [allowed_requests] of
    [get_stats] is never negative), every block is counted as a
    rate-limit hit, and every client on record has made at least one
    request, was blocked at most as often as it asked, and is among
    the unique clients. *)
Theorem run_stats_ok settings ops (st : St) :
  let rl :=
    (run cache_get cache_increment cache_set cache_invalidate_pattern
         settings ops (init, st)).1 in
  stats_ok rl ∧ 0 ≤ rep_allowed_requests (get_stats rl).
Proof.
  intros rl.
  assert (stats_ok rl) as Hok.
  { subst rl.
    assert (stats_ok (init, st).1) as Hinit.
    { unfold stats_ok. simpl. repeat split; try done. }
    revert Hinit. generalize (init, st). unfold run.
    induction ops as [|[now op] ops IH]; intros s Hs; simpl; [done|].
    apply IH. destruct op; simpl.
    - by apply check_rate_limit_stats_ok.
    - by apply cleanup_stats_ok.
    - by apply reset_stats_ok. }
  split; [done|]. destruct Hok as (H0 & H1 & _). unfold get_stats. simpl. lia.
Qed.

(** X15. A clean-up forgets exactly the clients that have been silent
    for longer than the maximum age: after a check for a client at
    time [t], a clean-up at time [now] keeps the client's record when
    [t] is not before [now - max_age_seconds] and deletes it otherwise;
    the totals and the set of unique clients are not touched. *)
Theorem cleanup_after_check settings rl client_id limit t st max_age_seconds now :
  let rl1 := (check_rate_limit' settings rl (Returns client_id) limit t st).1.1 in
  let rl2 := cleanup_old_stats max_age_seconds now rl1 in
  (∃ cs, get_client_stats rl1 client_id = Some cs ∧ last_seen cs = t)
  ∧ get_client_stats rl2 client_id
    = (if decide (t < now - max_age_seconds) then None
       else get_client_stats rl1 client_id)
  ∧ stats rl2 = stats rl1.
Proof.
  intros rl1 rl2.
  assert (∃ cs, get_client_stats rl1 client_id = Some cs ∧ last_seen cs = t)
    as (cs & Hcs & Hseen).
  { subst rl1. unfold get_client_stats, check_rate_limit, Returns.
    destruct (check client_id (effective_limit settings limit) t st)
      as [st' [e|[[] retry_after]]]; simpl.
    - destruct (fail_open (true, None) st' e) as [st'' r]. simpl.
      rewrite lookup_insert_eq. by eexists.
    - rewrite lookup_insert_eq. by eexists.
    - rewrite lookup_insert_eq. by eexists. }
  split; [by eexists|]. split; [|done].
  subst rl2. unfold get_client_stats, cleanup_old_stats in *. simpl.
  rewrite map_lookup_filter, Hcs. simpl. rewrite Hseen.
  case_decide.
  - by rewrite option_guard_False by lia.
  - by rewrite option_guard_True by lia.
Qed.

End WithStore.

Lemma retry_after_next_window_witness :
  1 ≤ 55 ∧ 55 ≤ 60
  ∧ (∀ t, 125 ≤ t → t < 125 + 55 →
       rate_limit_key "10.0.0.7" t 60 = rate_limit_key "10.0.0.7" 125 60)
  ∧ rate_limit_key "10.0.0.7" (125 + 55) 60 ≠ rate_limit_key "10.0.0.7" 125 60.
Proof.
  apply (retry_after_next_window (rec_get (Some 5)) (rec_increment (Some 5)) rec_set
           "10.0.0.7" "5/60seconds" 5 60 125 [] [CallGet "rate_limit:10.0.0.7:1"] 55);
    [reflexivity | lia | reflexivity].
Defined.

End RateLimiterAdminProofs.
(** ** Service registry: queries, statistics and runs *)

Module ServiceDiscoveryAdminProofs.
Import Exceptions ServiceDiscovery ServiceDiscoveryAdmin.
Import PyDictProofs ServiceDiscoveryProofs.

Implicit Types (sd : ServiceDiscovery) (s : ServiceInfo)
  (d : PyDict.dict ServiceInfo).

Ltac solve_elem :=
  repeat first [apply list_elem_of_here | apply list_elem_of_further].

Lemma new_service_info_ok service_id service_data now :
  instance_ok (new_service_info service_id service_data now).
Proof.
  unfold instance_ok. simpl.
  split; [solve_elem|]. repeat split; try done. by intros [|].
Qed.

Lemma check_service_health_ok now probe s st :
  instance_ok s → instance_ok (_check_service_health now probe s st).1.1.
Proof.
  intros Hok. pose proof Hok as (Hst & Hcf & Hun & Hu0 & Hh0 & Hbad).
  unfold _check_service_health. case_decide; [done|].
  destruct probe as [e|[code rt]]; simpl.
  - destruct (is_Exception e); [|done]. unfold instance_ok. simpl.
    split; [solve_elem|]. repeat split; try done; lia.
  - case_decide; unfold instance_ok; simpl.
    + split; [solve_elem|]. repeat split; try done. by intros [|].
    + split; [solve_elem|]. repeat split; try done; lia.
Qed.

(** A probe cycle keeps what every probe keeps. *)
Lemma check_all_forall (P : ServiceInfo → Prop) now probe_of d st :
  (∀ probe s st', P s → P (_check_service_health now probe s st').1.1) →
  (∀ k s, (k, s) ∈ d → P s) →
  ∀ k s, (k, s) ∈ (check_all now probe_of d st).1 → P s.
Proof.
  intros Hstep. revert st. induction d as [|[k0 s0] d IH]; intros st HP k s; simpl.
  { intros H. by apply elem_of_nil in H. }
  pose proof (Hstep (probe_of k0) s0 st (HP k0 s0 ltac:(apply list_elem_of_here)))
    as H0.
  destruct (_check_service_health now (probe_of k0) s0 st) as [[info' st'] r].
  specialize (IH st'). destruct (check_all now probe_of d st') as [d'' st''].
  simpl in *. intros Hin. apply elem_of_cons in Hin as [Heq|Hin].
  - by injection Heq as -> ->.
  - apply (IH (λ k' s' H', HP k' s' (list_elem_of_further _ _ _ H')) k s Hin).
Qed.

Lemma check_all_length now probe_of d st :
  length (check_all now probe_of d st).1 = length d.
Proof.
  pose proof (check_all_keys now probe_of d st) as H.
  apply (f_equal length) in H. unfold PyDict.keys in H.
  by rewrite !length_fmap in H.
Qed.

(** What a probe cycle adds to the two counters of health checks. *)
Lemma check_all_stats now probe_of d st :
  let st' := (check_all now probe_of d st).2 in
  total_services st' = total_services st
  ∧ healthy_services st' = healthy_services st
  ∧ unhealthy_services st' = unhealthy_services st
  ∧ total_health_checks st'
    = total_health_checks st + Z.of_nat (length (filter (λ kv, probed probe_of kv = true) d))
  ∧ failed_health_checks st'
    = failed_health_checks st
      + Z.of_nat (length (filter (λ kv, probe_failed probe_of kv = true) d)).
Proof.
  revert st. induction d as [|[k0 s0] d IH]; intros st.
  { simpl. repeat split; lia. }
  assert (let r := _check_service_health now (probe_of k0) s0 st in
          total_services r.1.2 = total_services st
          ∧ healthy_services r.1.2 = healthy_services st
          ∧ unhealthy_services r.1.2 = unhealthy_services st
          ∧ total_health_checks r.1.2
            = total_health_checks st + (if probed probe_of (k0, s0) then 1 else 0)
          ∧ failed_health_checks r.1.2
            = failed_health_checks st
              + (if probe_failed probe_of (k0, s0) then 1 else 0)) as H0.
  { unfold _check_service_health, probed, probe_failed. simpl.
    case_decide as Hep.
    - rewrite bool_decide_eq_true_2 by done. simpl. repeat split; lia.
    - rewrite bool_decide_eq_false_2 by done. simpl.
      destruct (probe_of k0) as [e|[code rt]]; simpl.
      + destruct (is_Exception e); simpl; repeat split; lia.
      + repeat split; lia. }
  unfold PyDict.dict in *. rewrite !filter_cons.
  remember (probed probe_of (k0, s0)) as p eqn:Hp.
  remember (probe_failed probe_of (k0, s0)) as f eqn:Hf.
  cbn [check_all].
  destruct (_check_service_health now (probe_of k0) s0 st) as [[info' st1] r].
  specialize (IH st1). destruct (check_all now probe_of d st1) as [d'' st''].
  cbn [fst snd] in *. destruct H0 as (a1 & a2 & a3 & a4 & a5).
  destruct IH as (b1 & b2 & b3 & b4 & b5).
  rewrite b1, b2, b3, b4, b5, a1, a2, a3, a4, a5.
  destruct p, f; repeat case_decide; try done; cbn [length]; repeat split; lia.
Qed.

Lemma filter_length_le {A} (P Q : A → Prop) `{!∀ x, Decision (P x)}
    `{!∀ x, Decision (Q x)} (l : list A) :
  (∀ x, P x → Q x) → (length (filter P l) ≤ length (filter Q l))%nat.
Proof.
  intros HPQ. induction l as [|x l IH]; simpl; [done|].
  rewrite ?filter_cons. repeat case_decide; simpl; try lia.
  exfalso. auto.
Qed.

Lemma values_elem d s : s ∈ PyDict.values d ↔ ∃ k, (k, s) ∈ d.
Proof.
  unfold PyDict.values. rewrite list_elem_of_fmap. split.
  - intros ([k s'] & -> & H). by exists k.
  - intros [k H]. by exists (k, s).
Qed.

Lemma step_wf now op sd : registry_wf sd → registry_wf (step now op sd).
Proof.
  intros H. destruct op; simpl.
  - by apply register_service_wf.
  - by apply deregister_service_wf.
  - by apply perform_health_checks_wf.
Qed.

Lemma step_counts_ok now op sd : counts_ok sd → counts_ok (step now op sd).
Proof.
  intros (Htot & Hf0 & Hft). unfold counts_ok, get_all_services, PyDict.values in *.
  destruct op as [service_data uuid|service_id|probe_of]; simpl.
  - rewrite length_fmap. done.
  - unfold deregister_service.
    destruct (PyDict.get service_id (services sd)); simpl; [|done].
    rewrite length_fmap. done.
  - unfold _perform_health_checks.
    destruct (services sd) as [|e d] eqn:Hs; [by rewrite Hs|]. rewrite <- Hs.
    pose proof (check_all_length now probe_of (services sd) (stats sd)) as Hlen.
    pose proof (check_all_stats now probe_of (services sd) (stats sd))
      as (c1 & c2 & c3 & c4 & c5).
    pose proof (filter_length_le
                  (λ kv, probe_failed probe_of kv = true)
                  (λ kv, probed probe_of kv = true) (services sd)) as Hle.
    destruct (check_all now probe_of (services sd) (stats sd)) as [d' st'].
    simpl in *. rewrite !length_fmap in *. rewrite Hlen, c1, c4, c5.
    split; [by rewrite Hs|]. split; [lia|].
    assert (length (filter (λ kv, probe_failed probe_of kv = true) (services sd))
            ≤ length (filter (λ kv, probed probe_of kv = true) (services sd)))%nat.
    { apply Hle. intros [k s]. unfold probe_failed, probed. simpl.
      intros [-> Hp]%andb_true_iff. simpl.
      by destruct (probe_of k) as [ex|?]. }
    lia.
Qed.

Lemma step_instances_ok now op sd :
  (∀ k s, (k, s) ∈ services sd → instance_ok s) →
  ∀ k s, (k, s) ∈ services (step now op sd) → instance_ok s.
Proof.
  intros Hok k s. destruct op as [service_data uuid|service_id|probe_of]; simpl.
  - intros Hin. apply dict_set_elem in Hin as [Heq|Hin]; [|by eapply Hok].
    injection Heq as _ ->. apply new_service_info_ok.
  - unfold deregister_service.
    destruct (PyDict.get service_id (services sd)); simpl; [|by apply Hok].
    intros Hin. apply dict_remove_subset in Hin. by eapply Hok.
  - unfold _perform_health_checks.
    destruct (services sd) as [|e d] eqn:Hs; [by rewrite Hs; apply Hok|].
    rewrite <- Hs in *.
    pose proof (check_all_forall instance_ok now probe_of (services sd) (stats sd)
                  (λ probe s0 st', check_service_health_ok now probe s0 st') Hok k s)
      as H.
    destruct (check_all now probe_of (services sd) (stats sd)) as [d' st'].
    exact H.
Qed.

(** X16. In every run of registrations, deregistrations and probe cycles
    from an empty registry, the ids of the table are unique and every
    instance is stored under its own id, [total_services] is the number
    of instances registered, and the failed health checks counted are
    never more than the health checks counted. *)
Theorem run_registry_counts ops :
  registry_wf (run ops init) ∧ counts_ok (run ops init).
Proof.
  assert (∀ sd, registry_wf sd ∧ counts_ok sd →
                registry_wf (run ops sd) ∧ counts_ok (run ops sd)) as Hrun.
  { unfold run. induction ops as [|[now op] ops IH]; intros sd [Hwf Hc]; simpl;
      [done|].
    apply IH. split; [by apply step_wf | by apply step_counts_ok]. }
  apply Hrun. split; [apply init_wf|]. by repeat split.
Qed.

Lemma status_counts (l : list ServiceInfo) :
  (∀ s, s ∈ l → health_status s ∈ ["unknown"; "healthy"; "degraded"; "unhealthy"]) →
  (length (filter (λ s, health_status s = "healthy") l)
   + length (filter (λ s, health_status s = "degraded") l)
   + length (filter (λ s, health_status s = "unhealthy") l)
   + length (filter (λ s, health_status s = "unknown") l))%nat
  = length l.
Proof.
  induction l as [|s l IH]; intros Hall; simpl; [done|].
  specialize (IH (λ s' H', Hall s' (list_elem_of_further _ _ _ H'))).
  pose proof (Hall s ltac:(apply list_elem_of_here)) as Hs.
  rewrite ?filter_cons.
  repeat (apply elem_of_cons in Hs as [Hs|Hs];
          [rewrite Hs; simpl; repeat case_decide; try done; simpl; lia|]).
  by apply elem_of_nil in Hs.
Qed.

(** X17. In every run from an empty registry, every listed instance has
    one of the four statuses; it is "unknown" exactly as long as it has
    never been probed; its failure counter is 0 when it is unknown or
    healthy and at least 1 when it is degraded or unhealthy; a healthy
    instance has a latency on record. So the four counts of
    [services_by_status] add up to the number of instances. *)
Theorem run_instances_ok ops :
  let sd := run ops init in
  (∀ s, s ∈ get_all_services sd → instance_ok s)
  ∧ by_healthy (services_by_status sd) + by_degraded (services_by_status sd)
    + by_unhealthy (services_by_status sd) + by_unknown (services_by_status sd)
    = Z.of_nat (length (get_all_services sd)).
Proof.
  intros sd.
  assert (∀ k s, (k, s) ∈ services sd → instance_ok s) as Hok.
  { subst sd.
    assert (∀ k s, (k, s) ∈ services init → instance_ok s) as Hinit.
    { intros k s H. by apply elem_of_nil in H. }
    revert Hinit. generalize init. unfold run.
    induction ops as [|[now op] ops IH]; intros sd0 H0; simpl; [done|].
    apply IH. by apply step_instances_ok. }
  assert (∀ s, s ∈ get_all_services sd → instance_ok s) as Hall.
  { intros s Hs. apply values_elem in Hs as [k Hk]. by eapply Hok. }
  split; [done|].
  unfold services_by_status, count_status. simpl.
  rewrite <- (status_counts (get_all_services sd)).
  - unfold get_all_services. lia.
  - intros s Hs. by destruct (Hall s Hs) as [H _].
Qed.

(** X18. After a probe cycle on a registry that is not empty, the
    counters [healthy_services] and [unhealthy_services] are the numbers
    of instances now healthy and now unhealthy, [total_health_checks]
    has grown by the number of instances with a health endpoint whose
    probe returned or raised an [Exception], and [failed_health_checks]
    by the number of those whose probe raised. On an empty registry the
    cycle changes nothing. *)
Theorem probe_cycle_stats now probe_of sd :
  let sd' := _perform_health_checks now probe_of sd in
  (services sd = [] → sd' = sd)
  ∧ (services sd ≠ [] →
     healthy_services (stats sd') = count_status "healthy" sd'
     ∧ unhealthy_services (stats sd') = count_status "unhealthy" sd'
     ∧ total_health_checks (stats sd')
       = total_health_checks (stats sd)
         + Z.of_nat (length (filter (λ kv, probed probe_of kv = true) (services sd)))
     ∧ failed_health_checks (stats sd')
       = failed_health_checks (stats sd)
         + Z.of_nat (length (filter (λ kv, probe_failed probe_of kv = true)
                                    (services sd)))
     ∧ total_services (stats sd') = total_services (stats sd)).
Proof.
  intros sd'. subst sd'. unfold _perform_health_checks. split.
  - intros Hs. by rewrite Hs.
  - intros Hne. destruct (services sd) as [|e d] eqn:Hs; [done|]. rewrite <- Hs.
    pose proof (check_all_stats now probe_of (services sd) (stats sd))
      as (c1 & c2 & c3 & c4 & c5).
    destruct (check_all now probe_of (services sd) (stats sd)) as [d' st'].
    unfold count_status. simpl in *. by rewrite c1, c4, c5.
Qed.

Lemma probe_cycle_stats_witness :
  let data := mkData (Some "stt-1") "stt" "1.0" "10.0.0.5" 8001 None None None None None in
  let sd := (register_service init data "u1" 10).1 in
  let probe_of : string → Probe := λ _, Returns (200, (12 # 1)%Q) in
  let sd' := _perform_health_checks 40 probe_of sd in
  healthy_services (stats sd') = 1
  ∧ unhealthy_services (stats sd') = 0
  ∧ total_health_checks (stats sd') = 1
  ∧ failed_health_checks (stats sd') = 0
  ∧ total_services (stats sd') = 1.
Proof.
  intros data sd probe_of sd'.
  destruct (probe_cycle_stats 40 probe_of sd) as [_ H].
  apply H. discriminate.
Defined.

Lemma dict_get_remove_ne {V : Type} k k' (dv : PyDict.dict V) :
  k' ≠ k → PyDict.get k' (PyDict.remove k dv) = PyDict.get k' dv.
Proof.
  intros Hne. induction dv as [|[k0 v0] dv IH]; simpl; [done|].
  destruct (decide (k0 = k)) as [->|Hk]; simpl.
  - by rewrite decide_False by done.
  - by rewrite IH.
Qed.

Lemma dict_remove_present {V : Type} k (v : V) (dv : PyDict.dict V) :
  PyDict.wf dv → PyDict.get k dv = Some v →
  ∃ d1 d2 : PyDict.dict V,
    dv = d1 ++ (k, v) :: d2 ∧ PyDict.remove k dv = d1 ++ d2
    ∧ (k ∉ PyDict.keys d1) ∧ (k ∉ PyDict.keys d2).
Proof.
  unfold PyDict.wf, PyDict.keys.
  induction dv as [|[k0 v0] dv IH]; simpl; [done|].
  intros Hnd. apply NoDup_cons in Hnd as [Hk0 Hnd].
  destruct (decide (k0 = k)) as [->|Hk].
  - intros [= ->]. exists [], dv. simpl. repeat split; try done.
    intros H. by apply elem_of_nil in H.
  - intros Hget. destruct (IH Hnd Hget) as (d1 & d2 & -> & Hrem & H1 & H2).
    exists ((k0, v0) :: d1), d2. simpl. rewrite Hrem. repeat split; try done.
    intros H. apply elem_of_cons in H as [H|H]; [congruence | done].
Qed.

Lemma dict_set_absent {V : Type} k (v : V) (dv : PyDict.dict V) :
  PyDict.get k dv = None → PyDict.set k v dv = dv ++ [(k, v)].
Proof.
  induction dv as [|[k0 v0] dv IH]; simpl; [done|].
  destruct (decide (k0 = k)) as [->|Hk]; [done|]. intros H. by rewrite IH.
Qed.

(** X19. [deregister_service] removes exactly the instance of the id:
    for a known id it returns [True], the id is no longer found, every
    other id is found as before, the listing is the old one without
    that instance (the others keep their order) and [total_services]
    goes down by one; for an unknown id it returns [False] and changes
    nothing. *)
Theorem deregister_service_removes sd service_id :
  registry_wf sd →
  match get_service sd service_id with
  | Some old =>
      let sd' := (deregister_service sd service_id).1 in
      (deregister_service sd service_id).2 = true
      ∧ get_service sd' service_id = None
      ∧ (∀ k, k ≠ service_id → get_service sd' k = get_service sd k)
      ∧ (∃ l1 l2, get_all_services sd = l1 ++ old :: l2
                  ∧ get_all_services sd' = l1 ++ l2)
      ∧ total_services (stats sd')
        = Z.of_nat (length (get_all_services sd)) - 1
  | None => deregister_service sd service_id = (sd, false)
  end.
Proof.
  intros [Hwf Hids]. unfold get_service, deregister_service.
  destruct (PyDict.get service_id (services sd)) as [old|] eqn:Hget; [|done].
  simpl.
  destruct (dict_remove_present service_id old (services sd) Hwf Hget)
    as (d1 & d2 & Hd & Hrem & H1 & H2).
  split; [done|]. split; [|split; [|split]].
  - rewrite Hrem. apply dict_get_None_keys. unfold PyDict.keys in *.
    rewrite fmap_app. intros H. apply elem_of_app in H as [H|H]; done.
  - intros k Hne. by apply dict_get_remove_ne.
  - exists (PyDict.values d1), (PyDict.values d2).
    unfold get_all_services, PyDict.values. simpl.
    rewrite Hrem, Hd, !fmap_app. done.
  - unfold get_all_services, PyDict.values. rewrite Hrem, Hd.
    rewrite !length_fmap, !length_app. simpl. lia.
Qed.

Lemma deregister_service_removes_witness :
  let a := mkData (Some "stt-1") "stt" "1.0" "10.0.0.5" 8001 None None None None None in
  let b := mkData (Some "stt-2") "stt" "1.0" "10.0.0.6" 8001 None None None None None in
  let sd := (register_service (register_service init a "u1" 10).1 b "u2" 11).1 in
  let sd' := (deregister_service sd "stt-1").1 in
  (deregister_service sd "stt-1").2 = true
  ∧ get_service sd' "stt-1" = None
  ∧ (∀ k, k ≠ "stt-1" → get_service sd' k = get_service sd k)
  ∧ (∃ l1 l2, get_all_services sd = l1 ++ new_service_info "stt-1" a 10 :: l2
              ∧ get_all_services sd' = l1 ++ l2)
  ∧ total_services (stats sd') = 2 - 1.
Proof.
  intros a b sd sd'.
  apply (deregister_service_removes sd "stt-1").
  apply register_service_wf, register_service_wf, init_wf.
Defined.

Lemma candidates_app (l1 l2 : PyDict.dict ServiceInfo) st nm wanted :
  candidates (mkRegistry (l1 ++ l2) st) nm wanted
  = candidates (mkRegistry l1 st) nm wanted
    ++ candidates (mkRegistry l2 st) nm wanted.
Proof.
  unfold candidates, get_services_by_name, PyDict.values. simpl.
  rewrite fmap_app, filter_app.
  destruct wanted as [[|t ts]|]; try done. by rewrite filter_app.
Qed.

(** X20. A newly registered instance can be found at once: registering
    under an id not in use returns the id (the given one, or the
    [uuid4] drawn), puts the instance last in the listing with status
    "unknown", and a discovery by its name, with any tags it carries,
    returns an instance of that name; when there was no other
    candidate it returns the new instance, although it was never
    probed. *)
Theorem register_then_discover sd service_data uuid now wanted :
  let service_id := default uuid (sd_id service_data) in
  let nm := sd_name service_data in
  let new := new_service_info service_id service_data now in
  let sd' := (register_service sd service_data uuid now).1 in
  get_service sd service_id = None →
  (∀ tag, tag ∈ default [] wanted → tag ∈ default [] (sd_tags service_data)) →
  (register_service sd service_data uuid now).2 = service_id
  ∧ get_all_services sd' = get_all_services sd ++ [new]
  ∧ get_service sd' service_id = Some new
  ∧ health_status new = "unknown"
  ∧ (∃ s, discover_service sd' nm wanted = Some s ∧ name s = nm)
  ∧ (candidates sd nm wanted = [] → discover_service sd' nm wanted = Some new).
Proof.
  intros service_id nm new sd' Hfresh Htags. unfold get_service in Hfresh.
  assert (services sd' = services sd ++ [(service_id, new)]) as Hs'.
  { subst sd'. unfold register_service. simpl. by apply dict_set_absent. }
  assert (new ∈ candidates sd' nm wanted) as Hnew.
  { apply candidates_spec. split; [|split; [done|done]].
    unfold get_all_services, PyDict.values. rewrite Hs', fmap_app.
    apply elem_of_app. right. apply list_elem_of_here. }
  split; [done|]. split; [|split; [|split; [done|split]]].
  - unfold get_all_services, PyDict.values. by rewrite Hs', fmap_app.
  - subst sd'. unfold get_service, register_service. simpl.
    apply dict_get_set_eq.
  - pose proof (discover_service_spec sd' nm wanted) as Hspec. simpl in Hspec.
    destruct (discover_service sd' nm wanted) as [s|].
    + destruct Hspec as [Hin _]. exists s. split; [done|].
      by apply candidates_spec in Hin as (_ & Hn & _).
    + rewrite Hspec in Hnew. by apply elem_of_nil in Hnew.
  - intros Hnone.
    assert (candidates sd' nm wanted = [new]) as Hc.
    { destruct sd' as [services' stats'] eqn:Hsd'. simpl in Hs'. subst services'.
      rewrite candidates_app.
      assert (candidates (mkRegistry (services sd) stats') nm wanted
              = candidates sd nm wanted) as -> by done.
      rewrite Hnone. simpl.
      assert (new ∈ candidates (mkRegistry [(service_id, new)] stats') nm wanted)
        as Hin.
      { apply candidates_spec. split; [|split; [done|done]].
        apply list_elem_of_here. }
      revert Hin. unfold candidates, get_services_by_name, PyDict.values. simpl.
      rewrite !filter_cons, !filter_nil. rewrite decide_True by done.
      destruct wanted as [[|t ts]|]; try done.
      rewrite !filter_cons, !filter_nil. case_decide as Htg; [done|].
      intros Hin. by apply elem_of_nil in Hin. }
    unfold discover_service. rewrite Hc.
    rewrite filter_cons, filter_nil. by rewrite decide_False.
Qed.

Lemma register_then_discover_witness :
  let data :=
    mkData None "stt" "1.0" "10.0.0.5" 8001 None None (Some ["gpu"]) None None in
  let sd' := (register_service init data "u-1" 10).1 in
  (register_service init data "u-1" 10).2 = "u-1"
  ∧ get_all_services sd' = [new_service_info "u-1" data 10]
  ∧ discover_service sd' "stt" (Some ["gpu"]) = Some (new_service_info "u-1" data 10).
Proof.
  intros data sd'.
  destruct (register_then_discover init data "u-1" 10 (Some ["gpu"]))
    as (H1 & H2 & _ & _ & _ & H6); [reflexivity | by intros tag H |].
  split; [exact H1|]. split; [exact H2|]. apply H6. reflexivity.
Defined.

(** X21. [check_service_availability] agrees with discovery: for a name
    that is not empty it is [True] exactly when [discover_service] for
    that name returns a healthy instance (and not a fallback). For the
    empty name the name filter is skipped, and it is [True] exactly
    when some instance of any name is healthy. *)
Theorem availability_iff_discover sd nm :
  (nm ≠ "" →
   (check_service_availability sd nm = true
    ↔ ∃ s, discover_service sd nm None = Some s ∧ health_status s = "healthy"))
  ∧ (check_service_availability sd "" = true
     ↔ ∃ s, s ∈ get_all_services sd ∧ health_status s = "healthy").
Proof.
  assert (∀ l : list ServiceInfo, (0 < length l)%nat ↔ l ≠ []) as Hlen.
  { intros [|x l]; simpl; split; try done; lia. }
  split.
  - intros Hne. unfold check_service_availability, get_healthy_services.
    rewrite decide_False by done. rewrite bool_decide_eq_true, Hlen.
    unfold discover_service, candidates, get_services_by_name.
    set (cs := filter (λ s, name s = nm) (PyDict.values (services sd))).
    destruct (filter (λ s, health_status s = "healthy") cs) as [|h hs] eqn:Hh.
    + split; [done|]. intros (s & Hs & Hhealthy).
      destruct cs as [|c cs']; [done|]. injection Hs as ->.
      rewrite filter_cons, decide_True in Hh by done. done.
    + split; [|done]. intros _. eexists. split; [reflexivity|].
      pose proof (min_from_elem sort_key h hs) as Hin. rewrite <- Hh in Hin.
      by apply list_elem_of_filter in Hin as [? _].
  - unfold check_service_availability, get_healthy_services, get_all_services.
    rewrite decide_True by done. rewrite bool_decide_eq_true, Hlen. split.
    + intros Hne.
      destruct (filter (λ s, health_status s = "healthy")
                       (PyDict.values (services sd))) as [|h hs] eqn:Hh; [done|].
      exists h.
      assert (h ∈ filter (λ s, health_status s = "healthy")
                         (PyDict.values (services sd))) as Hin.
      { rewrite Hh. apply list_elem_of_here. }
      by apply list_elem_of_filter in Hin as [? ?].
    + intros (s & Hin & Hs) Hnil.
      assert (s ∈ filter (λ s, health_status s = "healthy")
                         (PyDict.values (services sd))) as H.
      { by apply list_elem_of_filter. }
      rewrite Hnil in H. by apply elem_of_nil in H.
Qed.

Lemma availability_iff_discover_witness :
  let sd :=
    mkRegistry [("a-1", mkInfo "a-1" "A" "1.0" "10.0.0.5" 8001 "http" "/health"
                          [] [] [] 10 (Some 40) "healthy" 0 (Some (12 # 1)%Q))]
               (mkStats 1 1 0 1 0) in
  check_service_availability sd "A" = true
  ∧ check_service_availability sd "B" = false
  ∧ check_service_availability sd "" = true.
Proof.
  intros sd. destruct (availability_iff_discover sd "A") as [HA _].
  split; [|split; reflexivity].
  apply (HA ltac:(discriminate)). eexists. split; reflexivity.
Defined.

(** [min] returns the first of the elements with the least key: every
    element before it has a strictly greater key. *)
Lemma min_from_first {A : Type} (key : A → SortKey) best (l : list A) :
  ∃ l1 l2, best :: l = l1 ++ min_from key best l :: l2
           ∧ ∀ y, y ∈ l1 → key_lt (key (min_from key best l)) (key y) = true.
Proof.
  revert best. induction l as [|x l IH]; intros best; simpl.
  { exists [], []. split; [done|]. intros y H. by apply elem_of_nil in H. }
  destruct (key_lt (key x) (key best)) eqn:Hlt.
  - destruct (IH x) as (l1 & l2 & Heq & Hl1).
    exists (best :: l1), l2. split; [by rewrite Heq|].
    intros y Hy. apply elem_of_cons in Hy as [->|Hy]; [|by apply Hl1].
    destruct l1 as [|x' l1'].
    + simpl in Heq. injection Heq as Hx _. by rewrite <- Hx.
    + simpl in Heq. injection Heq as <- _.
      eapply key_lt_trans; [|exact Hlt]. apply Hl1, list_elem_of_here.
  - destruct (IH best) as (l1 & l2 & Heq & Hl1).
    destruct l1 as [|b' l1'].
    + simpl in Heq. injection Heq as Hb Hl. exists [], (x :: l).
      split; [by rewrite <- Hb|]. intros y H. by apply elem_of_nil in H.
    + simpl in Heq. injection Heq as <- Hl.
      exists (best :: x :: l1'), l2. split; [simpl; do 2 f_equal; exact Hl|].
      intros y Hy. apply elem_of_cons in Hy as [->|Hy];
        [apply Hl1, list_elem_of_here|].
      apply elem_of_cons in Hy as [->|Hy];
        [|by apply Hl1, list_elem_of_further].
      pose proof (Hl1 best ltac:(apply list_elem_of_here)) as Hmb.
      destruct (key_lt_cotrans _ (key x) _ Hmb) as [H|H]; [done|congruence].
Qed.

(** X22. Discovery is decided by registration order: when no candidate
    is healthy it returns the candidate registered first, and among the
    healthy candidates it returns the first in registration order of
    those with the least sort key, so every healthy candidate listed
    before the one returned has a strictly greater key. *)
Theorem discover_service_order sd nm wanted :
  let cs := candidates sd nm wanted in
  let healthy := filter (λ s, health_status s = "healthy") cs in
  (healthy = [] → discover_service sd nm wanted = head cs)
  ∧ (healthy ≠ [] →
     ∃ s l1 l2,
       discover_service sd nm wanted = Some s
       ∧ healthy = l1 ++ s :: l2
       ∧ (∀ y, y ∈ l1 → key_lt (sort_key s) (sort_key y) = true)
       ∧ (∀ y, y ∈ l2 → key_lt (sort_key y) (sort_key s) = false)).
Proof.
  intros cs healthy. unfold discover_service. fold cs. fold healthy. split.
  - intros ->. by destruct cs.
  - intros Hne. destruct healthy as [|h hs] eqn:Hh; [done|].
    destruct (min_from_first sort_key h hs) as (l1 & l2 & Heq & Hl1).
    exists (min_from sort_key h hs), l1, l2. repeat split; try done.
    intros y Hy. apply min_from_least. rewrite Heq.
    apply elem_of_app. right. by apply list_elem_of_further.
Qed.

Lemma discover_service_order_witness :
  let a := mkInfo "a-1" "A" "1.0" "10.0.0.5" 8001 "http" "/health" [] [] [] 10
                  (Some 40) "healthy" 0 (Some (12 # 1)%Q) in
  let b := mkInfo "a-2" "A" "1.0" "10.0.0.6" 8001 "http" "/health" [] [] [] 11
                  (Some 40) "healthy" 0 (Some (12 # 1)%Q) in
  let sd := mkRegistry [("a-1", a); ("a-2", b)] (mkStats 2 2 0 2 0) in
  ∃ s l1 l2,
    discover_service sd "A" None = Some s
    ∧ [a; b] = l1 ++ s :: l2
    ∧ (∀ y, y ∈ l1 → key_lt (sort_key s) (sort_key y) = true)
    ∧ (∀ y, y ∈ l2 → key_lt (sort_key y) (sort_key s) = false).
Proof.
  intros a b sd.
  destruct (discover_service_order sd "A" None) as [_ H].
  apply H. discriminate.
Defined.

End ServiceDiscoveryAdminProofs.
(** ** Connection manager: bookkeeping *)

Module WebSocketTablesProofs.
Import WebSocketManager WebSocketTables WebSocketManagerProofs.

Implicit Types (s : WebSocketManager) (env : Env) (cid : string).

Lemma disconnect_stats env s cid :
  stats (disconnect env s cid)
  = mkStats (total_connections (stats s))
            (Z.of_nat (size (delete cid (active_connections s))))
            (messages_sent (stats s)) (messages_received (stats s))
            (disconnections (stats s) + 1) (errors (stats s)).
Proof.
  unfold disconnect. destruct (connection_info s !! cid); simpl;
    destruct (active_connections s !! cid) eqn:E; try done;
    by rewrite delete_id.
Qed.

Lemma disconnect_flags env s cid :
  running (disconnect env s cid) = running s
  ∧ message_handlers (disconnect env s cid) = message_handlers s.
Proof. unfold disconnect. by destruct (connection_info s !! cid). Qed.

Lemma size_delete_le {A} k (m : gmap string A) : (size (delete k m) ≤ size m)%nat.
Proof. apply map_subseteq_size, delete_subseteq. Qed.

Lemma disconnect_tables_ok env s cid : tables_ok s → tables_ok (disconnect env s cid).
Proof.
  intros (Hdom & Hcur & Htot & Hrec & Hinfo). unfold tables_ok.
  rewrite disconnect_stats, disconnect_active, disconnect_info. simpl.
  split; [by rewrite !dom_delete_L, Hdom|]. split; [done|].
  pose proof (size_delete_le cid (active_connections s)).
  split; [lia|]. split; [done|].
  intros c ci [_ Hc]%lookup_delete_Some. by apply Hinfo.
Qed.

(** A state that differs in the counter of messages sent, in the flag
    and in the handlers only. *)
Lemma tables_ok_ext s s' :
  active_connections s' = active_connections s →
  connection_info s' = connection_info s →
  total_connections (stats s') = total_connections (stats s) →
  current_connections (stats s') = current_connections (stats s) →
  messages_received (stats s') = messages_received (stats s) →
  tables_ok s → tables_ok s'.
Proof.
  intros Ha Hi Ht Hc Hr (Hdom & Hcur & Htot & Hrec & Hinfo). unfold tables_ok.
  rewrite Ha, Hi, Ht, Hc, Hr. done.
Qed.

Lemma send_message_tables_ok env now s cid message message_type :
  tables_ok s → tables_ok (send_message env now s cid message message_type).1.1.
Proof.
  intros Hok. unfold send_message.
  destruct (active_connections s !! cid); [|done].
  destruct (send_text_ok env cid _); simpl.
  - by apply (tables_ok_ext s).
  - by apply disconnect_tables_ok.
Qed.

Lemma send_error_tables_ok env now s cid error_message :
  tables_ok s → tables_ok (send_error env now s cid error_message).1.
Proof.
  intros Hok. unfold send_error.
  pose proof (send_message_tables_ok env now s cid
                (mkMessage (Some "error") None None
                   [("error", error_message); ("timestamp", pretty now)]) None Hok)
    as H.
  by destruct (send_message _ _ _ _ _ _) as [[s' m] sent].
Qed.

Lemma run_handler_tables_ok env now s cid h text :
  tables_ok s → tables_ok (run_handler env now s cid h text).
Proof.
  intros Hok. destruct h; simpl.
  - by apply send_message_tables_ok.
  - by do 2 apply send_message_tables_ok.
  - destruct text as [[|c t]|].
    + by apply send_error_tables_ok.
    + by do 2 apply send_message_tables_ok.
    + by apply send_error_tables_ok.
Qed.

Lemma process_message_tables_ok env now s cid ty text :
  tables_ok s → tables_ok (_process_message env now s cid ty text).
Proof.
  intros Hok. unfold _process_message.
  destruct (message_handlers s !! ty).
  - by apply run_handler_tables_ok.
  - by apply send_error_tables_ok.
Qed.

Lemma handle_frame_tables_ok env now s cid f :
  tables_ok s → tables_ok (handle_frame env now s cid f).
Proof.
  intros Hok. destruct f as [| |ty text]; simpl.
  - by apply send_error_tables_ok.
  - by apply send_error_tables_ok.
  - apply process_message_tables_ok.
    destruct Hok as (Hdom & Hcur & Htot & Hrec & Hinfo). unfold tables_ok. simpl.
    split; [by rewrite dom_alter_L|]. split; [done|]. split; [done|].
    split; [lia|]. intros c ci. destruct (decide (c = cid)) as [->|Hne].
    + rewrite lookup_alter_eq.
      destruct (connection_info s !! cid) as [x|] eqn:Hx; [|done].
      simpl. intros [= <-]. simpl. destruct (Hinfo _ _ Hx) as (?&?&?).
      repeat split; done || lia.
    + rewrite lookup_alter_ne by done. intros Hc.
      destruct (Hinfo _ _ Hc) as (?&?&?). repeat split; done || lia.
Qed.

Lemma handle_messages_tables_ok env now s cid frames :
  tables_ok s → tables_ok (_handle_messages env now s cid frames).
Proof.
  intros Hok. unfold _handle_messages. destruct (running s); [|done].
  revert s Hok. induction frames as [|f frames IH]; intros s Hok; simpl; [done|].
  apply IH. by apply handle_frame_tables_ok.
Qed.

Lemma accepted_tables_ok now s websocket cid :
  tables_ok s → tables_ok (accepted now s websocket cid).
Proof.
  intros (Hdom & Hcur & Htot & Hrec & Hinfo). unfold tables_ok. simpl.
  split; [by rewrite !dom_insert_L, Hdom|]. split; [done|].
  split.
  { rewrite map_size_insert. destruct (active_connections s !! cid); simpl; lia. }
  split; [done|]. intros c ci. destruct (decide (c = cid)) as [->|Hne].
  - rewrite lookup_insert_eq. intros [= <-]. simpl. repeat split; done || lia.
  - rewrite lookup_insert_ne by done. apply Hinfo.
Qed.

Lemma handle_connection_tables_ok env now s websocket cid frames :
  tables_ok s → tables_ok (handle_connection env now s websocket cid frames).
Proof.
  intros Hok. unfold handle_connection. destruct (accept_ok env cid).
  - apply handle_messages_tables_ok, send_message_tables_ok.
    by apply accepted_tables_ok.
  - by apply disconnect_tables_ok.
Qed.

Lemma disconnect_all_tables_ok env s cids :
  tables_ok s → tables_ok (foldl (λ acc cid, disconnect env acc cid) s cids).
Proof.
  revert s. induction cids as [|cid cids IH]; intros s Hok; simpl; [done|].
  apply IH. by apply disconnect_tables_ok.
Qed.

Lemma broadcast_message_tables_ok env now s message exclude_connections :
  tables_ok s →
  tables_ok (broadcast_message env now s message exclude_connections).1.
Proof.
  intros Hok. unfold broadcast_message.
  generalize (elements (dom (active_connections s))) as cids.
  generalize 0 as n. intros n cids. revert s message n Hok.
  induction cids as [|cid cids IH]; intros s message n Hok; simpl; [done|].
  destruct (decide (cid ∈ exclude_connections)); [by apply IH|].
  pose proof (send_message_tables_ok env now s cid message None Hok) as H.
  destruct (send_message env now s cid message None) as [[s' m'] sent].
  by apply IH.
Qed.

Lemma step_tables_ok env now op s : tables_ok s → tables_ok (step env now op s).
Proof.
  intros Hok. destruct op; simpl.
  - by apply (tables_ok_ext s).
  - by apply handle_connection_tables_ok.
  - by apply send_message_tables_ok.
  - by apply broadcast_message_tables_ok.
  - by apply disconnect_tables_ok.
  - by apply disconnect_all_tables_ok.
  - unfold heartbeat. case_decide; [done|]. by apply broadcast_message_tables_ok.
  - unfold shutdown. apply disconnect_all_tables_ok. by apply (tables_ok_ext s).
Qed.

Lemma run_tables_ok_init ops : tables_ok (run ops init).
Proof.
  assert (∀ s, tables_ok s → tables_ok (run ops s)) as Hrun.
  { unfold run. induction ops as [|[[env now] op] ops IH]; intros s Hok; simpl;
      [done|].
    apply IH. by apply step_tables_ok. }
  apply Hrun. unfold tables_ok. simpl.
  split; [by rewrite !dom_empty_L|]. split; [done|]. split; [done|].
  split; [done|]. intros c ci Hc. by rewrite lookup_empty in Hc.
Qed.

(** X23. The bookkeeping of the connection manager adds up in every
    state it reaches from its initial state: the primary table and the
    table of connection records hold the same ids, every record is
    stored under its own connection id, [current_connections] is the
    number of connections in the primary table (the number
    [get_connection_stats] reports as [active_connections]) and is
    never more than [total_connections], and no connection has
    received more messages than [messages_received] counts. *)
Theorem run_tables_ok ops :
  tables_ok (run ops init)
  ∧ (get_connection_stats (run ops init)).2
    = current_connections (get_connection_stats (run ops init)).1.
Proof.
  pose proof (run_tables_ok_init ops) as Hok.
  split; [done|]. destruct Hok as (_ & Hcur & _). simpl. by rewrite Hcur.
Qed.

(** What a series of disconnections leaves in the two tables. *)
Lemma disconnect_all_lookup env s cids :
  let s' := foldl (λ acc cid, disconnect env acc cid) s cids in
  (∀ c, connection_info s' !! c
        = if decide (c ∈ cids) then None else connection_info s !! c)
  ∧ (∀ c, active_connections s' !! c
          = if decide (c ∈ cids) then None else active_connections s !! c)
  ∧ disconnections (stats s') = disconnections (stats s) + Z.of_nat (length cids)
  ∧ running s' = running s.
Proof.
  revert s. induction cids as [|cid cids IH]; intros s; simpl.
  { repeat split; try done; try lia; intros c; by rewrite decide_False by set_solver. }
  destruct (IH (disconnect env s cid)) as (Hi & Ha & Hd & Hr).
  rewrite disconnect_info in Hi. rewrite disconnect_active in Ha.
  rewrite disconnect_stats in Hd. simpl in Hd.
  rewrite (proj1 (disconnect_flags env s cid)) in Hr.
  split; [|split; [|split]]; [| |lia|done].
  - intros c. rewrite Hi. destruct (decide (c = cid)) as [->|Hne].
    + rewrite lookup_delete_eq. rewrite (decide_True (P := cid ∈ cid :: cids)).
      * by case_decide.
      * apply list_elem_of_here.
    + rewrite lookup_delete_ne by done.
      destruct (decide (c ∈ cids)) as [Hin|Hin].
      * rewrite decide_True; [done|]. by apply list_elem_of_further.
      * rewrite decide_False; [done|]. intros [?|?]%elem_of_cons; done.
  - intros c. rewrite Ha. destruct (decide (c = cid)) as [->|Hne].
    + rewrite lookup_delete_eq. rewrite (decide_True (P := cid ∈ cid :: cids)).
      * by case_decide.
      * apply list_elem_of_here.
    + rewrite lookup_delete_ne by done.
      destruct (decide (c ∈ cids)) as [Hin|Hin].
      * rewrite decide_True; [done|]. by apply list_elem_of_further.
      * rewrite decide_False; [done|]. intros [?|?]%elem_of_cons; done.
Qed.

(** The ids the idle sweep disconnects. *)
Lemma idle_sweep_cids now s c :
  c ∈ (map_to_list (filter (λ kv, 300 < now - last_activity kv.2)
                           (connection_info s))).*1
  ↔ ∃ ci, connection_info s !! c = Some ci ∧ 300 < now - last_activity ci.
Proof.
  rewrite list_elem_of_fmap. split.
  - intros ([k ci] & -> & Hk). apply elem_of_map_to_list in Hk.
    apply map_lookup_filter_Some in Hk as [Hk Hidle]. by exists ci.
  - intros (ci & Hc & Hidle). exists (c, ci). split; [done|].
    apply elem_of_map_to_list. by apply map_lookup_filter_Some.
Qed.

(** The primary table after the idle sweep. *)
Lemma idle_sweep_active env now s cid :
  active_connections (idle_sweep env now s) !! cid
  = match connection_info s !! cid with
    | Some conn_info =>
        if decide (300 < now - last_activity conn_info) then None
        else active_connections s !! cid
    | None => active_connections s !! cid
    end.
Proof.
  unfold idle_sweep.
  destruct (disconnect_all_lookup env s
              (map_to_list (filter (λ kv, 300 < now - last_activity kv.2)
                                   (connection_info s))).*1) as (_ & Ha & _).
  rewrite Ha. destruct (connection_info s !! cid) as [ci|] eqn:Hc.
  - destruct (decide (300 < now - last_activity ci)) as [Hidle|Hidle].
    + rewrite decide_True; [done|]. apply idle_sweep_cids. by exists ci.
    + rewrite decide_False; [done|]. intros (ci' & Hc' & ?)%idle_sweep_cids.
      rewrite Hc in Hc'. injection Hc' as <-. done.
  - rewrite decide_False; [done|]. intros (ci' & Hc' & ?)%idle_sweep_cids.
    by rewrite Hc in Hc'.
Qed.

(** X24. The idle sweep removes exactly the connections that have been
    silent for more than 300 seconds: afterwards a connection record is
    there exactly when it was there with its last activity at most 300
    seconds back, the primary table has lost exactly the ids of the
    records removed, the records that remain are unchanged, and one
    disconnection is counted for each record removed. *)
Theorem idle_sweep_removes env now s :
  let s' := idle_sweep env now s in
  (∀ cid, connection_info s' !! cid
          = match connection_info s !! cid with
            | Some conn_info =>
                if decide (300 < now - last_activity conn_info) then None
                else Some conn_info
            | None => None
            end)
  ∧ (∀ cid, active_connections s' !! cid
            = match connection_info s !! cid with
              | Some conn_info =>
                  if decide (300 < now - last_activity conn_info) then None
                  else active_connections s !! cid
              | None => active_connections s !! cid
              end)
  ∧ (∀ cid conn_info, connection_info s' !! cid = Some conn_info →
       now - last_activity conn_info ≤ 300)
  ∧ disconnections (stats s')
    = disconnections (stats s)
      + Z.of_nat (size (filter (λ kv, 300 < now - last_activity kv.2)
                               (connection_info s))).
Proof.
  intros s'.
  assert (∀ c, connection_info s' !! c
               = match connection_info s !! c with
                 | Some conn_info =>
                     if decide (300 < now - last_activity conn_info) then None
                     else Some conn_info
                 | None => None
                 end) as Hinfo.
  { intros c. subst s'. unfold idle_sweep.
    destruct (disconnect_all_lookup env s
                (map_to_list (filter (λ kv, 300 < now - last_activity kv.2)
                                     (connection_info s))).*1) as (Hi & _).
    rewrite Hi. destruct (connection_info s !! c) as [ci|] eqn:Hc.
    - destruct (decide (300 < now - last_activity ci)) as [Hidle|Hidle].
      + rewrite decide_True; [done|]. apply idle_sweep_cids. by exists ci.
      + rewrite decide_False; [done|]. intros (ci' & Hc' & ?)%idle_sweep_cids.
        rewrite Hc in Hc'. injection Hc' as <-. done.
    - by case_decide. }
  split; [exact Hinfo|]. split; [|split].
  - intros c. apply idle_sweep_active.
  - intros c ci. rewrite Hinfo. destruct (connection_info s !! c) as [x|]; [|done].
    case_decide; [done|]. intros [= <-]. lia.
  - subst s'. unfold idle_sweep.
    destruct (disconnect_all_lookup env s
                (map_to_list (filter (λ kv, 300 < now - last_activity kv.2)
                                     (connection_info s))).*1) as (_ & _ & Hd & _).
    rewrite Hd. by rewrite length_fmap, length_map_to_list.
Qed.

(** X25. After [send_message] the connection is in the primary table
    exactly when the message was sent: a send to an unknown connection
    or one the transport refuses returns [False] and leaves the
    connection unregistered, a send that returns [True] leaves it
    registered; [messages_sent] goes up by one exactly when the result
    is [True], and no other connection is added or removed. *)
Theorem send_message_result env now s cid message message_type :
  let s' := (send_message env now s cid message message_type).1.1 in
  let sent := (send_message env now s cid message message_type).2 in
  (sent = true ↔ cid ∈ dom (active_connections s'))
  ∧ messages_sent (stats s')
    = messages_sent (stats s) + (if sent then 1 else 0)
  ∧ ∀ c, c ≠ cid → active_connections s' !! c = active_connections s !! c.
Proof.
  intros s' sent. subst s' sent. unfold send_message.
  destruct (active_connections s !! cid) as [websocket|] eqn:Hc; simpl.
  - destruct (send_text_ok env cid _); simpl.
    + split; [|split; [done|done]]. split; [|done]. intros _.
      apply elem_of_dom. by eexists.
    + rewrite disconnect_active, disconnect_stats. simpl.
      split; [|split; [lia|]].
      * split; [done|]. rewrite dom_delete_L.
        intros [_ Hn]%elem_of_difference. destruct Hn. by apply elem_of_singleton.
      * intros c Hne. by rewrite lookup_delete_ne.
  - split; [|split; [lia|done]]. split; [done|].
    intros Hin. apply elem_of_dom in Hin as [x Hx]. congruence.
Qed.

Lemma size_difference_filter (X Y : gset string) :
  size (X ∖ Y) = length (filter (λ c, c ∉ Y) (elements X)).
Proof.
  unfold size, set_size. simpl. apply Permutation_length, NoDup_Permutation.
  - apply NoDup_elements.
  - apply NoDup_filter, NoDup_elements.
  - intros x. rewrite elem_of_elements, list_elem_of_filter, elem_of_elements,
      elem_of_difference. tauto.
Qed.

Lemma send_message_cases env now s cid websocket message message_type :
  active_connections s !! cid = Some websocket →
  send_message env now s cid message message_type
  = (with_stats s
       (mkStats (total_connections (stats s)) (current_connections (stats s))
                (messages_sent (stats s) + 1) (messages_received (stats s))
                (disconnections (stats s)) (errors (stats s))),
     complete env now message_type message, true)
  ∨ send_message env now s cid message message_type
    = (disconnect env s cid, complete env now message_type message, false).
Proof.
  intros Hws. unfold send_message. rewrite Hws.
  destruct (send_text_ok env cid _); [by left | by right].
Qed.

(** The accounts of a broadcast over a list of distinct registered
    ids. *)
Lemma broadcast_fold env now (exclude_connections : gset string) cids :
  NoDup cids →
  ∀ s message n,
    (∀ c, c ∈ cids → c ∈ dom (active_connections s)) →
    let r :=
      foldl (λ '(acc, msg, n) cid,
               if decide (cid ∈ exclude_connections) then (acc, msg, n)
               else let '(acc', msg', sent) := send_message env now acc cid msg None in
                    (acc', msg', if sent then n + 1 else n))
            (s, message, n) cids in
    messages_sent (stats r.1.1) = messages_sent (stats s) + (r.2 - n)
    ∧ n ≤ r.2
    ∧ (r.2 - n) + Z.of_nat (size (active_connections s))
      - Z.of_nat (size (active_connections r.1.1))
      = Z.of_nat (length (filter (λ c, c ∉ exclude_connections) cids))
    ∧ (∀ c, c ∉ cids ∨ c ∈ exclude_connections →
         active_connections r.1.1 !! c = active_connections s !! c)
    ∧ dom (active_connections r.1.1) ⊆ dom (active_connections s).
Proof.
  induction cids as [|cid cids IH]; intros Hnd s message n Hdom.
  { simpl. repeat split; try done; lia. }
  apply NoDup_cons in Hnd as [Hcid Hnd].
  rewrite filter_cons. simpl.
  destruct (decide (cid ∈ exclude_connections)) as [Hex|Hex].
  { rewrite decide_False by (intros H; by apply H).
    destruct (IH Hnd s message n) as (H1 & H2 & H3 & H4 & H5).
    { intros c Hc. apply Hdom. by apply list_elem_of_further. }
    split; [done|]. split; [done|]. split; [done|]. split; [|done].
    intros c [Hc|Hc]; apply H4; [left|by right].
    intros H. apply Hc. by apply list_elem_of_further. }
  rewrite decide_True by done.
  assert (is_Some (active_connections s !! cid)) as [websocket Hws].
  { apply elem_of_dom, Hdom, list_elem_of_here. }
  destruct (send_message_cases env now s cid websocket message None Hws)
    as [-> | ->].
  - destruct (IH Hnd
                (with_stats s
                   (mkStats (total_connections (stats s))
                            (current_connections (stats s))
                            (messages_sent (stats s) + 1)
                            (messages_received (stats s))
                            (disconnections (stats s)) (errors (stats s))))
                (complete env now None message) (n + 1))
      as (H1 & H2 & H3 & H4 & H5).
    { intros c Hc. simpl. apply Hdom. by apply list_elem_of_further. }
    simpl in *. split; [lia|]. split; [lia|]. split; [lia|]. split; [|done].
    intros c [Hc|Hc]; apply H4; [left|by right].
    intros H. apply Hc. by apply list_elem_of_further.
  - destruct (IH Hnd (disconnect env s cid) (complete env now None message) n)
      as (H1 & H2 & H3 & H4 & H5).
    { intros c Hc. rewrite disconnect_active, dom_delete_L.
      apply elem_of_difference. split.
      - apply Hdom. by apply list_elem_of_further.
      - intros ->%elem_of_singleton. done. }
    rewrite disconnect_active in H3, H4, H5. rewrite disconnect_stats in H1.
    simpl in H1.
    rewrite map_size_delete, Hws in H3. simpl in H3.
    assert (0 < size (active_connections s))%nat as Hpos.
    { destruct (decide (size (active_connections s) = 0%nat)) as [H0|H0]; [|lia].
      apply map_size_empty_iff in H0. rewrite H0 in Hws.
      by rewrite lookup_empty in Hws. }
    cbn [length].
    split; [lia|]. split; [lia|]. split; [lia|]. split.
    + intros c [Hc|Hc].
      * rewrite H4.
        -- apply lookup_delete_ne. intros ->. apply Hc, list_elem_of_here.
        -- left. intros H. apply Hc. by apply list_elem_of_further.
      * rewrite H4 by (by right). apply lookup_delete_ne. by intros ->.
    + etrans; [exact H5|]. rewrite dom_delete_L.
      intros x [Hx _]%elem_of_difference. done.
Qed.

(** X26. A broadcast accounts for every connection it was meant for:
    the number it returns is the increase of [messages_sent], and that
    number plus the number of connections it has removed is the number
    of connections that were registered and not excluded. Excluded
    connections stay as they were and no connection is added. *)
Theorem broadcast_message_accounts env now s message exclude_connections :
  let s' := (broadcast_message env now s message exclude_connections).1 in
  let sent_count := (broadcast_message env now s message exclude_connections).2 in
  messages_sent (stats s') = messages_sent (stats s) + sent_count
  ∧ 0 ≤ sent_count
  ∧ sent_count
    + (Z.of_nat (size (active_connections s))
       - Z.of_nat (size (active_connections s')))
    = Z.of_nat (size (dom (active_connections s) ∖ exclude_connections))
  ∧ (∀ cid, cid ∈ exclude_connections →
       active_connections s' !! cid = active_connections s !! cid)
  ∧ dom (active_connections s') ⊆ dom (active_connections s).
Proof.
  intros s' sent_count. subst s' sent_count. unfold broadcast_message.
  pose proof (broadcast_fold env now exclude_connections
                (elements (dom (active_connections s)))
                (NoDup_elements _) s message 0) as H.
  destruct H as (H1 & H2 & H3 & H4 & H5).
  { intros c Hc. by apply elem_of_elements in Hc. }
  rewrite size_difference_filter.
  destruct (foldl _ _ _) as [[s' msg'] n']. simpl in *.
  split; [lia|]. split; [lia|]. split; [lia|]. split; [|done].
  intros cid Hex. apply H4. by right.
Qed.

Section Registered.
Variables (env : Env) (now : Z) (cid : string) (websocket : WebSocket)
  (d : Z) (r : bool).
Hypothesis send_ok : ∀ message, send_text_ok env cid message = true.





Lemma received_count k ci :
  received now (mkConnectionInfo (connection_id ci) (client_ip ci) (user_agent ci)
                  (connected_at ci) now k (user_id ci) (session_id ci))
  = mkConnectionInfo (connection_id ci) (client_ip ci) (user_agent ci)
                     (connected_at ci) now (k + 1) (user_id ci) (session_id ci).
Proof. done. Qed.


End Registered.



(** X28. A shutdown leaves nothing registered: from any state the
    manager reaches from its initial state, [shutdown] empties both
    connection tables, clears the flag [running], brings
    [current_connections] to 0, and counts one disconnection for each
    connection that was registered. *)
Theorem shutdown_empties ops env :
  let s := run ops init in
  let s' := shutdown env s in
  active_connections s' = ∅
  ∧ connection_info s' = ∅
  ∧ running s' = false
  ∧ current_connections (stats s') = 0
  ∧ disconnections (stats s')
    = disconnections (stats s) + current_connections (stats s).
Proof.
  intros s s'.
  pose proof (run_tables_ok_init ops) as Hok. fold s in Hok.
  pose proof (step_tables_ok env 0 Shutdown s Hok) as Hok'. simpl in Hok'.
  fold s' in Hok'.
  destruct Hok as (Hdom & Hcur & _). destruct Hok' as (_ & Hcur' & _).
  subst s'. unfold shutdown in *.
  set (s1 := mkManager (active_connections s) (connection_info s)
               (user_connections s) (session_connections s) (message_handlers s)
               false (stats s)) in *.
  destruct (disconnect_all_lookup env s1 (elements (dom (active_connections s1))))
    as (Hi & Ha & Hd & Hr).
  assert (active_connections
            (foldl (λ acc cid, disconnect env acc cid) s1
                   (elements (dom (active_connections s1)))) = ∅) as Hae.
  { apply map_empty. intros c. rewrite Ha. case_decide as Hc; [done|].
    apply not_elem_of_dom. intros Hin. apply Hc. by apply elem_of_elements. }
  split; [done|]. split; [|split; [done|split]].
  - apply map_empty. intros c. rewrite Hi. case_decide as Hc; [done|].
    apply not_elem_of_dom. simpl. rewrite <- Hdom. intros Hin. apply Hc.
    by apply elem_of_elements.
  - rewrite Hcur', Hae. by rewrite map_size_empty.
  - rewrite Hd. simpl. rewrite Hcur. f_equal. f_equal.
    rewrite <- size_dom. done.
Qed.

End WebSocketTablesProofs.
(** ** Health summary *)

Module HealthCheckProofs.
Import ServiceDiscovery ServiceDiscoveryAdmin HealthCheck.

Lemma count_external_le status (external_services : gmap string string) :
  0 ≤ count_external status external_services
  ∧ count_external status external_services ≤ Z.of_nat (size external_services).
Proof.
  unfold count_external. split; [lia|].
  apply inj_le. apply map_size_filter.
Qed.

(** X29. The component counts of the health summary are consistent
    right after a probe cycle: in every registry reached from the empty
    one that holds an instance, after a probe cycle the number of
    healthy components is at most the number of components, whatever
    the external services report; and in every reachable registry the
    status given for the discovery component is "healthy". *)
Theorem healthy_components_after_cycle ops now probe_of
    (external_services : gmap string string) :
  let sd := run ops init in
  let sd' := _perform_health_checks now probe_of sd in
  discovery_status (stats sd) = "healthy"
  ∧ (services sd ≠ [] →
     0 ≤ _count_healthy_components (stats sd') external_services
     ∧ _count_healthy_components (stats sd') external_services
       ≤ _count_total_components (stats sd') external_services).
Proof.
  intros sd sd'.
  assert (counts_ok sd) as Hc.
  { subst sd. assert (counts_ok init) as Hinit by (by repeat split).
    revert Hinit. generalize init. unfold run.
    induction ops as [|[t op] ops IH]; intros sd0 H0; simpl; [done|].
    apply IH. by apply ServiceDiscoveryAdminProofs.step_counts_ok. }
  pose proof (ServiceDiscoveryAdminProofs.step_counts_ok now (ProbeCycle probe_of)
                sd Hc) as Hc'.
  simpl in Hc'. fold sd' in Hc'.
  destruct Hc as (Htot & _). destruct Hc' as (Htot' & _).
  split.
  { unfold discovery_status. rewrite decide_True; [done|]. rewrite Htot. lia. }
  intros Hne.
  assert (healthy_services (stats sd') = count_status "healthy" sd') as Hh.
  { subst sd'. unfold _perform_health_checks.
    destruct (services sd) as [|e d] eqn:Hs; [done|].
    by destruct (check_all now probe_of (e :: d) (stats sd)) as [d' st']. }
  destruct (count_external_le "healthy" external_services) as [He0 He1].
  unfold _count_healthy_components, _count_total_components.
  rewrite Hh, Htot'. unfold count_status, get_all_services.
  pose proof (length_filter (λ s, health_status s = "healthy")
                (PyDict.values (services sd'))).
  split; lia.
Qed.

Lemma healthy_components_after_cycle_witness :
  let data := mkData (Some "stt-1") "stt" "1.0" "10.0.0.5" 8001 None None None None None in
  let ops := [(10, RegisterService data "u1")] in
  let probe_of : string → Probe := λ _, Returns (200, (12 # 1)%Q) in
  let sd' := _perform_health_checks 40 probe_of (run ops init) in
  let external_services : gmap string string := {["openai" := "unhealthy"]} in
  0 ≤ _count_healthy_components (stats sd') external_services
  ∧ _count_healthy_components (stats sd') external_services
    ≤ _count_total_components (stats sd') external_services.
Proof.
  intros data ops probe_of sd' external_services.
  destruct (healthy_components_after_cycle ops 40 probe_of external_services)
    as [_ H].
  apply H. discriminate.
Defined.

(** X30. The overall verdict and the list of critical issues agree on
    the resources: the verdict is "unhealthy" exactly when the metrics
    could not be read; it is "healthy" exactly when the metrics were
    read, none of memory, CPU and disk is above 90 percent, the
    unhealthy services do not outnumber the healthy ones, and no
    external service is unhealthy; and when it is "healthy" the only
    critical issue that can be listed is the number of unhealthy
    services. *)
Theorem overall_health_verdict service_stats system_metrics
    (external_services : gmap string string) :
  let verdict :=
    _determine_overall_health service_stats system_metrics external_services in
  verdict ∈ ["healthy"; "degraded"; "unhealthy"]
  ∧ (verdict = "unhealthy" ↔ ∃ message, system_metrics = MetricsError message)
  ∧ (verdict = "healthy"
     ↔ (∃ usage, system_metrics = Metrics usage)
       ∧ over_90 (reading system_metrics memory_usage_percent) = false
       ∧ over_90 (reading system_metrics cpu_usage_percent) = false
       ∧ over_90 (reading system_metrics disk_usage_percent) = false
       ∧ unhealthy_services service_stats ≤ healthy_services service_stats
       ∧ ∀ nm, external_services !! nm ≠ Some "unhealthy")
  ∧ (verdict = "healthy" →
     ∀ issue, issue ∈ _get_critical_issues service_stats system_metrics →
       issue = pretty (unhealthy_services service_stats) +:+ " unhealthy services").
Proof.
  intros verdict.
  assert (count_external "unhealthy" external_services ≤ 0
          ↔ ∀ nm, external_services !! nm ≠ Some "unhealthy") as Hext.
  { unfold count_external. split.
    - intros Hle nm Hnm.
      assert (size (filter (λ kv : string * string, kv.2 = "unhealthy")
                           external_services) = 0%nat) as H0 by lia.
      apply map_size_empty_iff in H0.
      by apply (map_filter_empty_not_lookup _ _ nm "unhealthy" H0).
    - intros Hno.
      assert (filter (λ kv : string * string, kv.2 = "unhealthy") external_services
              = ∅) as ->.
      { apply map_empty. intros nm. apply map_lookup_filter_None.
        destruct (external_services !! nm) as [x|] eqn:Hx; [|by left].
        right. intros y [= <-] Hy. simpl in Hy. subst. by apply (Hno nm). }
      by rewrite map_size_empty. }
  assert (verdict = "healthy"
          ↔ (∃ usage, system_metrics = Metrics usage)
            ∧ over_90 (reading system_metrics memory_usage_percent) = false
            ∧ over_90 (reading system_metrics cpu_usage_percent) = false
            ∧ over_90 (reading system_metrics disk_usage_percent) = false
            ∧ unhealthy_services service_stats ≤ healthy_services service_stats
            ∧ ∀ nm, external_services !! nm ≠ Some "unhealthy") as Hhealthy.
  { subst verdict. unfold _determine_overall_health.
    destruct system_metrics as [msg|usage].
    { split; [done|]. by intros [[u Hu] _]. }
    rewrite <- Hext.
    destruct (over_90 (reading (Metrics usage) memory_usage_percent));
      [split; [done|by intros (_ & ? & _)]|].
    destruct (over_90 (reading (Metrics usage) cpu_usage_percent));
      [split; [done|by intros (_ & _ & ? & _)]|].
    destruct (over_90 (reading (Metrics usage) disk_usage_percent));
      [split; [done|by intros (_ & _ & _ & ? & _)]|].
    repeat case_decide; split; try done.
    - intros (_ & _ & _ & _ & ? & _). lia.
    - intros (_ & _ & _ & _ & _ & ?). lia.
    - intros _. repeat split; try done; [by eexists | lia | lia]. }
  split; [|split; [|split; [exact Hhealthy|]]].
  - subst verdict. unfold _determine_overall_health.
    destruct system_metrics as [msg|usage].
    { do 2 apply list_elem_of_further. apply list_elem_of_here. }
    repeat (match goal with
            | |- context [if ?b then _ else _] => destruct b
            end;
            [apply list_elem_of_further, list_elem_of_here|]).
    apply list_elem_of_here.
  - subst verdict. unfold _determine_overall_health.
    destruct system_metrics as [msg|usage].
    { split; [by eexists | done]. }
    split; [|by intros [m Hm]].
    repeat (match goal with
            | |- context [if ?b then _ else _] => destruct b
            end; [done|]).
    done.
  - intros Hv. apply Hhealthy in Hv as (_ & Hm & Hc & Hd & _).
    unfold _get_critical_issues. rewrite Hm, Hc, Hd. simpl.
    intros issue. case_decide; [|by intros H'%elem_of_nil].
    by intros ->%list_elem_of_singleton.
Qed.

End HealthCheckProofs.

(** ** Cache service: values of any type *)

Module CacheValuesProofs.
Import Exceptions CacheValues.

Implicit Types (c : CacheService) (r : Redis) (v : PyValue).

Section WithJson.
Variable json_dumps : PyValue → outcome string.
Variable json_loads : string → outcome PyValue.

Local Abbreviation get := (CacheValues.get json_loads).
Local Abbreviation set := (CacheValues.set json_dumps).
Local Abbreviation peek := (CacheValues.peek json_loads).
Local Abbreviation serialized := (CacheValues.serialized json_dumps).
Local Abbreviation loads_or_text := (CacheValues.loads_or_text json_loads).

Lemma get_value_peek now key c : (get now key c).2 = peek now key c.
Proof.
  unfold CacheValues.get, CacheValues.peek, redis_get.
  destruct (connected c), (redis c) as [r|]; simpl;
    try (destruct (in_memory_cache c !! key) as [e|]; simpl;
         [case_decide|]; done).
  destruct (available r); simpl; [|done].
  destruct (redis_lookup now key r) as [e|]; simpl; [|done].
  by destruct (loads_or_text (r_value e)).
Qed.

Lemma cleanup_value_lookup now (m : gmap string CacheEntry) k :
  _cleanup_memory_cache now m !! k =
  match m !! k with
  | Some e => if decide (now < expires_at e) then Some e else None
  | None => None
  end.
Proof.
  unfold _cleanup_memory_cache. rewrite map_lookup_filter.
  destruct (m !! k) as [e|]; simpl; [|done].
  case_decide; simpl.
  - rewrite option_guard_True; done.
  - rewrite option_guard_False; done.
Qed.

(** What [set] leaves under the key on the in-memory fallback: the
    object itself. *)
Lemma set_peek_fallback settings now t key v ttl c :
  on_fallback c →
  0 < int_or ttl (CACHE_TTL settings) →
  now ≤ t →
  (set settings now key v ttl c).2 = true
  ∧ peek t key (set settings now key v ttl c).1
    = if decide (t < now + int_or ttl (CACHE_TTL settings)) then v else PyNone.
Proof.
  unfold on_fallback, CacheValues.set, CacheValues.peek. intros Hfb Httl Hle.
  destruct (connected c) eqn:Hc, (redis c) as [r|] eqn:Hre; simpl in *; try done.
  all: rewrite ?Hc, ?Hre; split; [done|].
  all: case_decide; rewrite ?cleanup_value_lookup, lookup_insert_eq; simpl;
    rewrite ?decide_True by lia; done.
Qed.

(** What [set] leaves under the key on a Redis server that answers:
    the text. *)
Lemma set_peek_redis settings now t key v ttl c text :
  answers c → ¬ on_fallback c →
  0 < int_or ttl (CACHE_TTL settings) →
  now ≤ t →
  serialized v = Returns text →
  (set settings now key v ttl c).2 = true
  ∧ peek t key (set settings now key v ttl c).1
    = if decide (t < now + int_or ttl (CACHE_TTL settings))
      then match loads_or_text text with inr x => x | inl _ => PyNone end
      else PyNone.
Proof.
  unfold answers, on_fallback, CacheValues.set, CacheValues.peek, redis_setex,
    redis_lookup.
  intros Ha Hnfb Httl Hle Hser.
  destruct (connected c) eqn:Hc, (redis c) as [r|] eqn:Hre; simpl in *; try done.
  rewrite Hser. unfold Returns. rewrite Ha. rewrite decide_True by done. simpl.
  split; [done|]. rewrite lookup_insert_eq. simpl. by case_decide.
Qed.

Lemma set_value_frame settings now t key k v ttl c :
  answers c → k ≠ key → now ≤ t →
  peek t k (set settings now key v ttl c).1 = peek t k c.
Proof.
  unfold answers, CacheValues.set, CacheValues.peek, redis_setex, redis_lookup.
  intros Ha Hne Hle.
  destruct (connected c) eqn:Hc, (redis c) as [r|] eqn:Hre; simpl.
  2-4: rewrite ?Hc, ?Hre; case_decide;
       rewrite ?cleanup_value_lookup, lookup_insert_ne by done;
       try done; destruct (in_memory_cache c !! k) as [e|]; simpl; try done;
       repeat case_decide; try done; lia.
  destruct (serialized v) as [e|text]; simpl; rewrite ?Hre, ?Ha; [done|].
  case_decide; simpl; rewrite ?Hre, ?Ha; [|done].
  by rewrite lookup_insert_ne.
Qed.

Lemma loads_or_text_Returns text v :
  json_loads text = Returns v → loads_or_text text = Returns v.
Proof. intros H. unfold CacheValues.loads_or_text. by rewrite H. Qed.

Lemma serialized_cases v text :
  v = PyStr text ∨ ((∀ s, v ≠ PyStr s) ∧ json_dumps v = Returns text) →
  serialized v = Returns text.
Proof. intros [->|[Hns Hd]]; [done|]. destruct v; try done. by destruct (Hns s). Qed.

(** X7. Round trip through the cache, for a value of any type, on a
    store that answers and with a positive time-to-live. On the
    in-memory fallback [set] succeeds and a [get] from then on returns
    the very object until the time-to-live has run out. On a Redis
    server the text stored is the value itself when it is a [str] and
    [json.dumps] of it otherwise; [set] succeeds, and [get] returns
    what [json.loads] makes of the text, the text itself when
    [json.loads] raises [JSONDecodeError], and [None] when it raises
    anything else. So a value comes back unchanged when [json.loads]
    gives it back, and a [str] that is JSON comes back decoded. When
    [json.dumps] raises, [set] returns [False]. After the time-to-live
    [get] returns [None], and the other keys read as before
    throughout. *)
Theorem set_then_get settings now t key v ttl c :
  answers c →
  0 < int_or ttl (CACHE_TTL settings) →
  now ≤ t →
  let c' := (set settings now key v ttl c).1 in
  let live := t < now + int_or ttl (CACHE_TTL settings) in
  (on_fallback c →
     (set settings now key v ttl c).2 = true
     ∧ (get t key c').2 = if decide live then v else PyNone)
  ∧ (¬ on_fallback c → ∀ text,
     v = PyStr text ∨ ((∀ s, v ≠ PyStr s) ∧ json_dumps v = Returns text) →
     (set settings now key v ttl c).2 = true
     ∧ (∀ x, json_loads text = Returns x →
          (get t key c').2 = if decide live then x else PyNone)
     ∧ (∀ e, json_loads text = Raises e → is_JSONDecodeError e = true →
          (get t key c').2 = if decide live then PyStr text else PyNone)
     ∧ (∀ e, json_loads text = Raises e → is_JSONDecodeError e = false →
          (get t key c').2 = PyNone))
  ∧ (¬ on_fallback c → (∀ s, v ≠ PyStr s) → ∀ e, json_dumps v = Raises e →
     (set settings now key v ttl c).2 = false)
  ∧ (∀ k, k ≠ key → (get t k c').2 = (get t k c).2).
Proof.
  intros Ha Httl Hle c' live. unfold c', live.
  split; [|split; [|split]].
  - intros Hfb. rewrite get_value_peek. by apply set_peek_fallback.
  - intros Hnfb text Hser. apply serialized_cases in Hser.
    rewrite get_value_peek.
    destruct (set_peek_redis settings now t key v ttl c text) as [Hs Hp]; try done.
    split; [done|]. rewrite Hp. unfold CacheValues.loads_or_text.
    split; [|split].
    + intros x Hl. by rewrite Hl.
    + intros e Hl He. rewrite Hl. unfold Raises. by rewrite He.
    + intros e Hl He. rewrite Hl. unfold Raises. rewrite He. by case_decide.
  - intros Hnfb Hns e Hd. unfold on_fallback in Hnfb. unfold CacheValues.set.
    destruct (connected c), (redis c) as [r|]; simpl in *; try done.
    destruct v; simpl; rewrite ?Hd; try done. by destruct (Hns s).
  - intros k Hne. rewrite !get_value_peek. by apply set_value_frame.
Qed.

Lemma exists_peek_value now key c :
  (get now key c).2 ≠ PyNone → (exists_ now key c).2 = true.
Proof.
  rewrite get_value_peek.
  unfold CacheValues.peek, exists_, redis_exists.
  destruct (connected c), (redis c) as [r|]; simpl;
    try (destruct (in_memory_cache c !! key) as [e|]; simpl; [|done];
         case_decide; [by rewrite bool_decide_eq_true|done]).
  destruct (available r); simpl; [|done].
  by destruct (redis_lookup now key r).
Qed.

Lemma exists_frame now t key k c :
  peek t k (exists_ now key c).1 = peek t k c.
Proof.
  unfold exists_, redis_exists, CacheValues.peek.
  destruct (connected c) eqn:Hc, (redis c) as [r|] eqn:Hr; simpl.
  2-4: destruct (in_memory_cache c !! key) as [e|]; simpl; by rewrite ?Hc, ?Hr.
  destruct (available r) eqn:Ha; simpl; by rewrite ?Hc, ?Hr, ?Ha.
Qed.

Lemma set_exists settings now key v ttl c :
  answers c →
  0 < int_or ttl (CACHE_TTL settings) →
  (set settings now key v ttl c).2 = true →
  (exists_ now key (set settings now key v ttl c).1).2 = true.
Proof.
  unfold answers, CacheValues.set, exists_, redis_setex, redis_exists, redis_lookup.
  intros Ha Httl.
  destruct (connected c) eqn:Hc, (redis c) as [r|] eqn:Hre; simpl.
  2-4: rewrite ?Hc, ?Hre; intros _; case_decide;
       rewrite ?cleanup_value_lookup, lookup_insert_eq; simpl;
       rewrite ?decide_True by lia; simpl; rewrite bool_decide_eq_true; lia.
  destruct (serialized v) as [e|text]; simpl; [done|].
  rewrite Ha. rewrite decide_True by done. simpl. intros _.
  rewrite lookup_insert_eq. simpl. rewrite decide_True by lia. done.
Qed.

Lemma set_none_get settings now key ttl c :
  answers c →
  0 < int_or ttl (CACHE_TTL settings) →
  on_fallback c
  ∨ (∃ text, json_dumps PyNone = Returns text ∧ json_loads text = Returns PyNone) →
  (set settings now key PyNone ttl c).2 = true
  ∧ (get now key (set settings now key PyNone ttl c).1).2 = PyNone.
Proof.
  intros Ha Httl Hjson. rewrite get_value_peek.
  destruct (decide (on_fallback c)) as [Hfb|Hnfb].
  - destruct (set_peek_fallback settings now now key PyNone ttl c) as [Hs Hp];
      try done.
    split; [done|]. rewrite Hp. by case_decide.
  - destruct Hjson as [Hfb|(text & Hd & Hl)]; [done|].
    destruct (set_peek_redis settings now now key PyNone ttl c text) as [Hs Hp];
      try done.
    split; [done|]. rewrite Hp, (loads_or_text_Returns _ _ Hl). by case_decide.
Qed.

(** X8. A value returned by [get] means that [exists] answers [True] at
    that moment, on either backend and also when the Redis server
    cannot be reached (both then report a miss), and [exists] leaves
    what the cache holds as it was. The converse fails: after
    [set(key, None)] on a store that answers (on a Redis server: when
    [json.dumps(None)] is a text that [json.loads] turns back into
    [None], as [null] is), [exists] answers [True] while [get] returns
    [None], as it does for a key that is missing. *)
Theorem exists_without_value now key c :
  ((get now key c).2 ≠ PyNone → (exists_ now key c).2 = true)
  ∧ (∀ t k, (get t k (exists_ now key c).1).2 = (get t k c).2)
  ∧ (∀ settings ttl,
       answers c →
       0 < int_or ttl (CACHE_TTL settings) →
       on_fallback c
       ∨ (∃ text, json_dumps PyNone = Returns text
                  ∧ json_loads text = Returns PyNone) →
       let c' := (set settings now key PyNone ttl c).1 in
       (set settings now key PyNone ttl c).2 = true
       ∧ (exists_ now key c').2 = true
       ∧ (get now key c').2 = PyNone).
Proof.
  split; [apply exists_peek_value|]. split.
  { intros t k. rewrite !get_value_peek. apply exists_frame. }
  intros settings ttl Ha Httl Hjson c'. unfold c'.
  destruct (set_none_get settings now key ttl c Ha Httl Hjson) as [Hs Hg].
  split; [done|]. split; [by apply set_exists|done].
Qed.

(** The cache service with integer counters is this service at integer
    values: [get], [set] and [exists] agree on the caches that
    [of_int_cache] embeds, when [json.dumps] and [json.loads] take an
    [int] to its decimal text and back. *)
Lemma of_int_redis_lookup now key (r : Cache.Redis) :
  redis_lookup now key (of_int_redis r)
  = (λ e, mkRedisEntry (pretty (Cache.r_value e)) (Cache.r_expires_at e))
      <$> Cache.redis_lookup now key r.
Proof.
  unfold redis_lookup, Cache.redis_lookup, of_int_redis. simpl.
  rewrite lookup_fmap. destruct (Cache.db r !! key) as [e|]; [|done].
  cbn [fmap option_fmap option_map r_expires_at].
  destruct (Cache.r_expires_at e) as [x|] eqn:Hx.
  - destruct (decide (now < x)); [|done]. simpl. by rewrite Hx.
  - simpl. by rewrite Hx.
Qed.

Lemma get_of_int now key (c : Cache.CacheService) :
  json_on_ints json_dumps json_loads →
  get now key (of_int_cache c)
  = (of_int_cache (Cache.get now key c).1, of_int_result (Cache.get now key c).2).
Proof.
  intros Hjson. unfold CacheValues.get, Cache.get, of_int_cache. simpl.
  destruct (Cache.connected c) eqn:Hc, (Cache.redis c) as [r|] eqn:Hr; simpl.
  2-4: rewrite lookup_fmap;
       destruct (Cache.in_memory_cache c !! key) as [e|]; simpl;
       [case_decide; simpl; rewrite ?Hr, ?fmap_delete; done | by rewrite ?Hr].
  unfold redis_get, Cache.redis_get. simpl.
  destruct (Cache.available r) eqn:Ha; simpl; [|by rewrite ?Hr].
  rewrite of_int_redis_lookup.
  destruct (Cache.redis_lookup now key r) as [e|]; simpl; [|by rewrite ?Hr].
  unfold CacheValues.loads_or_text.
  destruct (Hjson (Cache.r_value e)) as [_ ->]. simpl. by rewrite ?Hr.
Qed.

Lemma cleanup_of_int now (m : gmap string Cache.CacheEntry) :
  _cleanup_memory_cache now (of_int_entry <$> m)
  = of_int_entry <$> Cache._cleanup_memory_cache now m.
Proof.
  unfold _cleanup_memory_cache, Cache._cleanup_memory_cache.
  apply map_eq. intros k.
  rewrite map_lookup_filter, !lookup_fmap, map_lookup_filter.
  destruct (m !! k) as [e|]; simpl; [|done].
  destruct (decide (now < Cache.expires_at e)).
  - rewrite !option_guard_True by done. done.
  - rewrite !option_guard_False by done. done.
Qed.

Lemma set_of_int settings now key n ttl (c : Cache.CacheService) :
  json_on_ints json_dumps json_loads →
  set settings now key (PyInt n) ttl (of_int_cache c)
  = (of_int_cache (Cache.set settings now key n ttl c).1,
     (Cache.set settings now key n ttl c).2).
Proof.
  intros Hjson. unfold CacheValues.set, Cache.set, of_int_cache. simpl.
  destruct (Cache.connected c) eqn:Hc, (Cache.redis c) as [r|] eqn:Hr; simpl.
  2-4: match goal with
       | |- context [mkEntry (PyInt ?x) ?t] =>
           change (mkEntry (PyInt x) t) with (of_int_entry (Cache.mkEntry x t))
       end;
       rewrite <- !fmap_insert, map_size_fmap; case_decide; simpl;
       rewrite ?cleanup_of_int; done.
  destruct (Hjson n) as [-> _]. simpl.
  unfold redis_setex, Cache.redis_setex. simpl.
  destruct (Cache.available r) eqn:Ha; simpl; [|done].
  case_decide; simpl; [|by rewrite ?Ha].
  unfold of_int_redis. simpl. by rewrite fmap_insert.
Qed.

Lemma exists_of_int now key (c : Cache.CacheService) :
  exists_ now key (of_int_cache c)
  = (of_int_cache (CacheKeys.exists_ now key c).1, (CacheKeys.exists_ now key c).2).
Proof.
  unfold exists_, CacheKeys.exists_, of_int_cache. simpl.
  destruct (Cache.connected c) eqn:Hc, (Cache.redis c) as [r|] eqn:Hr; simpl.
  2-4: rewrite lookup_fmap;
       destruct (Cache.in_memory_cache c !! key) as [e|]; simpl;
       by rewrite ?Hc, ?Hr.
  unfold redis_exists, CacheKeys.redis_exists. simpl.
  destruct (Cache.available r) eqn:Ha; simpl; [|by rewrite ?Hr].
  rewrite of_int_redis_lookup.
  destruct (Cache.redis_lookup now key r) as [e|]; simpl; by rewrite ?Hc, ?Hr.
Qed.

End WithJson.

(** The replies of the examples take an [int] to its decimal text and
    back. *)
Lemma example_json_on_ints : json_on_ints example_dumps example_loads.
Proof.
  intros n. split; [done|]. unfold example_loads.
  rewrite DecimalProofs.int_pretty. by rewrite decide_True.
Qed.

(** A counter of the rate limiter read through either model. *)
Example get_of_int_counter :
  let c := Cache.mkCache (Some (Cache.mkRedis true {["k" := Cache.mkRedisEntry 5 None]}))
                         ∅ true (Cache.mkCacheStats 0 0 0 0 0 0) in
  (Cache.get 100 "k" c).2 = Some 5
  ∧ (get example_loads 100 "k" (of_int_cache c)).2 = PyInt 5.
Proof.
  intros c. split; [reflexivity|].
  by rewrite (get_of_int example_dumps example_loads 100 "k" c example_json_on_ints).
Qed.

Lemma set_then_get_witness :
  let c := mkCache (Some (mkRedis true ∅)) ∅ true (Cache.mkCacheStats 0 0 0 0 0 0) in
  let get := get example_loads in
  let set := set example_dumps default_settings 100 "k" in
  (set (PyInt 7) (Some 30) c).2 = true
  ∧ (get 129 "k" (set (PyInt 7) (Some 30) c).1).2 = PyInt 7
  ∧ (get 130 "k" (set (PyInt 7) (Some 30) c).1).2 = PyNone
  ∧ (get 129 "k" (set (PyStr "hello") (Some 30) c).1).2 = PyStr "hello"
  ∧ (get 129 "k" (set (PyStr "123") (Some 30) c).1).2 = PyInt 123
  ∧ (set (PyObject "a list that contains itself") (Some 30) c).2 = false
  ∧ (get 129 "k" (set (PyObject "a list that contains itself") (Some 30) init).1).2
    = PyObject "a list that contains itself".
Proof.
  intros c get set.
  assert (answers c) as Ha by reflexivity.
  assert (¬ on_fallback c) as Hnfb by (vm_compute; congruence).
  destruct (set_then_get example_dumps example_loads default_settings
              100 129 "k" (PyInt 7) (Some 30) c Ha)
    as (_ & H7 & _); [reflexivity | lia |].
  destruct (H7 Hnfb "7") as (Hs7 & Hg7 & _); [right; by split|].
  destruct (set_then_get example_dumps example_loads default_settings
              100 130 "k" (PyInt 7) (Some 30) c Ha)
    as (_ & H7' & _); [reflexivity | lia |].
  destruct (H7' Hnfb "7") as (_ & Hg7' & _); [right; by split|].
  destruct (set_then_get example_dumps example_loads default_settings
              100 129 "k" (PyStr "hello") (Some 30) c Ha)
    as (_ & Hh & _); [reflexivity | lia |].
  destruct (Hh Hnfb "hello") as (_ & _ & Hgh & _); [by left|].
  destruct (set_then_get example_dumps example_loads default_settings
              100 129 "k" (PyStr "123") (Some 30) c Ha)
    as (_ & Hd & _); [reflexivity | lia |].
  destruct (Hd Hnfb "123") as (_ & Hgd & _); [by left|].
  destruct (set_then_get example_dumps example_loads default_settings
              100 129 "k" (PyObject "a list that contains itself") (Some 30) c Ha)
    as (_ & _ & Ho & _); [reflexivity | lia |].
  destruct (set_then_get example_dumps example_loads default_settings
              100 129 "k" (PyObject "a list that contains itself") (Some 30) init I)
    as (Hf & _); [reflexivity | lia |].
  destruct (Hf eq_refl) as (_ & Hgf).
  split; [exact Hs7|]. split; [exact (Hg7 (PyInt 7) eq_refl)|].
  split; [exact (Hg7' (PyInt 7) eq_refl)|].
  split; [exact (Hgh _ eq_refl eq_refl)|].
  split; [exact (Hgd (PyInt 123) eq_refl)|].
  split; [by apply (Ho Hnfb ltac:(done) _ eq_refl)|]. exact Hgf.
Defined.

Lemma exists_without_value_witness :
  let c := mkCache (Some (mkRedis true ∅)) ∅ true (Cache.mkCacheStats 0 0 0 0 0 0) in
  let c' := (set example_dumps default_settings 100 "k" PyNone (Some 30) c).1 in
  (exists_ 100 "k" c').2 = true ∧ (get example_loads 100 "k" c').2 = PyNone.
Proof.
  intros c c'.
  destruct (exists_without_value example_dumps example_loads 100 "k" c) as (_ & _ & H).
  destruct (H default_settings (Some 30)) as (_ & He & Hg);
    [reflexivity | reflexivity | right; by exists "null" |].
  split; [exact He | exact Hg].
Defined.

End CacheValuesProofs.
